(** * Tree-prior analyses of neural-backed decision trees

    A shallow embedding of [utils/analysis.py]: the evaluation hooks
    ([Noop]), hard routing ([DecisionTreePrior]) and soft routing
    ([DecisionTreeBayesianPrior]), followed by the properties of the
    natural-language specification that concern them.

    Conventions of the embedding.
    - A Python call that may raise is a value of [res]: [Ok v] or
      [Raise e].  The only loop that is not bounded by its input, the
      [while] of hard routing, takes fuel and answers [None] when the fuel
      runs out.
    - A dict is a [gmap]; a Python list is a [list], read with Python's
      indexing rules ([py_index]).
    - A tensor is a shape together with its entries; the scalars are the
      members of an interface [Scalar], so that everything that does not
      depend on the arithmetic holds for every arithmetic.
    - The predictions leave both traversals through a float32 tensor
      ([long_tensor]), which keeps an integer as it is up to [2^24]. *)

From Stdlib Require Import ZArith Lia.
From Stdlib Require Reals Lra.
From stdpp Require Import base option list gmap strings.

Local Open Scope Z_scope.

(** ** Python values and exceptions *)

Inductive exn :=
  | AssertionError
  | IndexError
  | KeyError
  | ValueError
  | ZeroDivisionError
  | OverflowError
  | RuntimeError.

Inductive res (A : Type) :=
  | Ok (a : A)
  | Raise (e : exn).
Arguments Ok {A} a.
Arguments Raise {A} e.

#[global] Instance res_ret : MRet res := fun A a => Ok a.
#[global] Instance res_bind : MBind res := fun A B f m =>
  match m with
  | Ok a => f a
  | Raise e => Raise e
  end.

(** The analyses that keep a confusion matrix or count ignored samples
    raise three exceptions more. *)
Inductive raised :=
  | Core (e : exn)
  | NotImplementedError
  | TypeError
  | AttributeError.

Inductive outcome (A : Type) :=
  | Returns (a : A)
  | Throws (r : raised).
Arguments Returns {A} a.
Arguments Throws {A} r.

#[global] Instance outcome_ret : MRet outcome := fun A a => Returns a.
#[global] Instance outcome_bind : MBind outcome := fun A B f m =>
  match m with
  | Returns a => f a
  | Throws r => Throws r
  end.

(** A call that raises one of the exceptions of [exn] only. *)
Definition lift {A} (r : res A) : outcome A :=
  match r with
  | Ok a => Returns a
  | Raise e => Throws (Core e)
  end.

(** [d[k]] on a dict: [KeyError] when the key is absent. *)
Definition subscript {A} (o : option A) : res A :=
  match o with
  | Some a => Ok a
  | None => Raise KeyError
  end.

(** [l[i]] on a list: a negative [i] counts from the end. *)
Definition py_index {A} (l : list A) (i : Z) : res A :=
  let n := Z.of_nat (length l) in
  if decide (0 <= i < n) then
    match l !! Z.to_nat i with Some a => Ok a | None => Raise IndexError end
  else if decide (- n <= i < 0) then
    match l !! Z.to_nat (n + i) with Some a => Ok a | None => Raise IndexError end
  else Raise IndexError.

(** [l[i]] for an [i] that comes from [range]. *)
Definition py_get {A} (l : list A) (i : nat) : res A :=
  match l !! i with
  | Some a => Ok a
  | None => Raise IndexError
  end.

(** [sum(l)] over booleans: [True] counts for one. *)
Definition py_sum (l : list bool) : Z :=
  foldl (fun acc (b : bool) => if b then acc + 1 else acc) 0 l.

(** [any(l)]. *)
Definition py_any (l : list bool) : bool := existsb (fun b => b) l.

(** [l.index(x)]: the first position of [x], [ValueError] without one. *)
Fixpoint list_index (x : string) (l : list string) : res nat :=
  match l with
  | [] => Raise ValueError
  | y :: l' =>
      if decide (y = x) then Ok 0%nat
      else n ← list_index x l'; Ok (S n)
  end.

(** [{k: v for k, v in zip(ks, vs)}]: a later pair overwrites. *)
Definition dict_of_zip {V} (ks : list string) (vs : list V) : gmap string V :=
  foldl (fun m kv => <[kv.1 := kv.2]> m) ∅ (zip ks vs).

(** A comprehension whose body may raise. *)
Fixpoint for_each {A B} (f : A -> res B) (l : list A) : res (list B) :=
  match l with
  | [] => Ok []
  | a :: l' => b ← f a; bs ← for_each f l'; Ok (b :: bs)
  end.

(** A [for] loop over [l] that threads [s] and may raise. *)
Fixpoint for_fold {A S} (body : S -> A -> res S) (s : S) (l : list A) : res S :=
  match l with
  | [] => Ok s
  | a :: l' => s' ← body s a; for_fold body s' l'
  end.

(** [torch.Tensor(ints).long()] on one entry.  [torch.Tensor] makes a
    float32 tensor: an integer is rounded to 24 significant bits, to
    the nearest and on a tie to the even one; [long()] makes it an
    integer again.  The entries that pass here are positions in a
    Python list or [-1]: a double holds them exactly, so this rounding
    is the only one, and they are far inside the ranges of float32 and
    of int64. *)
Definition long_of_float32 (z : Z) : Z :=
  let a := Z.abs z in
  let e := Z.log2 a - 23 in
  if decide (e <= 0) then z
  else
    let q := a / 2 ^ e in
    let r := a mod 2 ^ e in
    let half := 2 ^ (e - 1) in
    let q' := if decide (r < half) then q
              else if decide (half < r) then q + 1
              else if Z.even q then q else q + 1 in
    Z.sgn z * (q' * 2 ^ e).

(** [torch.Tensor(preds).long()] *)
Definition long_tensor (preds : list Z) : list Z := map long_of_float32 preds.

(** [float(n)] raises [OverflowError] from this magnitude on: the
    greatest float64 is [2^1024 - 2^971], and an integer half a step
    above it is rounded up. *)
Definition float_limit : Z := 2 ^ 1024 - 2 ^ 970.

(** [accuracy = round(self.correct / float(self.total), 4) * 100] in
    the two [update_batch]: the value only goes into the progress
    string, so what the line can do is raise.  [float(self.total)] is
    evaluated first, the division then converts [self.correct] and
    refuses a zero divisor. *)
Definition accuracy_line (correct total : Z) : res unit :=
  if decide (float_limit <= Z.abs total) then Raise OverflowError
  else if decide (float_limit <= Z.abs correct) then Raise OverflowError
  else if decide (total = 0) then Raise ZeroDivisionError
  else Ok tt.

(** ** Scalars and tensors *)

(** What the analyses ask of the numbers in a tensor. *)
Class Scalar (F : Type) := {
  fzero : F;
  fone : F;
  fadd : F -> F -> F;
  fmul : F -> F -> F;
  fdiv : F -> F -> F;
  fexp : F -> F;
  fltb : F -> F -> bool;
  fof_nat : nat -> F
}.

(** The comparison [x == -1] on scalars. *)
Class MinusOne (F : Type) := is_minus_one : F -> bool.

(** A two-dimensional tensor (or numpy array). *)
Record tensor (F : Type) := Tensor {
  shape0 : nat;
  shape1 : nat;
  entry : nat -> nat -> F
}.
Arguments Tensor {F} _ _ _.
Arguments shape0 {F} _.
Arguments shape1 {F} _.
Arguments entry {F} _ _ _.

Section Tensors.
Context {F : Type} `{Scalar F}.

(** The sum of [f 0 .. f (k-1)]. *)
Definition sum_upto (k : nat) (f : nat -> F) : F :=
  foldl (fun acc i => fadd acc (f i)) fzero (seq 0 k).

(** [t.T] *)
Definition transpose (t : tensor F) : tensor F :=
  Tensor (shape1 t) (shape0 t) (fun i j => entry t j i).

(** [t[idxs]] for a list of row numbers. *)
Definition select_rows (t : tensor F) (idxs : list nat) : res (tensor F) :=
  if forallb (fun i => Nat.ltb i (shape0 t)) idxs
  then Ok (Tensor (length idxs) (shape1 t)
             (fun i j => entry t (nth i idxs 0%nat) j))
  else Raise IndexError.

(** [t.mean(dim=0)], a vector with one entry per column. *)
Definition mean_dim0 (t : tensor F) : list F :=
  map (fun j => fdiv (sum_upto (shape0 t) (fun i => entry t i j))
                     (fof_nat (shape0 t)))
      (seq 0 (shape1 t)).

(** [torch.stack(vs)]: the vectors become the rows. *)
Definition stack (vs : list (list F)) : res (tensor F) :=
  match vs with
  | [] => Raise RuntimeError
  | v :: _ =>
      if forallb (fun w => Nat.eqb (length w) (length v)) vs
      then Ok (Tensor (length vs) (length v)
                 (fun i j => nth j (nth i vs []) fzero))
      else Raise RuntimeError
  end.

(** [nn.Softmax(dim=1)] *)
Definition softmax (t : tensor F) : tensor F :=
  Tensor (shape0 t) (shape1 t)
    (fun i j => fdiv (fexp (entry t i j))
                     (sum_upto (shape1 t) (fun k => fexp (entry t i k)))).

(** [np.ones((n, m))] *)
Definition ones (n m : nat) : tensor F := Tensor n m (fun _ _ => fone).

(** The position of the first greatest of [f 0 .. f (k-1)], [0 < k]. *)
Definition argmax (k : nat) (f : nat -> F) : nat :=
  foldl (fun best j => if fltb (f best) (f j) then j else best)
        0%nat (seq 1 (k - 1)).

(** [torch.max(t, dim=1)[1]] and [np.argmax(t, axis=1)]: reducing an
    axis of size zero is refused. *)
Definition argmax_dim1 (t : tensor F) : res (list nat) :=
  if decide (shape1 t = 0%nat) then Raise ValueError
  else Ok (map (fun i => argmax (shape1 t) (entry t i)) (seq 0 (shape0 t))).

(** [cp[:, old_indexes] *= output[:, c:c+1]].  The slice has one column,
    or none when [c] is past the last column; numpy broadcasts it
    against the selected columns, and a column listed twice is still
    multiplied once. *)
Definition imul_columns (cp : tensor F) (old_indexes : list nat)
    (output : tensor F) (c : nat) : res (tensor F) :=
  if negb (forallb (fun i => Nat.ltb i (shape1 cp)) old_indexes)
  then Raise IndexError
  else
    let width := if Nat.ltb c (shape1 output) then 1%nat else 0%nat in
    let rows_ok := bool_decide (shape0 output = shape0 cp)
                   || bool_decide (shape0 output = 1%nat) in
    let cols_ok := bool_decide (width = 1%nat)
                   || bool_decide (length old_indexes = 0%nat) in
    if rows_ok && cols_ok then
      Ok (Tensor (shape0 cp) (shape1 cp)
            (fun s k =>
               if bool_decide (k ∈ old_indexes)
               then fmul (entry cp s k)
                      (entry output
                         (if decide (shape0 output = shape0 cp) then s else 0%nat) c)
               else entry cp s k))
    else Raise ValueError.
End Tensors.

(** ** The hierarchy *)

(** The graph of [utils.graph], of which the analyses use the root lookup
    only. *)
Class GraphOps (Graph : Type) := get_root : Graph -> string.

(** A node of the hierarchy ([utils.data.custom.Node]), as far as the
    analyses read it: its identifier, the identifiers of its children in
    order, the number of node-local classes, the original classes that each
    node-local class stands for, and the graph it belongs to. *)
Record Node (Graph : Type) := {
  wnid : string;
  children : list string;
  num_classes : nat;
  new_to_old_classes : nat -> list nat;
  G : Graph
}.
Arguments wnid {Graph} _.
Arguments children {Graph} _.
Arguments num_classes {Graph} _.
Arguments new_to_old_classes {Graph} _ _.
Arguments G {Graph} _.

(** The node-local scores of every sample:
    [torch.stack([outputs.T[node.new_to_old_classes[new_label]].mean(dim=0)
                  for new_label in range(node.num_classes)]).T] *)
Definition node_logits {F} `{Scalar F} {Graph} (node : Node Graph)
    (outputs : tensor F) : res (tensor F) :=
  vs ← for_each
         (fun new_label =>
            sub ← select_rows (transpose outputs)
                    (new_to_old_classes node new_label);
            Ok (mean_dim0 sub))
         (seq 0 (num_classes node));
  t ← stack vs;
  Ok (transpose t).

(** ** The hooks of [Noop] *)

Module Noop.
(** [start_train], [end_train], [start_test], [end_test] and [end_epoch]
    all have the same body: [assert epoch == self.epoch]. *)
Definition assert_epoch (self_epoch : option Z) (epoch : Z) : res unit :=
  if decide (Some epoch = self_epoch) then Ok tt else Raise AssertionError.
End Noop.

(** The hooks that take an epoch, [start_epoch] apart. *)
Inductive hook := start_train | end_train | start_test | end_test | end_epoch.

(** ** [IgnoredSamples] *)

Module IgnoredSamples.
Record t := {
  epoch : option Z;
  ignored : option Z
}.

Definition init : t := {| epoch := None; ignored := None |}.

Definition start_epoch (self : t) (e : Z) : res t :=
  Ok {| epoch := Some e; ignored := ignored self |}.

Definition start_test (self : t) (e : Z) : res t :=
  _ ← Noop.assert_epoch (epoch self) e;
  Ok {| epoch := epoch self; ignored := Some 0 |}.
End IgnoredSamples.

(** ** [TreeSup.inference] *)

Module TreeSup.
Section Inference.
Context {F : Type} `{Scalar F} {Graph : Type}.

(** Modelled from the spec: [TreeSup.inference] of [models.trees] is
    not part of the analysis file.  A sample is applicable to a node
    iff its ground-truth original class maps, at this node, into one
    of the node's child groups. *)
Definition applicable (node : Node Graph) (target : Z) : bool :=
  existsb
    (fun new_label =>
       existsb (fun old => Z.eqb (Z.of_nat old) target)
               (new_to_old_classes node new_label))
    (seq 0 (num_classes node)).

(** The batch positions at which a mask holds, in batch order. *)
Definition positions (mask : list bool) : list nat :=
  omap (fun ib : nat * bool => if ib.2 then Some ib.1 else None)
       (imap (fun i b => (i, b)) mask).

(** Modelled from the spec: the node-local class of an applicable
    target, the first child group that owns it. *)
Definition local_target (node : Node Graph) (target : Z) : option nat :=
  list_find
    (fun new_label =>
       existsb (fun old => Z.eqb (Z.of_nat old) target)
               (new_to_old_classes node new_label) = true)
    (seq 0 (num_classes node)) ≫= fun p => Some p.2.

(** Modelled from the spec: [TreeSup.inference] of [models.trees] is
    not part of the analysis file.  It answers the selector (one
    boolean per sample, in batch order), the node-local logits of the
    applicable samples only, in batch order, and their node-local
    targets; when no sample is applicable there are no logits. *)
Definition inference (node : Node Graph) (outputs : tensor F)
    (targets : list Z) : res (list bool * tensor F * list nat) :=
  let selector := map (applicable node) targets in
  let targets_sub := omap (local_target node) targets in
  _outputs ← select_rows outputs (positions selector);
  if decide (shape0 _outputs = 0%nat)
  then Ok (selector, Tensor 0 (num_classes node) (entry _outputs), targets_sub)
  else
    outputs_sub ← node_logits node _outputs;
    Ok (selector, outputs_sub, targets_sub).
End Inference.
End TreeSup.

(** ** [DecisionTreePrior]: hard routing *)

Module DecisionTreePrior.
Record t (Graph : Type) := {
  epoch : option Z;
  nodes : list (Node Graph);
  graph : Graph;
  wnid_to_node : gmap string (Node Graph);
  wnids : list string;
  classes : list string;
  wnid_to_class : gmap string string;
  correct : Z;
  total : Z
}.
Arguments epoch {Graph} _.
Arguments nodes {Graph} _.
Arguments graph {Graph} _.
Arguments wnid_to_node {Graph} _.
Arguments wnids {Graph} _.
Arguments classes {Graph} _.
Arguments wnid_to_class {Graph} _.
Arguments correct {Graph} _.
Arguments total {Graph} _.

Section Methods.
Context {F : Type} `{Scalar F} {Graph : Type} `{GraphOps Graph}.

(** The per-node decision data of a batch: for a [wnid], the node-local
    predictions of the applicable samples and the selector. *)
Local Abbreviation decisions := (gmap string (list Z * list bool)).

(** [__init__], given what [Node.get_nodes] and [get_wnids] read from
    the two files and the classes of the training set;
    [self.nodes[0].G] needs a first node. *)
Definition init (trainset_classes : list string)
    (get_nodes : list (Node Graph)) (get_wnids : list string)
    : res (t Graph) :=
  node0 ← py_get get_nodes 0;
  Ok {| epoch := None;
        nodes := get_nodes;
        graph := G node0;
        wnid_to_node :=
          foldl (fun m node => <[wnid node := node]> m) ∅ get_nodes;
        wnids := get_wnids;
        classes := trainset_classes;
        wnid_to_class := dict_of_zip get_wnids trainset_classes;
        correct := 0;
        total := 0 |}.

Definition set_epoch (self : t Graph) (e : option Z) : t Graph :=
  {| epoch := e; nodes := nodes self; graph := graph self;
     wnid_to_node := wnid_to_node self; wnids := wnids self;
     classes := classes self; wnid_to_class := wnid_to_class self;
     correct := correct self; total := total self |}.

Definition set_counters (self : t Graph) (c n : Z) : t Graph :=
  {| epoch := epoch self; nodes := nodes self; graph := graph self;
     wnid_to_node := wnid_to_node self; wnids := wnids self;
     classes := classes self; wnid_to_class := wnid_to_class self;
     correct := c; total := n |}.

(** Inherited from [Noop]. *)
Definition start_epoch (self : t Graph) (e : Z) : res (t Graph) :=
  Ok (set_epoch self (Some e)).

(** Inherited from [Noop]: the four hooks other than [end_test] only
    check the epoch. *)
Definition start_train (self : t Graph) (e : Z) : res (t Graph) :=
  _ ← Noop.assert_epoch (epoch self) e; Ok self.
Definition end_train (self : t Graph) (e : Z) : res (t Graph) :=
  _ ← Noop.assert_epoch (epoch self) e; Ok self.
Definition start_test (self : t Graph) (e : Z) : res (t Graph) :=
  _ ← Noop.assert_epoch (epoch self) e; Ok self.
Definition end_epoch (self : t Graph) (e : Z) : res (t Graph) :=
  _ ← Noop.assert_epoch (epoch self) e; Ok self.

(** [end_test]: the check of [Noop], then the accuracy
    [self.correct / self.total], which is printed. *)
Definition end_test (self : t Graph) (e : Z) : res (t Graph) :=
  _ ← Noop.assert_epoch (epoch self) e;
  if decide (total self = 0) then Raise ZeroDivisionError else Ok self.

(** [sum(selector[:index + 1]) - 1] *)
Definition index_new (selector : list bool) (index : nat) : Z :=
  py_sum (take (index + 1) selector) - 1.

(** One round of the [while] loop of [traverse_tree] for the sample
    [index] at the current [node]: the new values of [wnid] and [node]. *)
Definition loop_body (self : t Graph) (wnid_to_pred_selector : decisions)
    (index : nat) (node : Node Graph)
    : res (option string * option (Node Graph)) :=
  match wnid_to_pred_selector !! wnid node with
  | None => Ok (None, None)
  | Some (pred_sub, selector) =>
      applies ← py_get selector index;
      if negb applies then Ok (None, None)
      else
        index_child ← py_index pred_sub (index_new selector index);
        wnid' ← py_index (children node) index_child;
        Ok (Some wnid', wnid_to_node self !! wnid')
  end.

(** [while node is not None], started at [node]: the value of [wnid] when
    the loop is left, [None] without fuel. *)
Fixpoint walk (self : t Graph) (wnid_to_pred_selector : decisions)
    (index : nat) (fuel : nat) (node : Node Graph)
    : option (res (option string)) :=
  match fuel with
  | O => None
  | S fuel' =>
      match loop_body self wnid_to_pred_selector index node with
      | Raise e => Some (Raise e)
      | Ok (wnid', None) => Some (Ok wnid')
      | Ok (_, Some node') =>
          walk self wnid_to_pred_selector index fuel' node'
      end
  end.

(** [cls = self.wnid_to_class.get(wnid, None)] and
    [pred = -1 if cls is None else self.classes.index(cls)];
    [wnid] itself is [None] for an unresolved sample. *)
Definition class_of_leaf (self : t Graph) (wnid : option string) : res Z :=
  match wnid ≫= fun w => wnid_to_class self !! w with
  | None => Ok (-1)
  | Some cls => n ← list_index cls (classes self); Ok (Z.of_nat n)
  end.

(** One round of [for index in range(n_samples)]. *)
Definition traverse_sample (self : t Graph)
    (wnid_to_pred_selector : decisions) (node_root : Node Graph)
    (fuel : nat) (index : nat) : option (res Z) :=
  match walk self wnid_to_pred_selector index fuel node_root with
  | None => None
  | Some (Raise e) => Some (Raise e)
  | Some (Ok wnid) => Some (class_of_leaf self wnid)
  end.

(** The rounds in order; the first that raises ends the call. *)
Fixpoint traverse_samples (self : t Graph)
    (wnid_to_pred_selector : decisions) (node_root : Node Graph)
    (fuel : nat) (indexes : list nat) : option (res (list Z)) :=
  match indexes with
  | [] => Some (Ok [])
  | index :: rest =>
      match traverse_sample self wnid_to_pred_selector node_root fuel index with
      | None => None
      | Some (Raise e) => Some (Raise e)
      | Some (Ok pred) =>
          match traverse_samples self wnid_to_pred_selector node_root fuel rest with
          | None => None
          | Some (Raise e) => Some (Raise e)
          | Some (Ok preds) => Some (Ok (pred :: preds))
          end
      end
  end.

(** [traverse_tree(self, _, wnid_to_pred_selector, n_samples)]; [fuel]
    bounds the rounds of each [while] loop. *)
Definition traverse_tree (fuel : nat) (self : t Graph) (_predicted : list Z)
    (wnid_to_pred_selector : decisions) (n_samples : nat)
    : option (res (list Z)) :=
  let wnid_root := get_root (graph self) in
  match subscript (wnid_to_node self !! wnid_root) with
  | Raise e => Some (Raise e)
  | Ok node_root =>
      match traverse_samples self wnid_to_pred_selector node_root fuel
              (seq 0 n_samples) with
      | None => None
      | Some (Raise e) => Some (Raise e)
      | Some (Ok preds) => Some (Ok (long_tensor preds))
      end
  end.

(** The first loop of [update_batch]: the decision data of the batch. *)
Definition collect (self : t Graph) (outputs : tensor F) (targets : list Z)
    : res decisions :=
  for_fold
    (fun (wnid_to_pred_selector : decisions) node =>
       '(selector, outputs_sub, _) ← TreeSup.inference node outputs targets;
       if negb (py_any selector) then Ok wnid_to_pred_selector
       else
         preds_sub ← argmax_dim1 outputs_sub;
         Ok (<[wnid node := (map Z.of_nat preds_sub, selector)]>
               wnid_to_pred_selector))
    ∅ (nodes self).

(** [(predicted == targets).sum().item()]: the two are compared entry
    by entry, a tensor with one entry against every entry of the
    other. *)
Definition count_equal (predicted targets : list Z) : res Z :=
  let hits l := Z.of_nat (length (filter (fun pt : Z * Z => pt.1 = pt.2) l)) in
  if decide (length predicted = length targets)
  then Ok (hits (zip predicted targets))
  else match predicted, targets with
       | [p], _ => Ok (hits (map (fun t => (p, t)) targets))
       | _, [t] => Ok (hits (map (fun p => (p, t)) predicted))
       | _, _ => Raise RuntimeError
       end.

(** [update_batch]: the counters are updated, then the accuracy is
    computed for the progress string, which is all the call answers. *)
Definition update_batch (fuel : nat) (self : t Graph) (outputs : tensor F)
    (predicted targets : list Z) : option (res (t Graph)) :=
  match collect self outputs targets with
  | Raise e => Some (Raise e)
  | Ok wnid_to_pred_selector =>
      let n_samples := shape0 outputs in
      match traverse_tree fuel self predicted wnid_to_pred_selector n_samples with
      | None => None
      | Some (Raise e) => Some (Raise e)
      | Some (Ok predicted') =>
          Some (let total' := total self + Z.of_nat n_samples in
                hits ← count_equal predicted' targets;
                let correct' := correct self + hits in
                _ ← accuracy_line correct' total';
                Ok (set_counters self correct' total'))
      end
  end.
End Methods.
End DecisionTreePrior.


(** ** [DecisionTreeBayesianPrior]: soft routing *)

Module DecisionTreeBayesianPrior.
Import DecisionTreePrior.

Section Methods.
Context {F : Type} `{Scalar F} {Graph : Type} `{GraphOps Graph}.

(** The first loop of [update_batch]: the node-local scores of every
    node, under the node's [wnid]. *)
Definition collect (self : t Graph) (outputs : tensor F)
    : res (gmap string (tensor F)) :=
  for_fold
    (fun (wnid_to_output : gmap string (tensor F)) node =>
       node_outputs ← node_logits node outputs;
       Ok (<[wnid node := node_outputs]> wnid_to_output))
    ∅ (nodes self).

(** The inner loop of [traverse_tree]:
    [for index_child in range(len(node.children))]. *)
Definition scale_node (node : Node Graph) (output : tensor F)
    (class_probs : tensor F) : res (tensor F) :=
  for_fold
    (fun class_probs index_child =>
       let old_indexes := new_to_old_classes node index_child in
       imul_columns class_probs old_indexes output index_child)
    class_probs (seq 0 (length (children node))).

(** The outer loop of [traverse_tree]: [for node in self.nodes]. *)
Definition class_probs_of (self : t Graph)
    (wnid_to_output : gmap string (tensor F)) (n_samples : nat)
    : res (tensor F) :=
  for_fold
    (fun class_probs node =>
       output ← subscript (wnid_to_output !! wnid node);
       scale_node node (softmax output) class_probs)
    (ones n_samples (length (classes self))) (nodes self).

(** [traverse_tree(self, _, wnid_to_output, n_samples)] *)
Definition traverse_tree (self : t Graph) (_predicted : list Z)
    (wnid_to_output : gmap string (tensor F)) (n_samples : nat)
    : res (list Z) :=
  class_probs ← class_probs_of self wnid_to_output n_samples;
  preds ← argmax_dim1 class_probs;
  Ok (long_tensor (map Z.of_nat preds)).

(** [update_batch]: the counters are updated, then the accuracy is
    computed for the progress string. *)
Definition update_batch (self : t Graph) (outputs : tensor F)
    (predicted targets : list Z) : res (t Graph) :=
  wnid_to_output ← collect self outputs;
  let n_samples := shape0 outputs in
  predicted' ← traverse_tree self predicted wnid_to_output n_samples;
  let total' := total self + Z.of_nat n_samples in
  hits ← count_equal predicted' targets;
  let correct' := correct self + hits in
  _ ← accuracy_line correct' total';
  Ok (set_counters self correct' total').

(** [end_test] is overridden without the call to the parent's: only the
    accuracy is computed and printed. *)
Definition end_test (self : t Graph) (e : Z) : res (t Graph) :=
  if decide (total self = 0) then Raise ZeroDivisionError else Ok self.

(** [start_test] is inherited along [DecisionTreePrior] from [Noop]. *)
Definition start_test (self : t Graph) (e : Z) : res (t Graph) :=
  DecisionTreePrior.start_test self e.
End Methods.
End DecisionTreeBayesianPrior.

(** ** The hooks of the two analyses, by name *)

Inductive analysis := HardRouting | SoftRouting.

Definition call_hook {Graph} (a : analysis) (h : hook)
    (self : DecisionTreePrior.t Graph) (e : Z)
    : res (DecisionTreePrior.t Graph) :=
  match h, a with
  | start_train, _ => DecisionTreePrior.start_train self e
  | end_train, _ => DecisionTreePrior.end_train self e
  | start_test, _ => DecisionTreePrior.start_test self e
  | end_epoch, _ => DecisionTreePrior.end_epoch self e
  | end_test, HardRouting => DecisionTreePrior.end_test self e
  | end_test, SoftRouting => DecisionTreeBayesianPrior.end_test self e
  end.

(** ** [IgnoredSamples]: the batches *)

Module IgnoredBatches.
Import IgnoredSamples.

Section Methods.
Context {F : Type} `{MinusOne F}.

(** [outputs[:,0].eq(-1).sum().item()]: the rows whose first entry is
    [-1]; there has to be a first column. *)
Definition ignored_in (outputs : tensor F) : res Z :=
  if decide (shape1 outputs = 0%nat) then Raise IndexError
  else Ok (Z.of_nat (length (filter (fun s => is_minus_one (entry outputs s 0%nat) = true)
                               (seq 0 (shape0 outputs))))).

(** [update_batch]: [self.ignored += ...]; the right-hand side is
    computed first, and [None] cannot be added to. *)
Definition update_batch (self : t) (outputs : tensor F) : outcome t :=
  count ← lift (ignored_in outputs);
  match ignored self with
  | None => Throws TypeError
  | Some n => Returns {| epoch := epoch self; ignored := Some (n + count) |}
  end.

(** [end_test]: the check of [Noop], then the count is printed. *)
Definition end_test (self : t) (e : Z) : outcome t :=
  _ ← lift (Noop.assert_epoch (epoch self) e); Returns self.
End Methods.
End IgnoredBatches.

(** ** [ConfusionMatrix] *)

(** An integer tensor as [update_batch] reads it: its shape and its
    entries in the order of [ravel()]. *)
Record itensor := {
  ishape : list nat;
  ivalues : list Z
}.

(** The axis of a matrix along which [normalize] sums; [recall] and
    [precision] are its only callers. *)
Inductive axis := Axis0 | Axis1.

Module ConfusionMatrix.
Record t (F : Type) := {
  epoch : option Z;
  k : nat;
  m : option (tensor F)
}.
Arguments epoch {F} _.
Arguments k {F} _.
Arguments m {F} _.

Section Methods.
Context {F : Type} `{Scalar F}.

(** [__init__], given the classes of the training set. *)
Definition init (trainset_classes : list string) : t F :=
  {| epoch := None; k := length trainset_classes; m := None |}.

(** Inherited from [Noop]. *)
Definition start_epoch (self : t F) (e : Z) : outcome (t F) :=
  Returns {| epoch := Some e; k := k self; m := m self |}.

(** [start_train]: the check of [Noop], then [NotImplementedError]. *)
Definition start_train (self : t F) (e : Z) : outcome (t F) :=
  _ ← lift (Noop.assert_epoch (epoch self) e);
  Throws NotImplementedError.

(** [start_test]: the check of [Noop], then [np.zeros((self.k, self.k))]. *)
Definition start_test (self : t F) (e : Z) : outcome (t F) :=
  _ ← lift (Noop.assert_epoch (epoch self) e);
  Returns {| epoch := epoch self; k := k self;
             m := Some (Tensor (k self) (k self) (fun _ _ => fzero)) |}.

(** An index into an axis of [n] entries: a negative index counts from
    the end. *)
Definition axis_index (n : nat) (i : Z) : res nat :=
  if decide (0 <= i < Z.of_nat n) then Ok (Z.to_nat i)
  else if decide (- Z.of_nat n <= i < 0) then Ok (Z.to_nat (Z.of_nat n + i))
  else Raise IndexError.

(** [confusion_matrix[label, pred] += 1] *)
Definition increment (cm : tensor F) (label pred : Z) : res (tensor F) :=
  row ← axis_index (shape0 cm) label;
  col ← axis_index (shape1 cm) pred;
  Ok (Tensor (shape0 cm) (shape1 cm)
        (fun i j => if decide (i = row ∧ j = col)
                    then fadd (entry cm i j) fone else entry cm i j)).

(** [update(confusion_matrix, preds, labels)] on a matrix. *)
Definition update (cm : tensor F) (preds labels : list Z) : res (tensor F) :=
  for_fold (fun cm (pl : Z * Z) => increment cm pl.2 pl.1) cm (zip preds labels).

(** [update] on the attribute [self.m], which is [None] before the first
    test phase: subscripting [None] is a [TypeError], at the first pair. *)
Definition update_attribute (cm : option (tensor F)) (preds labels : list Z)
    : outcome (option (tensor F)) :=
  match cm with
  | Some cm => cm' ← lift (update cm preds labels); Returns (Some cm')
  | None =>
      match zip preds labels with
      | [] => Returns None
      | _ :: _ => Throws TypeError
      end
  end.

(** [update_batch]: only predictions of one dimension are counted. *)
Definition update_batch (self : t F) (predicted targets : itensor)
    : outcome (t F) :=
  if decide (length (ishape predicted) = 1%nat) then
    cm ← update_attribute (m self) (ivalues predicted) (ivalues targets);
    Returns {| epoch := epoch self; k := k self; m := cm |}
  else Returns self.

(** [normalize(confusion_matrix, axis)]: every entry divided by the sum
    of its row ([axis == 1]) or of its column ([axis == 0]); [np.float]
    is the float type of the numpy that the file was written for, and a
    division by zero gives [nan] and no exception. *)
Definition normalize (cm : tensor F) (a : axis) : tensor F :=
  Tensor (shape0 cm) (shape1 cm)
    (fun i j =>
       fdiv (entry cm i j)
            (match a with
             | Axis1 => sum_upto (shape1 cm) (fun j' => entry cm i j')
             | Axis0 => sum_upto (shape0 cm) (fun i' => entry cm i' j)
             end)).

(** [recall] and [precision]; [None] has no [astype]. *)
Definition recall (self : t F) : outcome (tensor F) :=
  match m self with
  | Some cm => Returns (normalize cm Axis1)
  | None => Throws AttributeError
  end.

Definition precision (self : t F) : outcome (tensor F) :=
  match m self with
  | Some cm => Returns (normalize cm Axis0)
  | None => Throws AttributeError
  end.

(** [end_test]: the check of [Noop], then the recall is printed. *)
Definition end_test (self : t F) (e : Z) : outcome (t F) :=
  _ ← lift (Noop.assert_epoch (epoch self) e);
  _ ← recall self;
  Returns self.
End Methods.
End ConfusionMatrix.

(** The pairs of a batch that fall on the cell [(i, j)] of a matrix of
    [rows] by [cols] entries: those whose label indexes row [i] and whose
    prediction indexes column [j]. *)
Definition falls_on (rows cols i j : nat) (pl : Z * Z) : bool :=
  match ConfusionMatrix.axis_index rows pl.2, ConfusionMatrix.axis_index cols pl.1 with
  | Ok row, Ok col => Nat.eqb row i && Nat.eqb col j
  | _, _ => false
  end.

Definition pairs_on (rows cols : nat) (preds labels : list Z) (i j : nat) : nat :=
  length (filter (fun pl => falls_on rows cols i j pl = true) (zip preds labels)).

(** ** Concrete scalars, graphs and hierarchies *)

(** Exact arithmetic: the real numbers with their exponential. *)
#[global] Instance Rscalar : Scalar Rdefinitions.R := {|
  fzero := Rdefinitions.IZR 0;
  fone := Rdefinitions.IZR 1;
  fadd := Rdefinitions.Rplus;
  fmul := Rdefinitions.Rmult;
  fdiv := Rdefinitions.Rdiv;
  fexp := Rtrigo_def.exp;
  fltb := fun x y => if RIneq.Rlt_dec x y then true else false;
  fof_nat := Raxioms.INR
|}.

(** Rational scores, with [2 ^ floor x] in the place of the exponential
    and zero for a division by zero.  This is not the arithmetic of the
    program, and no general statement rests on it: the definitions are
    run on it at examples, whose scores it orders as the exponential
    does and which divide by no zero. *)
#[global] Instance Qscalar : Scalar QArith_base.Q := {|
  fzero := QArith_base.Qmake 0 1;
  fone := QArith_base.Qmake 1 1;
  fadd := QArith_base.Qplus;
  fmul := QArith_base.Qmult;
  fdiv := QArith_base.Qdiv;
  fexp := fun x => QArith_base.Qpower (QArith_base.Qmake 2 1) (Qround.Qfloor x);
  fltb := fun x y => if QArith_base.Qlt_le_dec x y then true else false;
  fof_nat := fun n => QArith_base.Qmake (Z.of_nat n) 1
|}.

(** A graph that is given by the [wnid] of its root. *)
#[global] Instance rooted : GraphOps string := fun g => g.

#[global] Instance Qminus_one : MinusOne QArith_base.Q :=
  fun x => QArith_base.Qeq_bool x (QArith_base.Qmake (-1) 1).

Module Example.
(** One node over two classes: the flat classifier. *)
Definition flat_node : Node string := {|
  wnid := "root";
  children := ["n01"; "n02"];
  num_classes := 2;
  new_to_old_classes := fun j => if Nat.ltb j 2 then [j] else [];
  G := "root"
|}.

(** Two levels over four classes: the root splits them into {0, 1} and
    {2, 3}, and a node below each side picks one of its two. *)
Definition top : Node string := {|
  wnid := "root";
  children := ["left"; "right"];
  num_classes := 2;
  new_to_old_classes := fun j =>
    match j with 0%nat => [0; 1]%nat | 1%nat => [2; 3]%nat | _ => [] end;
  G := "root"
|}.
Definition left : Node string := {|
  wnid := "left";
  children := ["n00"; "n01"];
  num_classes := 2;
  new_to_old_classes := fun j =>
    match j with 0%nat => [0]%nat | 1%nat => [1]%nat | _ => [] end;
  G := "root"
|}.
Definition right : Node string := {|
  wnid := "right";
  children := ["n02"; "n03"];
  num_classes := 2;
  new_to_old_classes := fun j =>
    match j with 0%nat => [2]%nat | 1%nat => [3]%nat | _ => [] end;
  G := "root"
|}.

(** A tensor from its rows of integers. *)
Definition rows (m : nat) (l : list (list Z)) : tensor QArith_base.Q :=
  Tensor (length l) m
    (fun i j => QArith_base.Qmake (nth j (nth i l []) 0) 1).

(** The analysis object for a list of nodes, as [__init__] leaves it. *)
Definition object (cls : list string) (ns : list (Node string))
    (ws : list string) : DecisionTreePrior.t string :=
  match DecisionTreePrior.init cls ns ws with
  | Ok self => self
  | Raise _ =>
      {| DecisionTreePrior.epoch := None; DecisionTreePrior.nodes := [];
         DecisionTreePrior.graph := ""; DecisionTreePrior.wnid_to_node := ∅;
         DecisionTreePrior.wnids := []; DecisionTreePrior.classes := [];
         DecisionTreePrior.wnid_to_class := ∅;
         DecisionTreePrior.correct := 0; DecisionTreePrior.total := 0 |}
  end.

Definition flat : DecisionTreePrior.t string :=
  object ["cat"; "dog"] [flat_node] ["n01"; "n02"].

Definition two_level : DecisionTreePrior.t string :=
  object ["c0"; "c1"; "c2"; "c3"] [top; left; right]
    ["n00"; "n01"; "n02"; "n03"].


(** A batch of two samples over the four classes, with targets 2 and 1:
    the first sample favours class 2, the second class 0. *)
Definition batch : tensor QArith_base.Q := rows 4 [[0; 0; 5; 1]; [3; 0; 0; 1]].
Definition targets : list Z := [2; 1].

(** The decision data that hard routing collects for this batch. *)
Definition decisions : gmap string (list Z * list bool) :=
  match DecisionTreePrior.collect two_level batch targets with
  | Ok wnid_to_pred_selector => wnid_to_pred_selector
  | Raise _ => ∅
  end.

(** The node-local scores that soft routing collects for this batch. *)
Definition scores : gmap string (tensor QArith_base.Q) :=
  match DecisionTreeBayesianPrior.collect two_level batch with
  | Ok wnid_to_output => wnid_to_output
  | Raise _ => ∅
  end.

(** A batch of one sample over the two classes of the flat hierarchy, in
    exact arithmetic: the scores 0 and 1. *)
Definition real_batch : tensor Rdefinitions.R :=
  Tensor 1 2 (fun _ j => Raxioms.INR j).

(** The two-level hierarchy with its nodes listed in another order. *)
Definition reordered : DecisionTreePrior.t string :=
  object ["c0"; "c1"; "c2"; "c3"] [top; right; left]
    ["n00"; "n01"; "n02"; "n03"].

(** A batch of two samples over the four classes in exact arithmetic. *)
Definition real_batch4 : tensor Rdefinitions.R :=
  Tensor 2 4 (fun i j => Raxioms.INR (i + j)).

(** A confusion matrix over two classes at the start of a test phase. *)
Definition confusion : ConfusionMatrix.t QArith_base.Q :=
  {| ConfusionMatrix.epoch := Some 0; ConfusionMatrix.k := 2;
     ConfusionMatrix.m := None |}.

(** Two epochs of a driver on the flat hierarchy, with one test batch of
    one sample (scores 0 and 1, target 1) in the first. *)
Definition first_test_phase (soft : bool) : option (res (DecisionTreePrior.t string)) :=
  let batch := rows 2 [[0; 1]] in
  match DecisionTreePrior.start_epoch flat 0 ≫= fun self =>
        DecisionTreePrior.start_test self 0 with
  | Raise e => Some (Raise e)
  | Ok self =>
      if soft then Some (DecisionTreeBayesianPrior.update_batch self batch [] [1])
      else DecisionTreePrior.update_batch 2 self batch [] [1]
  end.

Definition second_test_phase (soft : bool) : option (res (DecisionTreePrior.t string)) :=
  match first_test_phase soft with
  | None => None
  | Some r =>
      Some (self ← r;
            self ← call_hook (if soft then SoftRouting else HardRouting) end_test self 0;
            self ← DecisionTreePrior.end_epoch self 0;
            self ← DecisionTreePrior.start_epoch self 1;
            DecisionTreePrior.start_test self 1)
  end.

(** A hierarchy of one node over [m + 1] classes, as [__init__] leaves
    it: the last class, and only it, is the class of the node's one
    leaf. *)
Definition tall_node : Node string := {|
  wnid := "root";
  children := ["leaf"];
  num_classes := 1;
  new_to_old_classes := fun _ => [];
  G := "root"
|}.
Definition tall (m : nat) : DecisionTreePrior.t string :=
  object (replicate m "a" ++ ["b"]) [tall_node] (replicate m "x" ++ ["leaf"]).

(** Decision data that sends the one sample of a batch to that leaf. *)
Definition to_leaf : gmap string (list Z * list bool) :=
  {[ "root" := ([0], [true]) ]}.

(** A hierarchy of one node over [m + 1] classes, as [__init__] leaves
    it: the first child owns the classes before the last, the second
    child the last one. *)
Definition wide_node (m : nat) : Node string := {|
  wnid := "root";
  children := ["low"; "high"];
  num_classes := 2;
  new_to_old_classes := fun j =>
    match j with 0%nat => seq 0 m | 1%nat => [m] | _ => [] end;
  G := "root"
|}.
Definition wide (m : nat) : DecisionTreePrior.t string :=
  object (replicate (S m) "c") [wide_node m] [].

(** Node-local scores of one sample for that node: 0 for the first
    child and 1 for the second. *)
Definition wide_scores : gmap string (tensor Rdefinitions.R) :=
  {[ "root" := real_batch ]}.

(** Decision data of the flat hierarchy that marks the one sample as
    applicable and holds no local prediction for it. *)
Definition short_data : gmap string (list Z * list bool) :=
  {[ "root" := ([], [true]) ]}.

(** A counter of ignored samples in a test phase, and a batch of three
    samples of which the first and the last begin with -1. *)
Definition counting : IgnoredSamples.t :=
  {| IgnoredSamples.epoch := Some 0; IgnoredSamples.ignored := Some 0 |}.
Definition marked_batch : tensor QArith_base.Q :=
  rows 2 [[-1; 0]; [3; 0]; [-1; 5]].

(** The two counters of an object that a run has left. *)
Definition counters (r : option (res (DecisionTreePrior.t string))) : option (Z * Z) :=
  match r with
  | Some (Ok self) => Some (DecisionTreePrior.correct self, DecisionTreePrior.total self)
  | _ => None
  end.
End Example.

(** * The words of the specification *)

Module Spec.
Section HardRouting.
Context {Graph : Type}.
Implicit Types (self : DecisionTreePrior.t Graph) (node : Node Graph).

(** How many applicable samples precede and include the sample [index]. *)
Definition applicable_upto (selector : list bool) (index : nat) : nat :=
  length (filter (fun j => selector !! j = Some true) (seq 0 (S index))).

(** The local predictions in lock-step with the selector: out of one
    prediction per sample, those of the applicable samples, in batch
    order. *)
Definition applicable_only (selector : list bool) (per_sample : list Z) : list Z :=
  omap (fun bp : bool * Z => if bp.1 then Some bp.2 else None)
       (zip selector per_sample).

(** The output mapping: a leaf identifier gives the position, among the
    original classes, of the class that the wnid-to-class lookup finds for
    it; the sentinel stands for a leaf that the lookup does not know. *)
Inductive leaf_class self (leaf : string) : Z -> Prop :=
  | leaf_known cls n :
      DecisionTreePrior.wnid_to_class self !! leaf = Some cls ->
      DecisionTreePrior.classes self !! n = Some cls ->
      (∀ m, (m < n)%nat -> DecisionTreePrior.classes self !! m ≠ Some cls) ->
      leaf_class self leaf (Z.of_nat n)
  | leaf_unknown :
      DecisionTreePrior.wnid_to_class self !! leaf = None ->
      leaf_class self leaf (-1).

(** The transitions of hard routing for the sample [index], from a current
    node to the result of the sample. *)
Inductive routes self (decisions : gmap string (list Z * list bool))
    (index : nat) : Node Graph -> Z -> Prop :=
  | routes_no_data node :
      decisions !! wnid node = None ->
      routes self decisions index node (-1)
  | routes_inapplicable node pred_sub selector :
      decisions !! wnid node = Some (pred_sub, selector) ->
      selector !! index = Some false ->
      routes self decisions index node (-1)
  | routes_leaf node pred_sub selector index_child leaf pred :
      decisions !! wnid node = Some (pred_sub, selector) ->
      selector !! index = Some true ->
      py_index pred_sub (Z.of_nat (applicable_upto selector index) - 1)
        = Ok index_child ->
      py_index (children node) index_child = Ok leaf ->
      DecisionTreePrior.wnid_to_node self !! leaf = None ->
      leaf_class self leaf pred ->
      routes self decisions index node pred
  | routes_child node pred_sub selector index_child child node' pred :
      decisions !! wnid node = Some (pred_sub, selector) ->
      selector !! index = Some true ->
      py_index pred_sub (Z.of_nat (applicable_upto selector index) - 1)
        = Ok index_child ->
      py_index (children node) index_child = Ok child ->
      DecisionTreePrior.wnid_to_node self !! child = Some node' ->
      routes self decisions index node' pred ->
      routes self decisions index node pred.

(** A chain of [k] child links from the node [root]. *)
Inductive chain self (root : Node Graph) : nat -> Node Graph -> Prop :=
  | chain_root : chain self root 0 root
  | chain_link k node child node' :
      chain self root k node ->
      child ∈ children node ->
      DecisionTreePrior.wnid_to_node self !! child = Some node' ->
      chain self root (S k) node'.

(** The child links below [root] form a finite acyclic graph: no chain
    has [bound] links or more. *)
Definition acyclic_below self (root : Node Graph) (bound : nat) : Prop :=
  ∀ k node, chain self root k node -> (k < bound)%nat.

(** The decision data of a node is well shaped for a batch of [n_samples]:
    a selector entry per sample, a local prediction per applicable sample,
    and every local prediction the position of a child. *)
Definition well_shaped node (n_samples : nat) (data : list Z * list bool) : Prop :=
  length data.2 = n_samples
  ∧ length data.1 = length (filter (fun b => b = true) data.2)
  ∧ Forall (fun c => 0 <= c < Z.of_nat (length (children node))) data.1.
(** How the loop of a sample may be left: at the sentinel, at a leaf
    identifier, or with [IndexError] on decision data that is not well
    shaped. *)
Definition exits self (decisions : gmap string (list Z * list bool))
    (root : Node Graph) (index : nat)
    (r : res (option string)) : Prop :=
  r = Ok None
  ∨ (∃ leaf, r = Ok (Some leaf)
             ∧ DecisionTreePrior.wnid_to_node self !! leaf = None)
  ∨ (r = Raise IndexError
     ∧ ∃ k node data,
         chain self root k node ∧ decisions !! wnid node = Some data
         ∧ ∀ n_samples, (index < n_samples)%nat ->
             ¬ well_shaped node n_samples data).

End HardRouting.

Section SoftRouting.
Context {F : Type} `{Scalar F} {Graph : Type}.
Implicit Types (node : Node Graph) (outputs : tensor F).

(** The mean of the raw scores of sample [s] in the columns [olds]. *)
Definition mean_over outputs (s : nat) (olds : list nat) : F :=
  fdiv (foldl (fun acc c => fadd acc (entry outputs s c)) fzero olds)
       (fof_nat (length olds)).

(** The score of the node-local class [j] of a node for sample [s]. *)
Definition score node outputs (s j : nat) : F :=
  mean_over outputs s (new_to_old_classes node j).

(** The softmax-normalized node-local probability of child [j]. *)
Definition local_prob node outputs (s j : nat) : F :=
  fdiv (fexp (score node outputs s j))
       (sum_upto (num_classes node) (fun k => fexp (score node outputs s k))).

(** The factors that a node contributes to the original class [c]: the
    probability of every child that owns [c], in the order of the
    children. *)
Definition node_factors node (prob : nat -> F) (c : nat) : list F :=
  omap (fun j => if bool_decide (c ∈ new_to_old_classes node j)
                 then Some (prob j) else None)
       (seq 0 (length (children node))).

(** The probability of the original class [c] for sample [s]: all ones,
    multiplied by the factors of every node in turn. *)
Definition class_prob (nodes : list (Node Graph)) outputs (s c : nat) : F :=
  foldl fmul fone
    (nodes ≫= fun node => node_factors node (local_prob node outputs s) c).

(** The position of the greatest of [f 0 .. f (k-1)]: an entry takes
    the place of the greatest before it only when it is greater, so
    that among equal entries the first stands. *)
Fixpoint greatest (k : nat) (f : nat -> F) : nat :=
  match k with
  | O => 0%nat
  | S k' =>
      let m := greatest k' f in
      if fltb (f m) (f k') then k' else m
  end.

(** The prediction of soft routing for sample [s]: the position of the
    greatest class probability. *)
Definition prediction (nodes : list (Node Graph)) outputs (n_classes s : nat) : Z :=
  Z.of_nat (greatest n_classes (class_prob nodes outputs s)).

(** The hierarchy fits the batch: every node has a node-local class, every
    original class that a node-local class or a child owns is a column of
    the raw outputs and an original class, every child is a node-local
    class, and there is an original class. *)
Definition fits (nodes : list (Node Graph)) (n_classes : nat) outputs : Prop :=
  (0 < n_classes)%nat
  ∧ ∀ node, node ∈ nodes ->
      (0 < num_classes node)%nat
      ∧ (length (children node) <= num_classes node)%nat
      ∧ (∀ j c, (j < num_classes node)%nat -> c ∈ new_to_old_classes node j ->
           (c < shape1 outputs)%nat)
      ∧ (∀ j c, (j < length (children node))%nat ->
           c ∈ new_to_old_classes node j -> (c < n_classes)%nat).
End SoftRouting.

Section IgnoredRows.
Context {F : Type} `{MinusOne F}.

(** How many of the first [n] rows begin with -1. *)
Fixpoint minus_one_rows (outputs : tensor F) (n : nat) : Z :=
  match n with
  | O => 0
  | S n' =>
      minus_one_rows outputs n'
      + (if is_minus_one (entry outputs n' 0%nat) then 1 else 0)
  end.
End IgnoredRows.
End Spec.

(** * Properties *)

(** ** The hooks *)

Section Hooks.
Context {Graph : Type}.
Implicit Types (self : DecisionTreePrior.t Graph) (e : Z).

Lemma assert_epoch_same e : Noop.assert_epoch (Some e) e = Ok tt.
Proof. unfold Noop.assert_epoch. by rewrite decide_True. Qed.

Lemma assert_epoch_other (last : option Z) e :
  last ≠ Some e -> Noop.assert_epoch last e = Raise AssertionError.
Proof. intros Hne. unfold Noop.assert_epoch. rewrite decide_False; congruence. Qed.

(** Every hook of hard routing, and every hook of soft routing but
    [end_test], refuses an epoch that [start_epoch] did not set. *)
Lemma checked_hooks_refuse a h self e :
  (a, h) ≠ (SoftRouting, end_test) ->
  DecisionTreePrior.epoch self ≠ Some e ->
  call_hook a h self e = Raise AssertionError.
Proof.
  intros Hah Hne.
  destruct a, h; try congruence; simpl;
    unfold DecisionTreePrior.start_train, DecisionTreePrior.end_train,
      DecisionTreePrior.start_test, DecisionTreePrior.end_test,
      DecisionTreePrior.end_epoch;
    by rewrite (assert_epoch_other _ _ Hne).
Qed.

(** With the epoch that [start_epoch] set, no hook fails on the check:
    four of them return, and [end_test] can only fail on an empty total. *)
Lemma hooks_accept a h self e :
  DecisionTreePrior.epoch self = Some e ->
  call_hook a h self e = Ok self
  ∨ (h = end_test ∧ DecisionTreePrior.total self = 0
     ∧ call_hook a h self e = Raise ZeroDivisionError).
Proof.
  intros He.
  destruct a, h; simpl;
    unfold DecisionTreePrior.start_train, DecisionTreePrior.end_train,
      DecisionTreePrior.start_test, DecisionTreePrior.end_test,
      DecisionTreePrior.end_epoch, DecisionTreeBayesianPrior.end_test;
    rewrite ?He, ?assert_epoch_same; simpl; auto;
    case_decide; auto.
Qed.

(** [start_test] leaves the two counters as they are. *)
Lemma start_test_keeps_counters self e self' :
  DecisionTreePrior.start_test self e = Ok self' ->
  DecisionTreePrior.correct self' = DecisionTreePrior.correct self
  ∧ DecisionTreePrior.total self' = DecisionTreePrior.total self.
Proof.
  unfold DecisionTreePrior.start_test.
  destruct (Noop.assert_epoch _ _); simpl; [|done].
  by intros [= <-].
Qed.
End Hooks.

(** C5. On the object of soft routing, after [start_epoch(0)] and a test
    batch, [end_test(1)] returns although the epoch is not the one that
    [start_epoch] set; the same call on the object of hard routing fails
    with [AssertionError]. *)
Theorem soft_end_test_skips_epoch_check :
  ∃ self,
    Example.first_test_phase true = Some (Ok self)
    ∧ DecisionTreePrior.epoch self = Some 0
    ∧ call_hook SoftRouting end_test self 1 = Ok self
    ∧ call_hook HardRouting end_test self 1 = Raise AssertionError.
Proof. eexists. split; [vm_compute; reflexivity|]. by vm_compute. Qed.

(** ** The counters *)

Section Counters.
Context {F : Type} `{Scalar F} {Graph : Type} `{GraphOps Graph}.
Implicit Types (self : DecisionTreePrior.t Graph) (outputs : tensor F).

Lemma count_equal_nonneg (predicted targets : list Z) hits :
  DecisionTreePrior.count_equal predicted targets = Ok hits -> 0 <= hits.
Proof.
  unfold DecisionTreePrior.count_equal. cbv zeta.
  case_decide; [intros [= <-]; apply Nat2Z.is_nonneg|].
  destruct predicted as [|p [|]], targets as [|t [|]]; intros [= <-];
    apply Nat2Z.is_nonneg.
Qed.

(** With a target per prediction, the hits are the positions at which the
    two agree. *)
Lemma count_equal_same_length (predicted targets : list Z) :
  length predicted = length targets ->
  DecisionTreePrior.count_equal predicted targets
  = Ok (Z.of_nat (length (filter (fun pt : Z * Z => pt.1 = pt.2)
                            (zip predicted targets)))).
Proof. intros Hlen. unfold DecisionTreePrior.count_equal. by rewrite decide_True. Qed.

(** A call of [update_batch] of hard routing that returns has added the
    batch size to [total] and the hits of its predictions to [correct]. *)
Lemma hard_update_batch_counts (fuel : nat) self outputs (predicted targets : list Z) self' :
  DecisionTreePrior.update_batch fuel self outputs predicted targets
    = Some (Ok self') ->
  ∃ decisions preds hits,
    DecisionTreePrior.collect self outputs targets = Ok decisions
    ∧ DecisionTreePrior.traverse_tree fuel self predicted decisions (shape0 outputs)
      = Some (Ok preds)
    ∧ DecisionTreePrior.count_equal preds targets = Ok hits
    ∧ DecisionTreePrior.total self'
      = DecisionTreePrior.total self + Z.of_nat (shape0 outputs)
    ∧ DecisionTreePrior.correct self' = DecisionTreePrior.correct self + hits
    ∧ DecisionTreePrior.total self <= DecisionTreePrior.total self'
    ∧ DecisionTreePrior.correct self <= DecisionTreePrior.correct self'.
Proof.
  unfold DecisionTreePrior.update_batch.
  destruct (DecisionTreePrior.collect _ _ _) as [decisions|e] eqn:Hcollect;
    [|done].
  destruct (DecisionTreePrior.traverse_tree _ _ _ _ _) as [[preds|e]|] eqn:Hpreds;
    [|done..].
  destruct (DecisionTreePrior.count_equal preds targets) as [hits|e] eqn:Hhits;
    simpl; [|done].
  destruct (accuracy_line _ _) as [[]|e]; simpl; [|done].
  intros [= <-]. exists decisions, preds, hits. simpl.
  pose proof (count_equal_nonneg _ _ _ Hhits).
  repeat split; (done || lia).
Qed.

(** The same for soft routing. *)
Lemma soft_update_batch_counts self outputs (predicted targets : list Z) self' :
  DecisionTreeBayesianPrior.update_batch self outputs predicted targets = Ok self' ->
  ∃ scores preds hits,
    DecisionTreeBayesianPrior.collect self outputs = Ok scores
    ∧ DecisionTreeBayesianPrior.traverse_tree self predicted scores (shape0 outputs)
      = Ok preds
    ∧ DecisionTreePrior.count_equal preds targets = Ok hits
    ∧ DecisionTreePrior.total self'
      = DecisionTreePrior.total self + Z.of_nat (shape0 outputs)
    ∧ DecisionTreePrior.correct self' = DecisionTreePrior.correct self + hits
    ∧ DecisionTreePrior.total self <= DecisionTreePrior.total self'
    ∧ DecisionTreePrior.correct self <= DecisionTreePrior.correct self'.
Proof.
  unfold DecisionTreeBayesianPrior.update_batch.
  destruct (DecisionTreeBayesianPrior.collect _ _) as [scores|e] eqn:Hcollect;
    simpl; [|done].
  destruct (DecisionTreeBayesianPrior.traverse_tree _ _ _ _) as [preds|e] eqn:Hpreds;
    simpl; [|done].
  destruct (DecisionTreePrior.count_equal preds targets) as [hits|e] eqn:Hhits;
    simpl; [|done].
  destruct (accuracy_line _ _) as [[]|e]; simpl; [|done].
  intros [= <-]. exists scores, preds, hits. simpl.
  pose proof (count_equal_nonneg _ _ _ Hhits).
  repeat split; (done || lia).
Qed.
End Counters.

(** C4. After a first test phase that counted one sample, [start_test] of
    the next epoch leaves both counters at one, for hard routing and for
    soft routing; the sibling analysis [IgnoredSamples] does reset its
    counter in [start_test]. *)
Theorem start_test_does_not_reset :
  Example.counters (Example.first_test_phase false) = Some (1, 1)
  ∧ Example.counters (Example.second_test_phase false) = Some (1, 1)
  ∧ Example.counters (Example.first_test_phase true) = Some (1, 1)
  ∧ Example.counters (Example.second_test_phase true) = Some (1, 1)
  ∧ IgnoredSamples.start_test
      {| IgnoredSamples.epoch := Some 1; IgnoredSamples.ignored := Some 1 |} 1
    = Ok {| IgnoredSamples.epoch := Some 1; IgnoredSamples.ignored := Some 0 |}.
Proof. repeat split; by vm_compute. Qed.

(** ** Python's lists *)

Section PythonLists.
Context {A : Type}.
Implicit Types (l : list A) (mask : list bool).

Lemma py_index_nat l (k : nat) x : l !! k = Some x -> py_index l (Z.of_nat k) = Ok x.
Proof.
  intros Hk. unfold py_index.
  pose proof (lookup_lt_Some _ _ _ Hk).
  rewrite decide_True by lia. by rewrite Nat2Z.id, Hk.
Qed.

Lemma py_index_elem_of l i x : py_index l i = Ok x -> x ∈ l.
Proof.
  unfold py_index. repeat case_decide; try done;
    (destruct (l !! _) eqn:Hl; [|done]); intros [= <-];
    by eapply list_elem_of_lookup_2.
Qed.

Lemma py_index_raises l i e : py_index l i = Raise e -> e = IndexError.
Proof.
  unfold py_index. repeat case_decide; try destruct (l !! _); congruence.
Qed.

Lemma py_index_in_range l i :
  0 <= i < Z.of_nat (length l) -> ∃ x, py_index l i = Ok x.
Proof.
  intros Hi. unfold py_index. rewrite decide_True by done.
  destruct (lookup_lt_is_Some_2 l (Z.to_nat i)) as [x ->]; [lia|]. eauto.
Qed.

Lemma py_get_raises l i e : py_get l i = Raise e -> e = IndexError.
Proof. unfold py_get. destruct (l !! i); congruence. Qed.

Lemma py_sum_from acc mask :
  foldl (fun acc (b : bool) => if b then acc + 1 else acc) acc mask
  = acc + Z.of_nat (length (filter (fun b => b = true) mask)).
Proof.
  revert acc. induction mask as [|[] mask IH]; intros acc.
  - simpl. lia.
  - rewrite filter_cons_True by done. cbn [foldl length]. rewrite IH. lia.
  - rewrite filter_cons_False by done. cbn [foldl]. by rewrite IH.
Qed.

Lemma py_sum_count mask :
  py_sum mask = Z.of_nat (length (filter (fun b => b = true) mask)).
Proof. unfold py_sum. by rewrite py_sum_from. Qed.

Lemma py_any_true mask : py_any mask = true <-> true ∈ mask.
Proof.
  unfold py_any. rewrite existsb_exists. split.
  - intros (b & Hin & ->). by apply list_elem_of_In.
  - intros Hin. exists true. split; [by apply list_elem_of_In|done].
Qed.
End PythonLists.

(** ** The lock-step of selector and local predictions *)

Section LockStep.
Implicit Types (selector : list bool) (index : nat).

(** The applicable samples up to [index] are the true entries of the
    slice [selector[:index + 1]]. *)
Lemma applicable_upto_take selector n :
  length (filter (fun j => selector !! j = Some true) (seq 0 n))
  = length (filter (fun b => b = true) (take n selector)).
Proof.
  induction n as [|n IH]; [by destruct selector|].
  rewrite seq_S, filter_app, length_app, IH. simpl.
  destruct (selector !! n) as [b|] eqn:Hn.
  - rewrite (take_S_r _ _ _ Hn), filter_app, length_app. f_equal.
    destruct b.
    + by rewrite !filter_cons_True.
    + rewrite !filter_cons_False; [done|congruence|congruence].
  - rewrite filter_cons_False by congruence.
    apply lookup_ge_None in Hn. rewrite !take_ge by lia. simpl. lia.
Qed.

Lemma index_new_applicable_upto selector index :
  DecisionTreePrior.index_new selector index
  = Z.of_nat (Spec.applicable_upto selector index) - 1.
Proof.
  unfold DecisionTreePrior.index_new, Spec.applicable_upto.
  by rewrite py_sum_count, applicable_upto_take, Nat.add_1_r.
Qed.

(** At an applicable sample, the position is the number of applicable
    samples strictly before it. *)
Lemma index_new_before selector index :
  selector !! index = Some true ->
  DecisionTreePrior.index_new selector index
  = Z.of_nat (length (filter (fun b => b = true) (take index selector))).
Proof.
  intros Hi. unfold DecisionTreePrior.index_new.
  rewrite py_sum_count, Nat.add_1_r, (take_S_r _ _ _ Hi), filter_app, length_app.
  rewrite filter_cons_True by done. simpl. lia.
Qed.

Lemma applicable_only_lookup selector :
  ∀ per_sample index p,
    selector !! index = Some true ->
    per_sample !! index = Some p ->
    Spec.applicable_only selector per_sample
      !! length (filter (fun b => b = true) (take index selector)) = Some p.
Proof.
  unfold Spec.applicable_only.
  induction selector as [|b selector IH]; intros [|q per_sample] [|index] p Hs Hp;
    try done.
  - by simplify_eq/=.
  - cbn [take]. cbn in Hs, Hp. specialize (IH _ _ _ Hs Hp).
    destruct b.
    + by rewrite filter_cons_True.
    + by rewrite filter_cons_False.
Qed.
End LockStep.

(** C3. At a sample that the selector of a node marks applicable, the
    position that the loop computes is the number of applicable samples up
    to and including this one, minus one; the round of the loop reads the
    local predictions there; and when the local predictions are those of
    the applicable samples in batch order, what it reads is the prediction
    of this very sample. *)
Theorem lock_step_lookup {Graph : Type} (self : DecisionTreePrior.t Graph)
    (decisions : gmap string (list Z * list bool)) (node : Node Graph)
    (pred_sub : list Z) (selector : list bool) (index : nat) :
  decisions !! wnid node = Some (pred_sub, selector) ->
  selector !! index = Some true ->
  let position := Z.of_nat (Spec.applicable_upto selector index) - 1 in
  DecisionTreePrior.index_new selector index = position
  ∧ DecisionTreePrior.loop_body self decisions index node
    = (index_child ← py_index pred_sub position;
       wnid' ← py_index (children node) index_child;
       Ok (Some wnid', DecisionTreePrior.wnid_to_node self !! wnid'))
  ∧ ∀ per_sample,
      length per_sample = length selector ->
      pred_sub = Spec.applicable_only selector per_sample ->
      ∃ p, per_sample !! index = Some p ∧ py_index pred_sub position = Ok p.
Proof.
  intros Hdata Hsel position. subst position.
  rewrite <- index_new_applicable_upto. split; [done|]. split.
  - unfold DecisionTreePrior.loop_body, py_get. by rewrite Hdata, Hsel.
  - intros per_sample Hlen ->.
    destruct (lookup_lt_is_Some_2 per_sample index) as [p Hp].
    { rewrite Hlen. by eapply lookup_lt_Some. }
    exists p. split; [done|].
    rewrite (index_new_before _ _ Hsel).
    apply py_index_nat. by apply applicable_only_lookup.
Qed.

Lemma lock_step_lookup_witness :
  DecisionTreePrior.index_new [false; true] 1 = 0.
Proof.
  refine (proj1 (lock_step_lookup Example.two_level
                   {[ "left" := ([0], [false; true]) ]} Example.left
                   [0] [false; true] 1 _ _)).
  - vm_compute. reflexivity.
  - reflexivity.
Defined.

(** ** The conversion of the predictions *)

(** Up to [2^24] the conversion through float32 changes nothing. *)
Lemma long_of_float32_exact z :
  -16777216 <= z <= 16777216 -> long_of_float32 z = z.
Proof.
  intros Hz. unfold long_of_float32. cbv zeta.
  case_decide as He; [done|].
  assert (24 <= Z.log2 (Z.abs z)) as Hlog by lia.
  assert (0 < Z.abs z) as Hpos.
  { destruct (decide (Z.abs z = 0)) as [E|]; [rewrite E in Hlog; simpl in Hlog|]; lia. }
  assert (¬ Z.abs z < 2 ^ 24) as Hbig.
  { rewrite (Z.log2_lt_pow2 _ _ Hpos). lia. }
  assert (z = 16777216 ∨ z = -16777216) as [-> | ->] by lia; reflexivity.
Qed.

Lemma long_tensor_exact (preds : list Z) :
  Forall (fun z => -16777216 <= z <= 16777216) preds ->
  long_tensor preds = preds.
Proof.
  unfold long_tensor. induction 1 as [|z preds Hz _ IH]; [done|].
  simpl. by rewrite IH, long_of_float32_exact.
Qed.

Lemma long_tensor_length (preds : list Z) :
  length (long_tensor preds) = length preds.
Proof. unfold long_tensor. by rewrite length_map. Qed.

Lemma long_tensor_replicate (n : nat) :
  long_tensor (replicate n (-1)) = replicate n (-1).
Proof. apply long_tensor_exact, Forall_replicate. lia. Qed.

(** ** Hard routing *)

Section HardRouting.
Context {Graph : Type} `{GraphOps Graph}.
Implicit Types (self : DecisionTreePrior.t Graph) (node root : Node Graph).
Implicit Types (decisions : gmap string (list Z * list bool)).

Lemma list_index_first x (l : list string) n :
  list_index x l = Ok n
  <-> l !! n = Some x ∧ ∀ m, (m < n)%nat -> l !! m ≠ Some x.
Proof.
  revert n. induction l as [|y l IH]; intros n; simpl.
  - split; [done|]. by intros [? _].
  - case_decide as Hy.
    + subst y. split.
      * intros [= <-]. split; [done|]. lia.
      * intros [Hn Hfirst]. destruct n as [|n]; [done|].
        by destruct (Hfirst 0%nat ltac:(lia)).
    + destruct (list_index x l) as [k|e] eqn:Hk; simpl.
      * split.
        -- intros [= <-]. destruct (proj1 (IH k) eq_refl) as [Hk' Hfirst].
           split; [done|]. intros [|m] Hm; simpl; [congruence|].
           apply Hfirst. lia.
        -- intros [Hn Hfirst]. destruct n as [|n]; [simpl in Hn; congruence|].
           f_equal. f_equal. symmetry.
           assert (Ok k = Ok n) as [= ->]; [|done].
           apply IH. split; [done|]. intros m Hm. apply (Hfirst (S m)). lia.
      * split; [done|]. intros [Hn Hfirst].
        destruct n as [|n]; [simpl in Hn; congruence|].
        assert (Raise e = Ok n) as ?; [|done].
        apply IH. split; [done|]. intros m Hm. apply (Hfirst (S m)). lia.
Qed.

Lemma class_of_leaf_unresolved self :
  DecisionTreePrior.class_of_leaf self None = Ok (-1).
Proof. done. Qed.

Lemma class_of_leaf_resolved self leaf pred :
  DecisionTreePrior.class_of_leaf self (Some leaf) = Ok pred
  <-> Spec.leaf_class self leaf pred.
Proof.
  unfold DecisionTreePrior.class_of_leaf. simpl. split.
  - destruct (DecisionTreePrior.wnid_to_class self !! leaf) as [cls|] eqn:Hcls.
    + destruct (list_index cls _) as [n|e] eqn:Hn; simpl; [|done].
      intros [= <-]. apply list_index_first in Hn as [Hn Hfirst].
      by eapply Spec.leaf_known.
    + intros [= <-]. by apply Spec.leaf_unknown.
  - intros [cls n Hcls Hn Hfirst|Hcls]; rewrite Hcls; [|done].
    assert (list_index cls (DecisionTreePrior.classes self) = Ok n) as ->
      by by apply list_index_first.
    done.
Qed.

Lemma walk_more_fuel self decisions index fuel fuel' node r :
  DecisionTreePrior.walk self decisions index fuel node = Some r ->
  (fuel <= fuel')%nat ->
  DecisionTreePrior.walk self decisions index fuel' node = Some r.
Proof.
  revert fuel' node. induction fuel as [|fuel IH]; intros fuel' node; [done|].
  intros Hwalk Hle. destruct fuel' as [|fuel']; [lia|]. simpl in *.
  destruct (DecisionTreePrior.loop_body _ _ _ _) as [[w' [node'|]]|e]; try done.
  apply IH; [done|lia].
Qed.

Lemma walk_routes self decisions index fuel :
  ∀ node r pred,
    DecisionTreePrior.walk self decisions index fuel node = Some (Ok r) ->
    DecisionTreePrior.class_of_leaf self r = Ok pred ->
    Spec.routes self decisions index node pred.
Proof.
  induction fuel as [|fuel IH]; intros node r pred; [done|]. simpl.
  destruct (DecisionTreePrior.loop_body _ _ _ _) as [[w' next]|e] eqn:Hbody;
    [|done].
  unfold DecisionTreePrior.loop_body in Hbody.
  destruct (decisions !! wnid node) as [[pred_sub selector]|] eqn:Hdata.
  - unfold py_get in Hbody.
    destruct (selector !! index) as [[]|] eqn:Hsel; simpl in Hbody; [| |done].
    + rewrite index_new_applicable_upto in Hbody.
      destruct (py_index pred_sub _) as [index_child|] eqn:Hpos; [|done].
      simpl in Hbody.
      destruct (py_index (children node) _) as [child|] eqn:Hchild; [|done].
      simpl in Hbody. injection Hbody as <- <-.
      destruct (DecisionTreePrior.wnid_to_node self !! child) as [node'|] eqn:Hnode.
      * intros Hwalk Hcls. eapply Spec.routes_child; eauto.
      * intros [= <-] Hcls. eapply Spec.routes_leaf; eauto.
        by apply class_of_leaf_resolved.
    + injection Hbody as <- <-. intros [= <-] [= <-].
      by eapply Spec.routes_inapplicable.
  - injection Hbody as <- <-. intros [= <-] [= <-].
    by apply Spec.routes_no_data.
Qed.

Lemma routes_walk self decisions index node pred :
  Spec.routes self decisions index node pred ->
  ∃ fuel r,
    DecisionTreePrior.walk self decisions index fuel node = Some (Ok r)
    ∧ DecisionTreePrior.class_of_leaf self r = Ok pred.
Proof.
  induction 1 as [node Hdata|node pred_sub selector Hdata Hsel
                 |node pred_sub selector index_child leaf pred Hdata Hsel Hpos Hchild Hleaf Hcls
                 |node pred_sub selector index_child child node' pred Hdata Hsel Hpos Hchild Hnode _ IH].
  - exists 1%nat, None. simpl. unfold DecisionTreePrior.loop_body.
    by rewrite Hdata.
  - exists 1%nat, None. simpl. unfold DecisionTreePrior.loop_body, py_get.
    by rewrite Hdata, Hsel.
  - exists 1%nat, (Some leaf). simpl. unfold DecisionTreePrior.loop_body, py_get.
    rewrite Hdata, Hsel. simpl.
    rewrite index_new_applicable_upto, Hpos. simpl. rewrite Hchild. simpl.
    rewrite Hleaf. split; [done|]. by apply class_of_leaf_resolved.
  - destruct IH as (fuel & r & Hwalk & Hcls).
    exists (S fuel), r. split; [|done]. simpl.
    unfold DecisionTreePrior.loop_body, py_get.
    rewrite Hdata, Hsel. simpl.
    rewrite index_new_applicable_upto, Hpos. simpl. rewrite Hchild. simpl.
    by rewrite Hnode.
Qed.

Lemma traverse_sample_routes self decisions root fuel index pred :
  DecisionTreePrior.traverse_sample self decisions root fuel index = Some (Ok pred) ->
  Spec.routes self decisions index root pred.
Proof.
  unfold DecisionTreePrior.traverse_sample.
  destruct (DecisionTreePrior.walk _ _ _ _ _) as [[r|e]|] eqn:Hwalk; [|done..].
  intros [= Hcls]. by eapply walk_routes.
Qed.

Lemma routes_traverse_sample self decisions root index pred :
  Spec.routes self decisions index root pred ->
  ∃ fuel, ∀ fuel', (fuel <= fuel')%nat ->
    DecisionTreePrior.traverse_sample self decisions root fuel' index = Some (Ok pred).
Proof.
  intros (fuel & r & Hwalk & Hcls)%routes_walk. exists fuel. intros fuel' Hle.
  unfold DecisionTreePrior.traverse_sample.
  by rewrite (walk_more_fuel _ _ _ _ _ _ _ Hwalk Hle), Hcls.
Qed.

Lemma traverse_samples_each self decisions root fuel indexes preds :
  DecisionTreePrior.traverse_samples self decisions root fuel indexes = Some (Ok preds)
  <-> Forall2
        (fun index pred =>
           DecisionTreePrior.traverse_sample self decisions root fuel index
           = Some (Ok pred))
        indexes preds.
Proof.
  revert preds. induction indexes as [|index indexes IH]; intros preds; simpl.
  - split; [intros [= <-]; constructor|by intros ->%Forall2_nil_inv_l].
  - split.
    + destruct (DecisionTreePrior.traverse_sample _ _ _ _ index)
        as [[pred|e]|] eqn:Hfirst; try done.
      destruct (DecisionTreePrior.traverse_samples _ _ _ _ indexes)
        as [[rest|e]|] eqn:Hrest; try done.
      intros [= <-]. constructor; [done|]. by apply IH.
    + intros (pred & rest & Hfirst & Hrest%IH & ->)%Forall2_cons_inv_l.
      by rewrite Hfirst, Hrest.
Qed.

(** One amount of fuel serves all the samples of a batch. *)
Lemma routes_traverse_samples self decisions root indexes preds :
  Forall2 (fun index pred => Spec.routes self decisions index root pred)
          indexes preds ->
  ∃ fuel, ∀ fuel', (fuel <= fuel')%nat ->
    DecisionTreePrior.traverse_samples self decisions root fuel' indexes
    = Some (Ok preds).
Proof.
  induction 1 as [|index pred indexes preds Hroute _ [fuel2 IH]].
  - by exists 0%nat.
  - apply routes_traverse_sample in Hroute as [fuel1 Hfirst].
    exists (fuel1 `max` fuel2)%nat. intros fuel' Hle. simpl.
    rewrite Hfirst by lia. by rewrite IH by lia.
Qed.

Lemma routes_deterministic self decisions index node pred pred' :
  Spec.routes self decisions index node pred ->
  Spec.routes self decisions index node pred' ->
  pred = pred'.
Proof.
  intros (fuel & r & Hwalk & Hcls)%routes_walk
         (fuel' & r' & Hwalk' & Hcls')%routes_walk.
  apply (walk_more_fuel _ _ _ _ (fuel `max` fuel')%nat) in Hwalk; [|lia].
  apply (walk_more_fuel _ _ _ _ (fuel `max` fuel')%nat) in Hwalk'; [|lia].
  congruence.
Qed.

(** The loop over the samples collects the list [raw] exactly when
    [raw] has one entry per sample and the entry of every sample is where
    the transitions of hard routing lead from the root. *)
Lemma traverse_samples_routes self decisions (n_samples : nat) root (raw : list Z) :
  (∃ fuel,
     DecisionTreePrior.traverse_samples self decisions root fuel (seq 0 n_samples)
     = Some (Ok raw))
  <-> length raw = n_samples
      ∧ ∀ index pred, raw !! index = Some pred ->
          Spec.routes self decisions index root pred.
Proof.
  split.
  - intros [fuel Hall%traverse_samples_each].
    apply Forall2_same_length_lookup in Hall as [Hlen Hall].
    rewrite length_seq in Hlen. split; [done|].
    intros index pred Hpred. eapply traverse_sample_routes, Hall; [|done].
    apply lookup_seq. split; [done|].
    apply lookup_lt_Some in Hpred. lia.
  - intros [Hlen Hall].
    destruct (routes_traverse_samples self decisions root (seq 0 n_samples) raw)
      as [fuel Hfuel].
    + apply Forall2_same_length_lookup. rewrite length_seq. split; [done|].
      intros i index pred [-> _]%lookup_seq Hpred. by apply Hall.
    + exists fuel. by apply Hfuel.
Qed.

(** [traverse_tree] answers the list that the loop collected, converted. *)
Lemma hard_traverse_tree_converted (fuel : nat) self (predicted : list Z)
    decisions (n_samples : nat) root (preds : list Z) :
  DecisionTreePrior.wnid_to_node self !! get_root (DecisionTreePrior.graph self)
    = Some root ->
  DecisionTreePrior.traverse_tree fuel self predicted decisions n_samples
    = Some (Ok preds)
  <-> ∃ raw,
        DecisionTreePrior.traverse_samples self decisions root fuel (seq 0 n_samples)
        = Some (Ok raw)
        ∧ preds = long_tensor raw.
Proof.
  intros Hroot. unfold DecisionTreePrior.traverse_tree. rewrite Hroot. simpl.
  destruct (DecisionTreePrior.traverse_samples _ _ _ _ _) as [[raw|e]|].
  - split; [intros [= <-]; by exists raw|by intros (? & [= <-] & ->)].
  - split; [done|by intros (? & ? & _)].
  - split; [done|by intros (? & ? & _)].
Qed.

(** In general the entries of the answer are the converted results of
    the transitions. *)
Lemma hard_routing_converted self (predicted : list Z) decisions
    (n_samples : nat) root (preds : list Z) :
  DecisionTreePrior.wnid_to_node self !! get_root (DecisionTreePrior.graph self)
    = Some root ->
  (∃ fuel,
     DecisionTreePrior.traverse_tree fuel self predicted decisions n_samples
     = Some (Ok preds))
  <-> ∃ raw,
        preds = long_tensor raw
        ∧ length raw = n_samples
        ∧ ∀ index pred, raw !! index = Some pred ->
            Spec.routes self decisions index root pred.
Proof.
  intros Hroot. split.
  - intros [fuel (raw & Hraw & ->)%(hard_traverse_tree_converted _ _ _ _ _ _ _ Hroot)].
    exists raw. split; [done|]. apply traverse_samples_routes. by exists fuel.
  - intros (raw & -> & Hraw). apply traverse_samples_routes in Hraw as [fuel Hraw].
    exists fuel. apply (hard_traverse_tree_converted _ _ _ _ _ _ _ Hroot).
    by exists raw.
Qed.

(** Where the transitions lead is the sentinel or a position in the
    list of classes. *)
Lemma routes_range self decisions index node pred :
  Spec.routes self decisions index node pred ->
  pred = -1
  ∨ 0 <= pred < Z.of_nat (length (DecisionTreePrior.classes self)).
Proof.
  induction 1 as [| |node pred_sub selector index_child leaf pred _ _ _ _ _ Hcls|];
    [by left|by left| |done].
  destruct Hcls as [cls n _ Hn _|]; [|by left].
  right. apply lookup_lt_Some in Hn. lia.
Qed.

(** C1. For a list of at most [2^24 + 1] classes, [traverse_tree]
    answers the list [preds] exactly when [preds] has one entry per
    sample and the entry of every sample is where the transitions of
    hard routing lead from the root: the sentinel [-1] at a node without
    decision data or with a false selector entry for the sample;
    otherwise on to the child that the local prediction of the sample
    names, and, when that child is no node, the original class of this
    leaf.  The bound is that of the conversion of the answer through
    float32. *)
Theorem hard_routing_traversal self (predicted : list Z) decisions
    (n_samples : nat) root (preds : list Z) :
  DecisionTreePrior.wnid_to_node self !! get_root (DecisionTreePrior.graph self)
    = Some root ->
  Z.of_nat (length (DecisionTreePrior.classes self)) <= 16777217 ->
  (∃ fuel,
     DecisionTreePrior.traverse_tree fuel self predicted decisions n_samples
     = Some (Ok preds))
  <-> length preds = n_samples
      ∧ ∀ index pred, preds !! index = Some pred ->
          Spec.routes self decisions index root pred.
Proof.
  intros Hroot Hclasses.
  assert (∀ raw : list Z,
            (∀ index pred, raw !! index = Some pred ->
               Spec.routes self decisions index root pred) ->
            long_tensor raw = raw) as Hexact.
  { intros raw Hraw. apply long_tensor_exact, Forall_lookup.
    intros index pred Hpred.
    destruct (routes_range _ _ _ _ _ (Hraw _ _ Hpred)); lia. }
  rewrite (hard_routing_converted _ _ _ _ _ _ Hroot). split.
  - intros (raw & -> & Hlen & Hraw). by rewrite (Hexact _ Hraw).
  - intros [Hlen Hraw]. exists preds. by rewrite (Hexact _ Hraw).
Qed.
End HardRouting.

Lemma hard_routing_traversal_witness :
  Spec.routes Example.two_level Example.decisions 0 Example.top 2.
Proof.
  refine (proj2 (proj1 (hard_routing_traversal Example.two_level []
                          Example.decisions 2 Example.top [2; 0] _ _) _)
            0%nat 2 _).
  - vm_compute. reflexivity.
  - by vm_compute.
  - exists 3%nat. vm_compute. reflexivity.
  - reflexivity.
Defined.

(** The hierarchy of one node whose leaf has the last of [m + 1]
    classes: the sample is routed to the position [m], and the answer is
    this position converted. *)
Lemma tall_leaf_class (m : nat) :
  Spec.leaf_class (Example.tall m) "leaf" (Z.of_nat m).
Proof.
  apply (Spec.leaf_known _ _ "b").
  - change (dict_of_zip (replicate m "x" ++ ["leaf"]) (replicate m "a" ++ ["b"])
            !! "leaf" = Some "b").
    unfold dict_of_zip.
    rewrite zip_with_app by (by rewrite !length_replicate).
    rewrite foldl_app. simpl. apply lookup_insert_eq.
  - change ((replicate m "a" ++ ["b"]) !! m = Some "b").
    rewrite lookup_app_r by (rewrite length_replicate; lia).
    rewrite length_replicate. by replace (m - m)%nat with 0%nat by lia.
  - intros k Hk.
    change ((replicate m "a" ++ ["b"]) !! k ≠ Some "b").
    rewrite lookup_app_l by (rewrite length_replicate; lia).
    rewrite lookup_replicate_2 by done. congruence.
Qed.

Lemma tall_routes (m : nat) :
  Spec.routes (Example.tall m) Example.to_leaf 0 Example.tall_node (Z.of_nat m).
Proof.
  eapply (Spec.routes_leaf _ _ _ Example.tall_node [0] [true] 0 "leaf");
    [by vm_compute|done|by vm_compute..|apply tall_leaf_class].
Qed.

Lemma tall_traverse_tree (m : nat) :
  DecisionTreePrior.traverse_tree 1 (Example.tall m) [] Example.to_leaf 1
  = Some (Ok [long_of_float32 (Z.of_nat m)]).
Proof.
  assert (DecisionTreePrior.wnid_to_node (Example.tall m)
            !! get_root (DecisionTreePrior.graph (Example.tall m))
          = Some Example.tall_node) as Hroot by by vm_compute.
  apply (hard_traverse_tree_converted _ _ _ _ _ _ _ Hroot).
  exists [Z.of_nat m]. split; [|done].
  apply traverse_samples_each. repeat constructor.
  unfold DecisionTreePrior.traverse_sample.
  assert (DecisionTreePrior.walk (Example.tall m) Example.to_leaf 0 1 Example.tall_node
          = Some (Ok (Some "leaf"))) as -> by by vm_compute.
  f_equal. apply class_of_leaf_resolved, tall_leaf_class.
Qed.

(** At [2^24 + 2] classes the answer for the leaf of the last class is
    not the position of this class. *)
Lemma hard_routing_rounds_large_index :
  DecisionTreePrior.traverse_tree 1 (Example.tall (Z.to_nat 16777217)) []
    Example.to_leaf 1
  = Some (Ok [16777216])
  ∧ Spec.routes (Example.tall (Z.to_nat 16777217)) Example.to_leaf 0
      Example.tall_node 16777217
  ∧ ¬ Spec.routes (Example.tall (Z.to_nat 16777217)) Example.to_leaf 0
        Example.tall_node 16777216.
Proof.
  pose proof (tall_routes (Z.to_nat 16777217)) as Hroutes.
  pose proof (tall_traverse_tree (Z.to_nat 16777217)) as Htree.
  rewrite Z2Nat.id in Hroutes, Htree by lia.
  split; [exact Htree|]. split; [exact Hroutes|].
  intros Hother. by pose proof (routes_deterministic _ _ _ _ _ _ Hroutes Hother).
Qed.

(** ** Termination of hard routing *)

Section HardTermination.
Context {Graph : Type} `{GraphOps Graph}.
Implicit Types (self : DecisionTreePrior.t Graph) (node root : Node Graph).
Implicit Types (decisions : gmap string (list Z * list bool)).

Lemma applicable_before_lt (selector : list bool) index :
  selector !! index = Some true ->
  (length (filter (fun b => b = true) (take index selector))
   < length (filter (fun b => b = true) selector))%nat.
Proof.
  intros Hsel. rewrite <- (take_drop_middle _ _ _ Hsel) at 2.
  rewrite filter_app, length_app, filter_cons_True by done. simpl. lia.
Qed.

(** What one round of the loop can do: leave with the sentinel, name a
    child of the current node, or raise [IndexError] on decision data
    that is not well shaped. *)
Lemma loop_body_cases self decisions index node :
  match DecisionTreePrior.loop_body self decisions index node with
  | Raise e =>
      e = IndexError
      ∧ ∃ data, decisions !! wnid node = Some data
                ∧ ∀ n_samples, (index < n_samples)%nat ->
                    ¬ Spec.well_shaped node n_samples data
  | Ok (wnid', next) =>
      (wnid' = None ∧ next = None)
      ∨ ∃ child, wnid' = Some child ∧ child ∈ children node
                 ∧ next = DecisionTreePrior.wnid_to_node self !! child
  end.
Proof.
  unfold DecisionTreePrior.loop_body.
  destruct (decisions !! wnid node) as [[pred_sub selector]|] eqn:Hdata;
    [|by left].
  unfold py_get. destruct (selector !! index) as [[]|] eqn:Hsel; simpl.
  - rewrite (index_new_before _ _ Hsel).
    pose proof (applicable_before_lt _ _ Hsel) as Hlt.
    destruct (py_index pred_sub _) as [index_child|e] eqn:Hpos; simpl.
    + destruct (py_index (children node) _) as [child|e] eqn:Hchild; simpl.
      * right. exists child. by apply py_index_elem_of in Hchild.
      * split; [by eapply py_index_raises|].
        eexists. split; [done|]. intros n_samples _ (_ & _ & Hrange). simpl in *.
        apply py_index_elem_of in Hpos.
        rewrite Forall_forall in Hrange. apply Hrange in Hpos.
        destruct (py_index_in_range (children node) index_child Hpos); congruence.
    + split; [by eapply py_index_raises|].
      eexists. split; [done|]. intros n_samples _ (_ & Hpreds & _). simpl in *.
      destruct (py_index_in_range pred_sub
                  (Z.of_nat (length (filter (fun b => b = true) (take index selector)))));
        [lia|congruence].
  - by left.
  - split; [done|]. eexists. split; [done|].
    intros n_samples Hindex (Hlen & _). simpl in *.
    apply lookup_ge_None in Hsel. lia.
Qed.

Lemma walk_within_bound self decisions root bound index :
  Spec.acyclic_below self root bound ->
  ∀ fuel k node,
    Spec.chain self root k node ->
    (bound <= fuel + k)%nat ->
    ∃ r, DecisionTreePrior.walk self decisions index fuel node = Some r
         ∧ Spec.exits self decisions root index r.
Proof.
  intros Hacyclic. induction fuel as [|fuel IH]; intros k node Hchain Hfuel.
  - apply Hacyclic in Hchain. lia.
  - simpl. pose proof (loop_body_cases self decisions index node) as Hbody.
    destruct (DecisionTreePrior.loop_body _ _ _ _) as [[wnid' next]|e].
    + destruct Hbody as [[-> ->]|(child & -> & Hchild & ->)].
      * eexists. split; [done|]. by left.
      * destruct (DecisionTreePrior.wnid_to_node self !! child) as [node'|] eqn:Hnode.
        -- apply (IH (S k)); [|lia]. by eapply Spec.chain_link.
        -- eexists. split; [done|]. right. left. eauto.
    + destruct Hbody as (-> & data & Hdata & Hshape).
      eexists. split; [done|]. right. right. split; [done|].
      by exists k, node, data.
Qed.
End HardTermination.

Section HardTerminationOfBatch.
Context {Graph : Type} `{GraphOps Graph}.
Implicit Types (self : DecisionTreePrior.t Graph) (node root : Node Graph).
Implicit Types (decisions : gmap string (list Z * list bool)).

Lemma traverse_samples_return self decisions root fuel indexes :
  (∀ index, is_Some (DecisionTreePrior.walk self decisions index fuel root)) ->
  is_Some (DecisionTreePrior.traverse_samples self decisions root fuel indexes).
Proof.
  intros Hwalk. induction indexes as [|index indexes IH]; simpl; [done|].
  unfold DecisionTreePrior.traverse_sample.
  destruct (Hwalk index) as [[r|e] ->]; [|done].
  destruct (DecisionTreePrior.class_of_leaf self r); [|done].
  by destruct IH as [[preds|e] ->].
Qed.

Lemma traverse_tree_return self (predicted : list Z) decisions root fuel
    (n_samples : nat) :
  DecisionTreePrior.wnid_to_node self !! get_root (DecisionTreePrior.graph self)
    = Some root ->
  (∀ index, is_Some (DecisionTreePrior.walk self decisions index fuel root)) ->
  is_Some (DecisionTreePrior.traverse_tree fuel self predicted decisions n_samples).
Proof.
  intros Hroot Hwalk. unfold DecisionTreePrior.traverse_tree. rewrite Hroot. simpl.
  by destruct (traverse_samples_return self decisions root fuel (seq 0 n_samples)
                 Hwalk) as [[preds|e] ->].
Qed.

(** C10. When no chain of child links from the root has [bound] links or
    more, the loop of every sample is left within [bound] rounds and
    [traverse_tree] returns.  The loop is left at the sentinel, at a leaf
    identifier, or with [IndexError] on decision data that is not well
    shaped; when the decision data of every node below the root is well
    shaped for the batch, the loop of each of its samples is left at the
    sentinel or at a leaf identifier. *)
Theorem hard_routing_terminates self (predicted : list Z) decisions root
    (bound n_samples : nat) :
  DecisionTreePrior.wnid_to_node self !! get_root (DecisionTreePrior.graph self)
    = Some root ->
  Spec.acyclic_below self root bound ->
  ∀ fuel, (bound <= fuel)%nat ->
    (∀ index, ∃ r,
        DecisionTreePrior.walk self decisions index fuel root = Some r
        ∧ Spec.exits self decisions root index r)
    ∧ ((∀ k node data,
          Spec.chain self root k node -> decisions !! wnid node = Some data ->
          Spec.well_shaped node n_samples data) ->
       ∀ index, (index < n_samples)%nat ->
         DecisionTreePrior.walk self decisions index fuel root = Some (Ok None)
         ∨ ∃ leaf,
             DecisionTreePrior.walk self decisions index fuel root
             = Some (Ok (Some leaf))
             ∧ DecisionTreePrior.wnid_to_node self !! leaf = None)
    ∧ is_Some (DecisionTreePrior.traverse_tree fuel self predicted decisions
                 n_samples).
Proof.
  intros Hroot Hacyclic fuel Hfuel.
  assert (∀ index, ∃ r,
            DecisionTreePrior.walk self decisions index fuel root = Some r
            ∧ Spec.exits self decisions root index r) as Hwalk.
  { intros index. eapply walk_within_bound; [done|apply Spec.chain_root|lia]. }
  split; [done|]. split.
  - intros Hshaped index Hindex.
    destruct (Hwalk index)
      as (r & -> & [->|[(leaf & -> & Hleaf)|(-> & k & node & data & Hchain & Hdata & Hbad)]]).
    + by left.
    + right. by exists leaf.
    + destruct (Hbad n_samples Hindex). by eapply Hshaped.
  - eapply traverse_tree_return; [done|]. intros index.
    by destruct (Hwalk index) as (r & -> & _).
Qed.
End HardTerminationOfBatch.

Lemma two_level_chains k node :
  Spec.chain Example.two_level Example.top k node ->
  (k = 0%nat ∧ node = Example.top)
  ∨ (k = 1%nat ∧ (node = Example.left ∨ node = Example.right)).
Proof.
  induction 1 as [|k node child node' _ IH Hchild Hnode]; [by left|].
  destruct IH as [[-> ->]|[-> [-> | ->]]]; simpl in Hchild;
    repeat (apply elem_of_cons in Hchild as [->|Hchild]);
    try (by apply elem_of_nil in Hchild);
    vm_compute in Hnode; try done;
    injection Hnode as <-; right; split; auto.
Qed.

Lemma two_level_acyclic : Spec.acyclic_below Example.two_level Example.top 2.
Proof. intros k node [[-> _]|[-> _]]%two_level_chains; lia. Qed.

Lemma two_level_well_shaped k node data :
  Spec.chain Example.two_level Example.top k node ->
  Example.decisions !! wnid node = Some data ->
  Spec.well_shaped node 2 data.
Proof.
  intros [[_ ->]|[_ [->| ->]]]%two_level_chains Hdata;
    vm_compute in Hdata; injection Hdata as <-;
    (split; [reflexivity|split; [reflexivity|]]);
    repeat constructor; simpl; lia.
Qed.

Lemma hard_routing_terminates_witness :
  (DecisionTreePrior.walk Example.two_level Example.decisions 0 2 Example.top
   = Some (Ok None)
   ∨ ∃ leaf,
       DecisionTreePrior.walk Example.two_level Example.decisions 0 2 Example.top
       = Some (Ok (Some leaf))
       ∧ DecisionTreePrior.wnid_to_node Example.two_level !! leaf = None)
  ∧ is_Some (DecisionTreePrior.traverse_tree 2 Example.two_level []
               Example.decisions 2).
Proof.
  destruct (hard_routing_terminates Example.two_level [] Example.decisions
              Example.top 2 2) with (fuel := 2%nat)
    as (_ & Hshaped & Hreturns).
  - vm_compute. reflexivity.
  - exact two_level_acyclic.
  - lia.
  - split; [|exact Hreturns].
    apply (Hshaped two_level_well_shaped 0%nat). lia.
Defined.

Lemma flat_chains k node :
  Spec.chain Example.flat Example.flat_node k node ->
  k = 0%nat ∧ node = Example.flat_node.
Proof.
  induction 1 as [|k node child node' _ IH Hchild Hnode]; [done|].
  destruct IH as [-> ->]. simpl in Hchild.
  repeat (apply elem_of_cons in Hchild as [->|Hchild]);
    try (by apply elem_of_nil in Hchild); by vm_compute in Hnode.
Qed.

(** The flat hierarchy has no child links at all; with decision data
    that marks the sample as applicable and holds no local prediction for
    it, the loop of the sample is left with [IndexError], at neither the
    sentinel nor a leaf identifier. *)
Lemma hard_routing_third_exit :
  Spec.acyclic_below Example.flat Example.flat_node 1
  ∧ DecisionTreePrior.wnid_to_node Example.flat
      !! get_root (DecisionTreePrior.graph Example.flat)
    = Some Example.flat_node
  ∧ ∀ fuel,
      DecisionTreePrior.walk Example.flat Example.short_data 0 (S fuel)
        Example.flat_node
      = Some (Raise IndexError).
Proof.
  split; [|split].
  - intros k node [-> _]%flat_chains. lia.
  - by vm_compute.
  - intros fuel. by vm_compute.
Qed.

(** ** The argument [predicted] of hard routing *)

(** C8. Hard routing does not read [predicted]: with any two values of it,
    [traverse_tree] answers the same predictions and [update_batch] leaves
    the same counters; no default is taken from it. *)
Theorem predicted_is_unused {F : Type} `{Scalar F} {Graph : Type}
    `{GraphOps Graph} (fuel : nat) (self : DecisionTreePrior.t Graph)
    (outputs : tensor F) (targets : list Z)
    (decisions : gmap string (list Z * list bool)) (n_samples : nat)
    (predicted predicted' : list Z) :
  DecisionTreePrior.traverse_tree fuel self predicted decisions n_samples
  = DecisionTreePrior.traverse_tree fuel self predicted' decisions n_samples
  ∧ DecisionTreePrior.update_batch fuel self outputs predicted targets
    = DecisionTreePrior.update_batch fuel self outputs predicted' targets.
Proof. split; reflexivity. Qed.

(** ** Loops that may raise *)

Section Loops.
Context {A B S : Type}.

Lemma for_fold_invariant (I : S -> Prop) (body : S -> A -> res S) (l : list A) :
  (∀ s a s', a ∈ l -> I s -> body s a = Ok s' -> I s') ->
  ∀ s s', I s -> for_fold body s l = Ok s' -> I s'.
Proof.
  induction l as [|a l IH]; intros Hbody s s' Hs; simpl.
  - by intros [= <-].
  - destruct (body s a) as [s1|e] eqn:Hs1; simpl; [|done].
    apply IH.
    + intros s2 a2 s3 Ha2. apply Hbody. by right.
    + eapply Hbody; [by left|done..].
Qed.

Lemma for_each_lookup (f : A -> res B) (l : list A) (bs : list B) :
  for_each f l = Ok bs ->
  length bs = length l
  ∧ ∀ i a, l !! i = Some a -> ∃ b, bs !! i = Some b ∧ f a = Ok b.
Proof.
  revert bs. induction l as [|a l IH]; intros bs; simpl.
  - intros [= <-]. split; [done|]. by intros i a.
  - destruct (f a) as [b|e] eqn:Hb; simpl; [|done].
    destruct (for_each f l) as [bs'|e]; simpl; [|done].
    intros [= <-]. destruct (IH bs' eq_refl) as [Hlen Hall].
    split; [simpl; by rewrite Hlen|].
    intros [|i] a'; simpl; [intros [= <-]; eauto|apply Hall].
Qed.

Lemma for_each_total (f : A -> res B) (l : list A) :
  (∀ a, a ∈ l -> ∃ b, f a = Ok b) -> ∃ bs, for_each f l = Ok bs.
Proof.
  induction l as [|a l IH]; intros Hall; simpl; [eauto|].
  destruct (Hall a) as [b ->]; [by left|]. simpl.
  destruct IH as [bs ->]; [|simpl; eauto].
  intros a' Ha'. apply Hall. by right.
Qed.
End Loops.

(** ** The shapes of the node-local scores *)

Section Shapes.
Context {F : Type} `{Scalar F} {Graph : Type}.
Implicit Types (t outputs : tensor F) (node : Node Graph).

Lemma select_rows_shape t idxs t' :
  select_rows t idxs = Ok t' ->
  shape0 t' = length idxs ∧ shape1 t' = shape1 t
  ∧ Forall (fun i => (i < shape0 t)%nat) idxs
  ∧ ∀ i j, entry t' i j = entry t (nth i idxs 0%nat) j.
Proof.
  unfold select_rows. destruct (forallb _ idxs) eqn:Hall; [|done].
  intros [= <-]. simpl. repeat split; try done.
  apply Forall_forall. intros i Hi%list_elem_of_In.
  rewrite forallb_forall in Hall. apply Hall in Hi. by apply Nat.ltb_lt in Hi.
Qed.

Lemma select_rows_in_range t idxs :
  Forall (fun i => (i < shape0 t)%nat) idxs -> ∃ t', select_rows t idxs = Ok t'.
Proof.
  intros Hall. unfold select_rows.
  assert (forallb (fun i => Nat.ltb i (shape0 t)) idxs = true) as ->; [|eauto].
  apply forallb_forall. intros i Hi%list_elem_of_In.
  rewrite Forall_forall in Hall. by apply Nat.ltb_lt, Hall.
Qed.

Lemma mean_dim0_length t : length (mean_dim0 t) = shape1 t.
Proof. unfold mean_dim0. by rewrite length_map, length_seq. Qed.

Lemma stack_shape (vs : list (list F)) t :
  stack vs = Ok t ->
  shape0 t = length vs
  ∧ (∀ v, v ∈ vs -> length v = shape1 t)
  ∧ vs ≠ []
  ∧ ∀ i j, entry t i j = nth j (nth i vs []) fzero.
Proof.
  unfold stack. destruct vs as [|v vs]; [done|].
  destruct (forallb _ _) eqn:Hall; [|done]. intros [= <-]. simpl.
  repeat split; try done.
  intros w Hw%list_elem_of_In. rewrite forallb_forall in Hall.
  by apply Hall, Nat.eqb_eq in Hw.
Qed.

(** The node-local scores have a row per sample and a column per
    node-local class. *)
Lemma node_logits_shape node outputs t :
  node_logits node outputs = Ok t ->
  shape0 t = shape0 outputs ∧ shape1 t = num_classes node
  ∧ (0 < num_classes node)%nat.
Proof.
  unfold node_logits.
  destruct (for_each _ _) as [vs|e] eqn:Hvs; simpl; [|done].
  destruct (stack vs) as [t'|e] eqn:Ht'; simpl; [|done].
  intros [= <-]. simpl.
  apply stack_shape in Ht' as (Hrows & Hcols & Hne & _).
  apply for_each_lookup in Hvs as [Hlen Hvs]. rewrite length_seq in Hlen.
  destruct vs as [|v vs]; [done|]. simpl in Hlen.
  destruct (Hvs 0%nat 0%nat) as (v' & [= <-] & Hv).
  { apply lookup_seq. split; [done|lia]. }
  destruct (select_rows _ _) as [sub|e] eqn:Hsub; simpl in Hv; [|done].
  injection Hv as <-.
  apply select_rows_shape in Hsub as (_ & Hsub & _).
  rewrite <- (Hcols (mean_dim0 sub)) by by left.
  rewrite mean_dim0_length, Hsub, Hrows. simpl. split; [done|]. split; lia.
Qed.

Lemma argmax_dim1_length t preds :
  argmax_dim1 t = Ok preds -> length preds = shape0 t ∧ (0 < shape1 t)%nat.
Proof.
  unfold argmax_dim1. case_decide; [done|]. intros [= <-].
  rewrite length_map, length_seq. split; [done|lia].
Qed.

Lemma positions_from (g : nat -> nat) (mask : list bool) :
  length (omap (fun ib : nat * bool => if ib.2 then Some ib.1 else None)
               (imap (fun i b => (g i, b)) mask))
  = length (filter (fun b => b = true) mask).
Proof.
  revert g. induction mask as [|b mask IH]; intros g; [done|].
  rewrite imap_cons. specialize (IH (g ∘ S)).
  destruct b.
  - rewrite filter_cons_True by done. simpl. f_equal. apply IH.
  - rewrite filter_cons_False by done. simpl. apply IH.
Qed.

Lemma positions_length (mask : list bool) :
  length (TreeSup.positions mask) = length (filter (fun b => b = true) mask).
Proof. apply (positions_from (fun i => i)). Qed.

(** What [TreeSup.inference] answers: the selector marks the applicable
    targets, and the logits have a row per applicable sample. *)
Lemma inference_shape node outputs (targets : list Z) selector outputs_sub targets_sub :
  TreeSup.inference node outputs targets = Ok (selector, outputs_sub, targets_sub) ->
  selector = map (TreeSup.applicable node) targets
  ∧ shape0 outputs_sub = length (filter (fun b => b = true) selector).
Proof.
  unfold TreeSup.inference.
  destruct (select_rows _ _) as [_outputs|e] eqn:Hsel; simpl; [|done].
  apply select_rows_shape in Hsel as (Hrows & _).
  rewrite positions_length in Hrows.
  case_decide as Hzero.
  - intros [= <- <- _]. simpl. split; [done|]. by rewrite <- Hrows.
  - destruct (node_logits _ _) as [t|e] eqn:Ht; simpl; [|done].
    intros [= <- <- _]. split; [done|].
    apply node_logits_shape in Ht as (-> & _). done.
Qed.
End Shapes.

(** ** The decision data of hard routing *)

Section DecisionData.
Context {F : Type} `{Scalar F} {Graph : Type}.
Implicit Types (self : DecisionTreePrior.t Graph) (node : Node Graph).
Implicit Types (outputs : tensor F) (targets : list Z).
Implicit Types (decisions : gmap string (list Z * list bool)).

Lemma same_wnid_same_node (nodes : list (Node Graph)) node node' :
  NoDup (wnid <$> nodes) ->
  node ∈ nodes -> node' ∈ nodes -> wnid node = wnid node' -> node = node'.
Proof.
  intros Hnodup (i & Hi)%list_elem_of_lookup (j & Hj)%list_elem_of_lookup Heq.
  assert (i = j) as ->; [|congruence].
  eapply NoDup_lookup; [done| |].
  - by rewrite list_lookup_fmap, Hi.
  - by rewrite list_lookup_fmap, Hj, Heq.
Qed.

(** C7. In the decision data that [update_batch] collects for a batch
    with a target per sample, every entry belongs to a node of the
    hierarchy; its selector has an entry per sample, at least one of them
    true, and there are as many local predictions as true entries.  A node
    none of whose selector entries is true has no entry. *)
Theorem decision_data_shape self outputs targets decisions :
  length targets = shape0 outputs ->
  DecisionTreePrior.collect self outputs targets = Ok decisions ->
  (∀ key preds_sub selector,
     decisions !! key = Some (preds_sub, selector) ->
     length selector = shape0 outputs
     ∧ length preds_sub = length (filter (fun b => b = true) selector)
     ∧ true ∈ selector
     ∧ ∃ node, node ∈ DecisionTreePrior.nodes self ∧ wnid node = key
               ∧ selector = map (TreeSup.applicable node) targets)
  ∧ (NoDup (wnid <$> DecisionTreePrior.nodes self) ->
     ∀ node, node ∈ DecisionTreePrior.nodes self ->
       true ∉ map (TreeSup.applicable node) targets ->
       decisions !! wnid node = None).
Proof.
  intros Hbatch Hcollect.
  assert (∀ key preds_sub selector,
     decisions !! key = Some (preds_sub, selector) ->
     length selector = shape0 outputs
     ∧ length preds_sub = length (filter (fun b => b = true) selector)
     ∧ true ∈ selector
     ∧ ∃ node, node ∈ DecisionTreePrior.nodes self ∧ wnid node = key
               ∧ selector = map (TreeSup.applicable node) targets) as Hentries.
  { unfold DecisionTreePrior.collect in Hcollect.
    revert Hcollect.
    apply (for_fold_invariant
             (fun w : gmap string (list Z * list bool) =>
                ∀ key preds_sub selector,
                  w !! key = Some (preds_sub, selector) ->
                  length selector = shape0 outputs
                  ∧ length preds_sub = length (filter (fun b => b = true) selector)
                  ∧ true ∈ selector
                  ∧ ∃ node, node ∈ DecisionTreePrior.nodes self ∧ wnid node = key
                            ∧ selector = map (TreeSup.applicable node) targets));
      [|by intros key preds_sub selector].
    intros w node w' Hnode Hw.
    destruct (TreeSup.inference node outputs targets)
      as [[[selector outputs_sub] targets_sub]|e] eqn:Hinf; simpl; [|done].
    apply inference_shape in Hinf as [Hselector Hrows].
    destruct (py_any selector) eqn:Hany; simpl; [|by intros [= <-]].
    destruct (argmax_dim1 outputs_sub) as [preds|e] eqn:Hpreds; simpl; [|done].
    apply argmax_dim1_length in Hpreds as [Hpreds _].
    intros [= <-] key preds_sub selector'.
    destruct (decide (wnid node = key)) as [<-|Hkey].
    - rewrite lookup_insert_eq. intros [= <- <-].
      rewrite length_map, Hpreds, Hrows.
      repeat split; [|by apply py_any_true|eauto].
      by rewrite Hselector, length_map. 
    - rewrite lookup_insert_ne by done. apply Hw. }
  split; [done|].
  intros Hnodup node Hnode Hnone.
  destruct (decisions !! wnid node) as [[preds_sub selector]|] eqn:Hentry; [|done].
  destruct (Hentries _ _ _ Hentry) as (_ & _ & Htrue & node' & Hnode' & Hwnid & ->).
  by rewrite (same_wnid_same_node _ _ _ Hnodup Hnode' Hnode Hwnid) in Htrue.
Qed.
End DecisionData.

Lemma decision_data_shape_witness :
  length [false; true] = shape0 Example.batch
  ∧ length [0] = length (filter (fun b => b = true) [false; true])
  ∧ true ∈ [false; true]
  ∧ ∃ node, node ∈ DecisionTreePrior.nodes Example.two_level
            ∧ wnid node = "left"
            ∧ [false; true] = map (TreeSup.applicable node) Example.targets.
Proof.
  refine (proj1 (decision_data_shape Example.two_level Example.batch
                   Example.targets Example.decisions _ _)
            "left" [0] [false; true] _).
  - reflexivity.
  - vm_compute. reflexivity.
  - vm_compute. reflexivity.
Defined.

(** ** Sums, means and the greatest entry *)

Section Arithmetic.
Context {F : Type} `{Scalar F}.
Implicit Types (t outputs cp : tensor F).

Lemma seq_nth_list {A} (l : list A) d :
  (fun i => nth i l d) <$> seq 0 (length l) = l.
Proof.
  apply list_eq. intros i. rewrite list_lookup_fmap.
  destruct (l !! i) as [x|] eqn:Hi.
  - rewrite lookup_seq_lt by by eapply lookup_lt_Some.
    simpl. by rewrite (nth_lookup_Some _ _ _ _ Hi).
  - rewrite lookup_ge_None_2; [done|].
    rewrite length_seq. by apply lookup_ge_None.
Qed.

Lemma sum_upto_nth (g : nat -> F) (l : list nat) :
  sum_upto (length l) (fun i => g (nth i l 0%nat))
  = foldl (fun acc c => fadd acc (g c)) fzero l.
Proof.
  unfold sum_upto. rewrite <- (seq_nth_list l 0%nat) at 2.
  by rewrite foldl_fmap.
Qed.

Lemma foldl_ext_in {A B} (f g : A -> B -> A) (l : list B) (a : A) :
  (∀ a b, b ∈ l -> f a b = g a b) -> foldl f a l = foldl g a l.
Proof.
  revert a. induction l as [|b l IH]; intros a Hfg; simpl; [done|].
  rewrite Hfg by by left. apply IH. intros a' b' Hb'. apply Hfg. by right.
Qed.

Lemma sum_upto_ext (k : nat) (f g : nat -> F) :
  (∀ i, (i < k)%nat -> f i = g i) -> sum_upto k f = sum_upto k g.
Proof.
  intros Hfg. unfold sum_upto. apply foldl_ext_in.
  intros a i [_ Hi]%elem_of_seq. rewrite Hfg; [done|lia].
Qed.

(** [argmax] looks at the first [k] entries only, and only through the
    comparison. *)
Lemma argmax_fold_ext (k : nat) (f g : nat -> F) (l : list nat) (best : nat) :
  (∀ i j, (i < k)%nat -> (j < k)%nat -> fltb (f i) (f j) = fltb (g i) (g j)) ->
  (best < k)%nat -> Forall (fun j => (j < k)%nat) l ->
  foldl (fun best j => if fltb (f best) (f j) then j else best) best l
  = foldl (fun best j => if fltb (g best) (g j) then j else best) best l.
Proof.
  intros Hfg. revert best. induction l as [|j l IH]; intros best Hbest Hl; [done|].
  apply Forall_cons in Hl as [Hj Hl]. simpl.
  rewrite (Hfg best j) by done.
  destruct (fltb (g best) (g j)); by apply IH.
Qed.

Lemma argmax_range (k : nat) : Forall (fun j => (j < k)%nat) (seq 1 (k - 1)).
Proof. apply Forall_forall. intros j [Hlo Hhi]%elem_of_seq. lia. Qed.

Lemma argmax_same_order (k : nat) (f g : nat -> F) :
  (∀ i j, (i < k)%nat -> (j < k)%nat -> fltb (f i) (f j) = fltb (g i) (g j)) ->
  argmax k f = argmax k g.
Proof.
  intros Hfg. destruct (decide (k = 0%nat)) as [->|Hk]; [done|].
  unfold argmax. apply (argmax_fold_ext k); [done|lia|apply argmax_range].
Qed.

Lemma argmax_ext (k : nat) (f g : nat -> F) :
  (∀ i, (i < k)%nat -> f i = g i) -> argmax k f = argmax k g.
Proof.
  intros Hfg. apply argmax_same_order. intros i j Hi Hj.
  by rewrite (Hfg i Hi), (Hfg j Hj).
Qed.

Lemma argmax_fold_lt (k : nat) (f : nat -> F) (l : list nat) (best : nat) :
  (best < k)%nat -> Forall (fun j => (j < k)%nat) l ->
  (foldl (fun best j => if fltb (f best) (f j) then j else best) best l < k)%nat.
Proof.
  revert best. induction l as [|j l IH]; intros best Hbest Hl; [done|].
  apply Forall_cons in Hl as [Hj Hl]. simpl.
  destruct (fltb (f best) (f j)); by apply IH.
Qed.

(** The greatest entry of a row that is not empty is one of its entries. *)
Lemma argmax_lt (k : nat) (f : nat -> F) : (0 < k)%nat -> (argmax k f < k)%nat.
Proof. intros Hk. apply argmax_fold_lt; [done|apply argmax_range]. Qed.

(** The scan of [argmax] finds the greatest entry, the first among
    equal ones. *)
Lemma argmax_greatest (k : nat) (f : nat -> F) : argmax k f = Spec.greatest k f.
Proof.
  destruct k as [|k]; [done|]. induction k as [|k IH].
  - simpl. by destruct (fltb _ _).
  - change (Spec.greatest (S (S k)) f)
      with (let m := Spec.greatest (S k) f in
            if fltb (f m) (f (S k)) then S k else m).
    cbv zeta. rewrite <- IH. unfold argmax.
    replace (S (S k) - 1)%nat with (S k) by lia.
    replace (S k - 1)%nat with k by lia.
    by rewrite seq_S, foldl_app.
Qed.

Lemma greatest_lt (k : nat) (f : nat -> F) :
  (0 < k)%nat -> (Spec.greatest k f < k)%nat.
Proof. intros Hk. rewrite <- argmax_greatest. by apply argmax_lt. Qed.

Lemma imul_columns_spec cp (old_indexes : list nat) output (c : nat) cp' :
  imul_columns cp old_indexes output c = Ok cp' ->
  shape0 cp' = shape0 cp ∧ shape1 cp' = shape1 cp
  ∧ (old_indexes ≠ [] -> (c < shape1 output)%nat)
  ∧ ∀ s k,
      entry cp' s k
      = if bool_decide (k ∈ old_indexes)
        then fmul (entry cp s k)
               (entry output
                  (if decide (shape0 output = shape0 cp) then s else 0%nat) c)
        else entry cp s k.
Proof.
  unfold imul_columns. destruct (negb _); [done|].
  destruct (_ && _) eqn:Hok; [|done]. intros [= <-]. simpl.
  repeat split; try done.
  intros Hne. apply andb_prop in Hok as [_ Hcols].
  apply orb_prop in Hcols as [Hwidth|Hempty].
  - apply bool_decide_eq_true in Hwidth.
    destruct (Nat.ltb c (shape1 output)) eqn:Hc; [|done]. by apply Nat.ltb_lt.
  - apply bool_decide_eq_true in Hempty. by destruct old_indexes.
Qed.

Lemma imul_columns_total cp (old_indexes : list nat) output (c : nat) :
  Forall (fun i => (i < shape1 cp)%nat) old_indexes ->
  shape0 output = shape0 cp ->
  (c < shape1 output)%nat ->
  ∃ cp', imul_columns cp old_indexes output c = Ok cp'.
Proof.
  intros Hall Hrows Hc. unfold imul_columns.
  assert (forallb (fun i => Nat.ltb i (shape1 cp)) old_indexes = true) as ->.
  { apply forallb_forall. intros i Hi%list_elem_of_In.
    rewrite Forall_forall in Hall. by apply Nat.ltb_lt, Hall. }
  simpl. apply Nat.ltb_lt in Hc. rewrite Hc.
  rewrite !bool_decide_eq_true_2 by done. simpl. eauto.
Qed.
End Arithmetic.

(** ** Soft routing *)

Section LoopPrefix.
Context {A S : Type}.

(** An invariant that follows the part of the list already visited. *)
Lemma for_fold_prefix (I : list A -> S -> Prop) (body : S -> A -> res S)
    (l : list A) (s0 s' : S) :
  I [] s0 ->
  (∀ pre a s s1, a ∈ l -> I pre s -> body s a = Ok s1 -> I (pre ++ [a]) s1) ->
  for_fold body s0 l = Ok s' ->
  I l s'.
Proof.
  intros Hinit Hstep.
  assert (∀ post pre s, (∀ a, a ∈ post -> a ∈ l) -> I pre s ->
            for_fold body s post = Ok s' -> I (pre ++ post) s') as Hgen.
  { induction post as [|a post IH]; intros pre s Hin Hpre; simpl.
    - intros [= <-]. by rewrite app_nil_r.
    - destruct (body s a) as [s1|e] eqn:Hs1; simpl; [|done].
      intros Hrest. rewrite (cons_middle a pre post), app_assoc.
      apply (IH _ s1); [|by eapply Hstep; [apply Hin; left|..]|done].
      intros a' Ha'. apply Hin. by right. }
  apply (Hgen l [] s0); auto.
Qed.

Lemma for_fold_total (I : S -> Prop) (body : S -> A -> res S) (l : list A) (s0 : S) :
  I s0 ->
  (∀ s a, a ∈ l -> I s -> ∃ s1, body s a = Ok s1 ∧ I s1) ->
  ∃ s', for_fold body s0 l = Ok s' ∧ I s'.
Proof.
  revert s0. induction l as [|a l IH]; intros s0 Hs0 Hstep; simpl; [eauto|].
  destruct (Hstep s0 a) as (s1 & -> & Hs1); [by left|done|]. simpl.
  apply IH; [done|]. intros s a' Ha'. apply Hstep. by right.
Qed.
End LoopPrefix.

Section SoftRouting.
Context {F : Type} `{Scalar F} {Graph : Type}.
Implicit Types (self : DecisionTreePrior.t Graph) (node : Node Graph).
Implicit Types (t outputs cp : tensor F).
Implicit Types (scores : gmap string (tensor F)).

(** The node-local scores are the means over the columns that each
    node-local class owns. *)
Lemma node_logits_entry node outputs t s j :
  node_logits node outputs = Ok t ->
  (s < shape0 outputs)%nat -> (j < num_classes node)%nat ->
  entry t s j = Spec.score node outputs s j.
Proof.
  unfold node_logits. intros Ht Hs Hj.
  destruct (for_each _ _) as [vs|e] eqn:Hvs; simpl in Ht; [|done].
  destruct (stack vs) as [t'|e] eqn:Ht'; simpl in Ht; [|done].
  injection Ht as <-. simpl.
  apply stack_shape in Ht' as (_ & _ & _ & ->).
  apply for_each_lookup in Hvs as [_ Hvs].
  destruct (Hvs j j) as (v & Hv & Hmean).
  { by apply lookup_seq_lt. }
  rewrite (nth_lookup_Some _ _ _ _ Hv).
  destruct (select_rows _ _) as [sub|e] eqn:Hsub; simpl in Hmean; [|done].
  injection Hmean as <-.
  apply select_rows_shape in Hsub as (Hrows & Hcols & _ & Hentry).
  unfold mean_dim0. rewrite Hcols. simpl.
  erewrite nth_lookup_Some; last first.
  { rewrite list_lookup_fmap, lookup_seq_lt by done. simpl. reflexivity. }
  unfold Spec.score, Spec.mean_over. rewrite Hrows. f_equal.
  rewrite <- (sum_upto_nth (fun c => entry outputs s c)).
  apply sum_upto_ext. intros i _. by rewrite Hentry.
Qed.

Lemma stack_total (vs : list (list F)) (n : nat) :
  vs ≠ [] -> (∀ v, v ∈ vs -> length v = n) -> ∃ t, stack vs = Ok t.
Proof.
  intros Hne Hlen. unfold stack. destruct vs as [|v vs]; [done|].
  assert (forallb (fun w => Nat.eqb (length w) (length v)) (v :: vs) = true) as ->;
    [|eauto].
  apply forallb_forall. intros w Hw%list_elem_of_In. apply Nat.eqb_eq.
  rewrite (Hlen w Hw). symmetry. apply Hlen. by left.
Qed.

Lemma node_logits_total node outputs :
  (0 < num_classes node)%nat ->
  (∀ j c, (j < num_classes node)%nat -> c ∈ new_to_old_classes node j ->
     (c < shape1 outputs)%nat) ->
  ∃ t, node_logits node outputs = Ok t.
Proof.
  intros Hpos Hcols. unfold node_logits.
  destruct (for_each_total
              (fun new_label =>
                 sub ← select_rows (transpose outputs)
                         (new_to_old_classes node new_label);
                 Ok (mean_dim0 sub))
              (seq 0 (num_classes node))) as [vs Hvs].
  { intros j [_ Hj]%elem_of_seq.
    destruct (select_rows_in_range (transpose outputs) (new_to_old_classes node j))
      as [sub ->]; [|simpl; eauto].
    apply Forall_forall. intros c Hc. simpl. by eapply Hcols. }
  rewrite Hvs. simpl.
  apply for_each_lookup in Hvs as [Hlen Hvs]. rewrite length_seq in Hlen.
  destruct (stack_total vs (shape0 outputs)) as [t ->]; [| |simpl; eauto].
  - destruct vs; [simpl in Hlen; lia|done].
  - intros v (j & Hv)%list_elem_of_lookup.
    destruct (Hvs j j) as (v' & Hv' & Hmean).
    { apply lookup_seq_lt. apply lookup_lt_Some in Hv. lia. }
    rewrite Hv in Hv'. injection Hv' as <-.
    destruct (select_rows _ _) as [sub|e] eqn:Hsub; simpl in Hmean; [|done].
    injection Hmean as <-. rewrite mean_dim0_length.
    by apply select_rows_shape in Hsub as (_ & -> & _).
Qed.

(** After the first loop of [update_batch], every node finds scores under
    its [wnid], and every entry holds the scores of a node with that
    [wnid]. *)
Lemma collect_scores self outputs scores :
  DecisionTreeBayesianPrior.collect self outputs = Ok scores ->
  (∀ node, node ∈ DecisionTreePrior.nodes self -> is_Some (scores !! wnid node))
  ∧ ∀ key t, scores !! key = Some t ->
      ∃ node, node ∈ DecisionTreePrior.nodes self ∧ wnid node = key
              ∧ node_logits node outputs = Ok t.
Proof.
  unfold DecisionTreeBayesianPrior.collect. intros Hcollect.
  pose (I := fun (pre : list (Node Graph)) (w : gmap string (tensor F)) =>
    (∀ node, node ∈ pre -> is_Some (w !! wnid node))
    ∧ ∀ key t, w !! key = Some t ->
        ∃ node, node ∈ DecisionTreePrior.nodes self ∧ wnid node = key
                ∧ node_logits node outputs = Ok t).
  apply (for_fold_prefix I) in Hcollect; [done| |].
  - split; [by intros node ?%elem_of_nil|by intros key t].
  - intros pre node w w' Hnode [Hpre Hentries].
    destruct (node_logits node outputs) as [t|e] eqn:Ht; simpl; [|done].
    intros [= <-]. split.
    + intros node' [Hnode'| ->%list_elem_of_singleton]%elem_of_app.
      * destruct (decide (wnid node = wnid node')) as [->|Hne].
        -- by rewrite lookup_insert_eq.
        -- rewrite lookup_insert_ne by done. by apply Hpre.
      * by rewrite lookup_insert_eq.
    + intros key t'. destruct (decide (wnid node = key)) as [<-|Hne].
      * rewrite lookup_insert_eq. intros [= <-]. eauto.
      * rewrite lookup_insert_ne by done. apply Hentries.
Qed.

Lemma collect_total self outputs :
  (∀ node, node ∈ DecisionTreePrior.nodes self ->
     (0 < num_classes node)%nat
     ∧ ∀ j c, (j < num_classes node)%nat -> c ∈ new_to_old_classes node j ->
         (c < shape1 outputs)%nat) ->
  ∃ scores, DecisionTreeBayesianPrior.collect self outputs = Ok scores.
Proof.
  intros Hfits. unfold DecisionTreeBayesianPrior.collect.
  destruct (for_fold_total (fun _ => True)
              (fun (wnid_to_output : gmap string (tensor F)) node =>
                 node_outputs ← node_logits node outputs;
                 Ok (<[wnid node := node_outputs]> wnid_to_output))
              (DecisionTreePrior.nodes self) ∅) as (scores & -> & _);
    [done| |eauto].
  intros w node Hnode _. destruct (Hfits node Hnode) as [Hpos Hcols].
  destruct (node_logits_total node outputs Hpos Hcols) as [t ->]. simpl. eauto.
Qed.
End SoftRouting.

Section SoftTraversal.
Context {F : Type} `{Scalar F} {Graph : Type}.
Implicit Types (self : DecisionTreePrior.t Graph) (node : Node Graph).
Implicit Types (t outputs output cp : tensor F).
Implicit Types (scores : gmap string (tensor F)).

Lemma node_factors_ext node (P Q : nat -> F) (k : nat) :
  (∀ j, (j < length (children node))%nat -> k ∈ new_to_old_classes node j ->
     P j = Q j) ->
  Spec.node_factors node P k = Spec.node_factors node Q k.
Proof.
  intros HPQ. unfold Spec.node_factors.
  assert (∀ js : list nat, (∀ j, j ∈ js -> (j < length (children node))%nat) ->
    omap (fun j => if bool_decide (k ∈ new_to_old_classes node j)
                   then Some (P j) else None) js
    = omap (fun j => if bool_decide (k ∈ new_to_old_classes node j)
                     then Some (Q j) else None) js) as Hjs.
  { induction js as [|j js IH]; intros Hrange; [done|]. csimpl.
    rewrite IH by (intros j' Hj'; apply Hrange; by right).
    case_bool_decide as Hk; [|done].
    rewrite HPQ; [done|apply Hrange; by left|done]. }
  apply Hjs. intros j [_ Hj]%elem_of_seq. lia.
Qed.

(** The inner loop multiplies every entry by the factors of the node. *)
Lemma scale_node_spec node output cp cp' :
  DecisionTreeBayesianPrior.scale_node node output cp = Ok cp' ->
  shape0 cp' = shape0 cp ∧ shape1 cp' = shape1 cp
  ∧ (∀ j, (j < length (children node))%nat ->
       new_to_old_classes node j ≠ [] -> (j < shape1 output)%nat)
  ∧ ∀ s k,
      entry cp' s k
      = foldl fmul (entry cp s k)
          (Spec.node_factors node
             (fun j => entry output
                         (if decide (shape0 output = shape0 cp) then s else 0%nat) j)
             k).
Proof.
  unfold DecisionTreeBayesianPrior.scale_node, Spec.node_factors.
  intros Hloop.
  pose (I := fun (pre : list nat) (cp1 : tensor F) =>
    shape0 cp1 = shape0 cp ∧ shape1 cp1 = shape1 cp
    ∧ (∀ j, j ∈ pre -> new_to_old_classes node j ≠ [] -> (j < shape1 output)%nat)
    ∧ ∀ s k,
        entry cp1 s k
        = foldl fmul (entry cp s k)
            (omap (fun j => if bool_decide (k ∈ new_to_old_classes node j)
                            then Some (entry output
                                         (if decide (shape0 output = shape0 cp)
                                          then s else 0%nat) j)
                            else None) pre)).
  apply (for_fold_prefix I) in Hloop.
  - destruct Hloop as (H0 & H1 & Hwidth & Hentry). repeat split; try done.
    intros j Hj. apply Hwidth. apply elem_of_seq. lia.
  - repeat split; try done. by intros j ?%elem_of_nil.
  - intros pre j cp1 cp2 _ (H0 & H1 & Hwidth & Hentry) Hstep.
    apply imul_columns_spec in Hstep as (H0' & H1' & Hwidth' & Hentry').
    repeat split; [congruence|congruence| |].
    + intros j' [Hj'| ->%list_elem_of_singleton]%elem_of_app; auto.
    + intros s k. rewrite Hentry', omap_app, foldl_app, Hentry, H0. simpl.
      by case_bool_decide.
Qed.

Lemma scale_node_total node output cp :
  shape0 output = shape0 cp ->
  (length (children node) <= shape1 output)%nat ->
  (∀ j c, (j < length (children node))%nat -> c ∈ new_to_old_classes node j ->
     (c < shape1 cp)%nat) ->
  ∃ cp', DecisionTreeBayesianPrior.scale_node node output cp = Ok cp'
         ∧ shape0 cp' = shape0 cp ∧ shape1 cp' = shape1 cp.
Proof.
  intros Hrows Hwidth Hcols. unfold DecisionTreeBayesianPrior.scale_node.
  apply (for_fold_total
           (fun cp1 : tensor F => shape0 cp1 = shape0 cp ∧ shape1 cp1 = shape1 cp));
    [done|].
  intros cp1 j [_ Hj]%elem_of_seq [H0 H1].
  destruct (imul_columns_total cp1 (new_to_old_classes node j) output j)
    as [cp2 Hcp2]; [|congruence|lia|].
  - apply Forall_forall. intros c Hc. rewrite H1. eapply Hcols; [|done]. lia.
  - exists cp2. split; [done|].
    apply imul_columns_spec in Hcp2 as (-> & -> & _). done.
Qed.

(** The class probabilities keep the shape they start with: a row per
    sample and a column per original class. *)
Lemma class_probs_shape self scores (n_samples : nat) cp :
  DecisionTreeBayesianPrior.class_probs_of self scores n_samples = Ok cp ->
  shape0 cp = n_samples ∧ shape1 cp = length (DecisionTreePrior.classes self).
Proof.
  unfold DecisionTreeBayesianPrior.class_probs_of.
  apply (for_fold_invariant
           (fun cp : tensor F =>
              shape0 cp = n_samples
              ∧ shape1 cp = length (DecisionTreePrior.classes self)));
    [|done].
  intros cp1 node cp2 _ [H0 H1].
  destruct (subscript _) as [output|e]; simpl; [|done].
  intros (-> & -> & _)%scale_node_spec. done.
Qed.

(** On the scores that [update_batch] collects, the outer loop leaves in
    every entry the product of the factors of all the nodes. *)
Lemma class_probs_formula self outputs scores cp :
  NoDup (wnid <$> DecisionTreePrior.nodes self) ->
  DecisionTreeBayesianPrior.collect self outputs = Ok scores ->
  DecisionTreeBayesianPrior.class_probs_of self scores (shape0 outputs) = Ok cp ->
  ∀ s k, (s < shape0 outputs)%nat ->
    entry cp s k = Spec.class_prob (DecisionTreePrior.nodes self) outputs s k.
Proof.
  intros Hnodup [_ Hscores]%collect_scores.
  unfold DecisionTreeBayesianPrior.class_probs_of, Spec.class_prob. intros Hloop.
  pose (I := fun (pre : list (Node Graph)) (cp1 : tensor F) =>
    shape0 cp1 = shape0 outputs
    ∧ ∀ s k, (s < shape0 outputs)%nat ->
        entry cp1 s k
        = foldl fmul fone
            (pre ≫= fun node =>
               Spec.node_factors node (Spec.local_prob node outputs s) k)).
  apply (for_fold_prefix I) in Hloop; [by destruct Hloop|done|].
  intros pre node cp1 cp2 Hnode [H0 Hentry].
  destruct (scores !! wnid node) as [t|] eqn:Ht; simpl; [|done].
  destruct (Hscores _ _ Ht) as (node' & Hnode' & Hwnid & Hlogits).
  rewrite (same_wnid_same_node _ _ _ Hnodup Hnode' Hnode Hwnid) in Hlogits.
  pose proof (node_logits_shape _ _ _ Hlogits) as (Ht0 & Ht1 & _).
  intros (H0' & _ & Hwidth & Hentry')%scale_node_spec. simpl in *.
  split; [congruence|]. intros s k Hs.
  rewrite Hentry', (Hentry s k Hs), bind_app, foldl_app. f_equal.
  simpl. rewrite app_nil_r. apply node_factors_ext. intros j Hj Hk.
  rewrite decide_True by congruence.
  assert (j < num_classes node)%nat as Hj'.
  { rewrite <- Ht1. apply Hwidth; [done|]. intros Hnil.
    rewrite Hnil in Hk. by apply elem_of_nil in Hk. }
  unfold Spec.local_prob. rewrite Ht1.
  rewrite (node_logits_entry _ _ _ _ _ Hlogits Hs Hj'). f_equal.
  apply sum_upto_ext. intros i Hi.
  by rewrite (node_logits_entry _ _ _ _ _ Hlogits Hs Hi).
Qed.

Lemma class_probs_total self outputs scores :
  NoDup (wnid <$> DecisionTreePrior.nodes self) ->
  Spec.fits (DecisionTreePrior.nodes self)
    (length (DecisionTreePrior.classes self)) outputs ->
  DecisionTreeBayesianPrior.collect self outputs = Ok scores ->
  ∃ cp, DecisionTreeBayesianPrior.class_probs_of self scores (shape0 outputs)
        = Ok cp.
Proof.
  intros Hnodup [_ Hfits] [Hpresent Hscores]%collect_scores.
  unfold DecisionTreeBayesianPrior.class_probs_of.
  destruct (for_fold_total
              (fun cp : tensor F =>
                 shape0 cp = shape0 outputs
                 ∧ shape1 cp = length (DecisionTreePrior.classes self))
              (fun class_probs node =>
                 output ← subscript (scores !! wnid node);
                 DecisionTreeBayesianPrior.scale_node node (softmax output)
                   class_probs)
              (DecisionTreePrior.nodes self)
              (ones (shape0 outputs) (length (DecisionTreePrior.classes self))))
    as (cp & -> & _); [done| |eauto].
  intros cp1 node Hnode [H0 H1].
  destruct (Hpresent node Hnode) as [t Ht]. rewrite Ht. simpl.
  destruct (Hscores _ _ Ht) as (node' & Hnode' & Hwnid & Hlogits).
  rewrite (same_wnid_same_node _ _ _ Hnodup Hnode' Hnode Hwnid) in Hlogits.
  pose proof (node_logits_shape _ _ _ Hlogits) as (Ht0 & Ht1 & _).
  destruct (Hfits node Hnode) as (_ & Hchildren & _ & Hcols).
  destruct (scale_node_total node (softmax t) cp1) as (cp2 & -> & H0' & H1').
  - simpl. congruence.
  - simpl. lia.
  - intros j c Hj Hc. rewrite H1. by eapply Hcols.
  - exists cp2. split; [done|]. split; congruence.
Qed.

Lemma traverse_tree_formula self outputs (predicted : list Z) scores preds :
  NoDup (wnid <$> DecisionTreePrior.nodes self) ->
  DecisionTreeBayesianPrior.collect self outputs = Ok scores ->
  DecisionTreeBayesianPrior.traverse_tree self predicted scores (shape0 outputs)
    = Ok preds ->
  preds = long_tensor
            (map (Spec.prediction (DecisionTreePrior.nodes self) outputs
                    (length (DecisionTreePrior.classes self)))
                 (seq 0 (shape0 outputs))).
Proof.
  intros Hnodup Hcollect. unfold DecisionTreeBayesianPrior.traverse_tree.
  destruct (DecisionTreeBayesianPrior.class_probs_of _ _ _) as [cp|e] eqn:Hcp;
    simpl; [|done].
  pose proof (class_probs_shape _ _ _ _ Hcp) as [H0 H1].
  pose proof (class_probs_formula _ _ _ _ Hnodup Hcollect Hcp) as Hentry.
  unfold argmax_dim1. case_decide; simpl; [done|]. intros [= <-]. f_equal.
  rewrite H0, H1, map_map. apply map_ext_in.
  intros s [_ Hs]%in_seq. unfold Spec.prediction. f_equal.
  rewrite <- argmax_greatest. apply argmax_ext. intros k _. by apply Hentry.
Qed.


Lemma traverse_tree_classes self (predicted : list Z) scores (n_samples : nat) preds :
  DecisionTreeBayesianPrior.traverse_tree self predicted scores n_samples
    = Ok preds ->
  (0 < length (DecisionTreePrior.classes self))%nat.
Proof.
  unfold DecisionTreeBayesianPrior.traverse_tree.
  destruct (DecisionTreeBayesianPrior.class_probs_of _ _ _) as [cp|e] eqn:Hcp;
    simpl; [|done].
  apply class_probs_shape in Hcp as [_ <-].
  unfold argmax_dim1. case_decide; [done|]. lia.
Qed.

(** On a hierarchy that fits the batch, both loops of soft routing run to
    their end. *)
Lemma soft_routing_returns self outputs (predicted : list Z) :
  NoDup (wnid <$> DecisionTreePrior.nodes self) ->
  Spec.fits (DecisionTreePrior.nodes self)
    (length (DecisionTreePrior.classes self)) outputs ->
  ∃ scores preds,
    DecisionTreeBayesianPrior.collect self outputs = Ok scores
    ∧ DecisionTreeBayesianPrior.traverse_tree self predicted scores
        (shape0 outputs) = Ok preds.
Proof.
  intros Hnodup Hfits.
  destruct (collect_total self outputs) as [scores Hcollect].
  { intros node Hnode. destruct Hfits as [_ Hfits].
    destruct (Hfits node Hnode) as (Hpos & _ & Hcols & _). eauto. }
  destruct (class_probs_total _ _ _ Hnodup Hfits Hcollect) as [cp Hcp].
  pose proof (class_probs_shape _ _ _ _ Hcp) as [H0 H1].
  exists scores. unfold DecisionTreeBayesianPrior.traverse_tree.
  rewrite Hcp. simpl. unfold argmax_dim1. destruct Hfits as [Hclasses _].
  rewrite decide_False by lia. simpl. eauto.
Qed.
End SoftTraversal.

Section SoftRoutingClaims.
Context {F : Type} `{Scalar F} {Graph : Type}.
Implicit Types (self : DecisionTreePrior.t Graph) (node : Node Graph).
Implicit Types (outputs : tensor F) (scores : gmap string (tensor F)).


(** C2. On a hierarchy whose nodes bear different [wnid]s: the first loop
    of [update_batch] leaves, under the [wnid] of every node, a tensor
    with a row per sample and a column per node-local class whose entries
    are the means of the raw outputs over the columns that the node-local
    class owns; [traverse_tree] then starts from all ones, multiplies the
    entries of every node-local class's original classes by the softmax of
    these scores at every child of every node, and answers, converted
    through float32, the position of the greatest entry of every sample:
    for a list of at most [2^24 + 1] classes this position itself.  When
    the hierarchy fits the batch both return, and [update_batch] counts
    these predictions before it computes the accuracy. *)
Theorem soft_routing_computation self outputs (predicted targets : list Z) :
  NoDup (wnid <$> DecisionTreePrior.nodes self) ->
  (∀ scores,
     DecisionTreeBayesianPrior.collect self outputs = Ok scores ->
     (∀ node, node ∈ DecisionTreePrior.nodes self ->
        ∃ t, scores !! wnid node = Some t
             ∧ shape0 t = shape0 outputs ∧ shape1 t = num_classes node
             ∧ ∀ s j, (s < shape0 outputs)%nat -> (j < num_classes node)%nat ->
                 entry t s j = Spec.score node outputs s j)
     ∧ (∀ cp,
          DecisionTreeBayesianPrior.class_probs_of self scores (shape0 outputs)
            = Ok cp ->
          ∀ s k, (s < shape0 outputs)%nat ->
            entry cp s k
            = Spec.class_prob (DecisionTreePrior.nodes self) outputs s k)
     ∧ ∀ preds,
         DecisionTreeBayesianPrior.traverse_tree self predicted scores
           (shape0 outputs) = Ok preds ->
         preds = long_tensor
                   (map (Spec.prediction (DecisionTreePrior.nodes self) outputs
                           (length (DecisionTreePrior.classes self)))
                        (seq 0 (shape0 outputs)))
         ∧ (Z.of_nat (length (DecisionTreePrior.classes self)) <= 16777217 ->
            preds = map (Spec.prediction (DecisionTreePrior.nodes self) outputs
                           (length (DecisionTreePrior.classes self)))
                        (seq 0 (shape0 outputs))))
  ∧ (Spec.fits (DecisionTreePrior.nodes self)
       (length (DecisionTreePrior.classes self)) outputs ->
     ∃ scores preds,
       DecisionTreeBayesianPrior.collect self outputs = Ok scores
       ∧ DecisionTreeBayesianPrior.traverse_tree self predicted scores
           (shape0 outputs) = Ok preds
       ∧ DecisionTreeBayesianPrior.update_batch self outputs predicted targets
         = (hits ← DecisionTreePrior.count_equal preds targets;
            _ ← accuracy_line (DecisionTreePrior.correct self + hits)
                  (DecisionTreePrior.total self + Z.of_nat (shape0 outputs));
            Ok (DecisionTreePrior.set_counters self
                  (DecisionTreePrior.correct self + hits)
                  (DecisionTreePrior.total self + Z.of_nat (shape0 outputs))))).
Proof.
  intros Hnodup. split.
  - intros scores Hcollect. split; [|split].
    + intros node Hnode.
      pose proof (collect_scores _ _ _ Hcollect) as [Hpresent Hscores].
      destruct (Hpresent node Hnode) as [t Ht]. exists t. split; [done|].
      destruct (Hscores _ _ Ht) as (node' & Hnode' & Hwnid & Hlogits).
      rewrite (same_wnid_same_node _ _ _ Hnodup Hnode' Hnode Hwnid) in Hlogits.
      pose proof (node_logits_shape _ _ _ Hlogits) as (Ht0 & Ht1 & _).
      repeat split; [done..|].
      intros s j Hs Hj. by eapply node_logits_entry.
    + intros cp Hcp. by eapply class_probs_formula.
    + intros preds Hpreds.
      pose proof (traverse_tree_classes _ _ _ _ _ Hpreds) as Hpos.
      apply (traverse_tree_formula _ _ _ _ _ Hnodup Hcollect) in Hpreds.
      split; [done|]. intros Hclasses. rewrite Hpreds.
      apply long_tensor_exact, Forall_fmap, Forall_forall. intros s _. simpl.
      unfold Spec.prediction.
      pose proof (greatest_lt (length (DecisionTreePrior.classes self))
                    (Spec.class_prob (DecisionTreePrior.nodes self) outputs s) Hpos).
      lia.
  - intros Hfits.
    destruct (soft_routing_returns self outputs predicted Hnodup Hfits)
      as (scores & preds & Hcollect & Hpreds).
    exists scores, preds. split; [done|]. split; [done|].
    unfold DecisionTreeBayesianPrior.update_batch.
    rewrite Hcollect. simpl. by rewrite Hpreds.
Qed.
End SoftRoutingClaims.


Lemma soft_routing_computation_witness :
  [2; 0] = map (Spec.prediction (DecisionTreePrior.nodes Example.two_level)
                  Example.batch 4)
               (seq 0 (shape0 Example.batch)).
Proof.
  refine (proj2 (proj2 (proj2 (proj1 (soft_routing_computation Example.two_level
                                        Example.batch [] [] _)
                                 Example.scores _))
                   [2; 0] _) _).
  - apply (bool_decide_unpack _). vm_compute. reflexivity.
  - vm_compute. reflexivity.
  - vm_compute. reflexivity.
  - by vm_compute.
Defined.

(** ** Soft routing on a single node, in exact arithmetic *)

Module RealScores.
Import Reals Lra.
Local Close Scope R_scope.

Section SingleNode.
Context {Graph : Type}.
Implicit Types (self : DecisionTreePrior.t Graph) (node : Node Graph).
Implicit Types (outputs : tensor R).

Lemma fltb_lt (x y : R) : fltb x y = true <-> (x < y)%R.
Proof. simpl. destruct (Rlt_dec x y); split; (done || congruence). Qed.

Lemma fltb_same_order (a b x y : R) :
  ((a < b)%R <-> (x < y)%R) -> fltb a b = fltb x y.
Proof.
  intros Hiff. destruct (fltb x y) eqn:Hxy.
  - apply fltb_lt, Hiff, fltb_lt, Hxy.
  - destruct (fltb a b) eqn:Hab; [|done].
    apply fltb_lt, Hiff, fltb_lt in Hab. congruence.
Qed.

Lemma sum_from_ge (f : nat -> R) (l : list nat) (acc : R) :
  (∀ i, 0 < f i)%R ->
  (acc <= foldl (fun acc i => fadd acc (f i)) acc l)%R.
Proof.
  intros Hf. revert acc. induction l as [|i l IH]; intros acc; simpl; [lra|].
  specialize (IH (acc + f i)%R). specialize (Hf i). simpl in IH. lra.
Qed.

Lemma sum_upto_pos (k : nat) (f : nat -> R) :
  (0 < k)%nat -> (∀ i, 0 < f i)%R -> (0 < sum_upto k f)%R.
Proof.
  intros Hk Hf. unfold sum_upto. destruct k as [|k]; [lia|]. simpl.
  pose proof (sum_from_ge f (seq 1 k) (0 + f 0%nat)%R Hf).
  specialize (Hf 0%nat). simpl in *. lra.
Qed.

(** Softmax keeps the order of the scores of a row. *)
Lemma softmax_same_order outputs (s i j : nat) :
  (0 < shape1 outputs)%nat ->
  fltb (entry (softmax outputs) s i) (entry (softmax outputs) s j)
  = fltb (entry outputs s i) (entry outputs s j).
Proof.
  intros Hpos. apply fltb_same_order. simpl.
  set (total := sum_upto _ _).
  assert (0 < total)%R as Htotal.
  { apply sum_upto_pos; [done|]. intros k. apply exp_pos. }
  assert (0 < / total)%R as Hinv by by apply Rinv_0_lt_compat.
  unfold Rdiv. split.
  - intros Hlt. apply exp_lt_inv.
    by apply Rmult_lt_reg_r in Hlt.
  - intros Hlt. apply Rmult_lt_compat_r; [done|]. by apply exp_increasing.
Qed.



(** Over the reals the greatest entry is what the name says: no entry
    is greater, and every entry before it is smaller. *)
Lemma greatest_first (k : nat) (f : nat -> R) :
  (0 < k)%nat ->
  (Spec.greatest k f < k)%nat
  ∧ (∀ c, (c < k)%nat -> (f c <= f (Spec.greatest k f))%R)
  ∧ (∀ c, (c < Spec.greatest k f)%nat -> (f c < f (Spec.greatest k f))%R).
Proof.
  destruct k as [|k]; [lia|]. intros _.
  induction k as [|k (IHlt & IHle & IHfirst)].
  - assert (Spec.greatest 1 f = 0%nat) as ->.
    { simpl. by destruct (Rlt_dec _ _). }
    split; [lia|]. split; intros c Hc; [|lia].
    replace c with 0%nat by lia. lra.
  - change (Spec.greatest (S (S k)) f)
      with (let m := Spec.greatest (S k) f in
            if fltb (f m) (f (S k)) then S k else m).
    cbv zeta. destruct (fltb _ _) eqn:Hlt.
    + apply fltb_lt in Hlt. split; [lia|]. split; intros c Hc.
      * destruct (decide (c = S k)) as [->|Hne]; [lra|].
        specialize (IHle c ltac:(lia)). lra.
      * specialize (IHle c Hc). lra.
    + assert (f (S k) <= f (Spec.greatest (S k) f))%R as Hle.
      { destruct (Rle_or_lt (f (S k)) (f (Spec.greatest (S k) f)))
          as [|Hgt%fltb_lt]; [done|congruence]. }
      split; [lia|]. split; [|done]. intros c Hc.
      destruct (decide (c = S k)) as [->|Hne]; [done|]. apply IHle. lia.
Qed.

End SingleNode.


(** ** Soft routing on more than [2^24] classes *)

Section Wide.
Variable m : nat.

Lemma wide_factors_low (P : nat -> R) (k : nat) :
  (k < m)%nat -> Spec.node_factors (Example.wide_node m) P k = [P 0%nat].
Proof.
  intros Hk. unfold Spec.node_factors. simpl. csimpl.
  rewrite bool_decide_eq_true_2 by (apply elem_of_seq; lia).
  rewrite bool_decide_eq_false_2; [done|].
  intros ->%list_elem_of_singleton. lia.
Qed.

Lemma wide_factors_last (P : nat -> R) :
  Spec.node_factors (Example.wide_node m) P m = [P 1%nat].
Proof.
  unfold Spec.node_factors. simpl. csimpl.
  rewrite bool_decide_eq_false_2 by (rewrite elem_of_seq; lia).
  rewrite bool_decide_eq_true_2; [done|]. by apply list_elem_of_singleton.
Qed.

(** The class probabilities of the one sample: the softmax of the score
    0 in every column but the last, and that of the score 1 in the
    last. *)
Lemma wide_class_probs :
  ∃ cp,
    DecisionTreeBayesianPrior.class_probs_of (Example.wide m)
      Example.wide_scores 1 = Ok cp
    ∧ shape0 cp = 1%nat ∧ shape1 cp = S m
    ∧ Spec.greatest (S m) (entry cp 0%nat) = m.
Proof.
  unfold DecisionTreeBayesianPrior.class_probs_of.
  change (DecisionTreePrior.nodes (Example.wide m)) with [Example.wide_node m].
  change (DecisionTreePrior.classes (Example.wide m)) with (replicate (S m) "c").
  rewrite length_replicate. cbn [for_fold].
  change (Example.wide_scores !! wnid (Example.wide_node m))
    with (Some Example.real_batch).
  cbn [subscript mbind res_bind].
  destruct (scale_node_total (Example.wide_node m) (softmax Example.real_batch)
              (ones 1 (S m))) as (cp & Hcp & H0 & H1).
  - reflexivity.
  - simpl. lia.
  - intros [|[|j]] c Hj; simpl in *; [|intros ->%list_elem_of_singleton|]; try lia.
    intros [_ Hc]%elem_of_seq. lia.
  - rewrite Hcp. exists cp. split; [done|]. split; [done|]. split; [done|].
    apply scale_node_spec in Hcp as (_ & _ & _ & Hentry).
    assert (entry (softmax Example.real_batch) 0 0
            < entry (softmax Example.real_batch) 0 1)%R as Hlt.
    { apply fltb_lt. rewrite softmax_same_order by (simpl; lia).
      apply fltb_lt. simpl. lra. }
    assert (∀ k, (k < m)%nat ->
              entry cp 0%nat k = (1 * entry (softmax Example.real_batch) 0 0)%R)
      as Hlow.
    { intros k Hk. by rewrite Hentry, wide_factors_low. }
    assert (entry cp 0%nat m = (1 * entry (softmax Example.real_batch) 0 1)%R)
      as Hlast.
    { by rewrite Hentry, wide_factors_last. }
    destruct (greatest_first (S m) (entry cp 0%nat)) as (Hp & Hle & _); [lia|].
    specialize (Hle m ltac:(lia)).
    destruct (decide (Spec.greatest (S m) (entry cp 0%nat) = m)) as [|Hne];
      [done|].
    rewrite Hlast, Hlow in Hle by lia. lra.
Qed.

Lemma wide_traverse_tree :
  DecisionTreeBayesianPrior.traverse_tree (Example.wide m) []
    Example.wide_scores 1
  = Ok [long_of_float32 (Z.of_nat m)].
Proof.
  destruct wide_class_probs as (cp & Hcp & H0 & H1 & Hgreatest).
  unfold DecisionTreeBayesianPrior.traverse_tree. rewrite Hcp.
  cbn [mbind res_bind]. unfold argmax_dim1.
  rewrite decide_False by lia. rewrite H0, H1. cbn [mbind res_bind seq map].
  by rewrite argmax_greatest, Hgreatest.
Qed.


End Wide.

(** At [2^24 + 4] classes the answer is not the position of the greatest
    class probability. *)
Lemma soft_routing_rounds_large_index :
  ∃ cp,
    DecisionTreeBayesianPrior.class_probs_of (Example.wide (Z.to_nat 16777219))
      Example.wide_scores 1 = Ok cp
    ∧ shape1 cp = S (Z.to_nat 16777219)
    ∧ Z.of_nat (Spec.greatest (shape1 cp) (entry cp 0%nat)) = 16777219
    ∧ DecisionTreeBayesianPrior.traverse_tree (Example.wide (Z.to_nat 16777219)) []
        Example.wide_scores 1
      = Ok [16777220].
Proof.
  destruct (wide_class_probs (Z.to_nat 16777219)) as (cp & Hcp & H0 & H1 & Hgreatest).
  exists cp. split; [exact Hcp|]. split; [exact H1|]. split.
  - rewrite H1, Hgreatest. apply Z2Nat.id. lia.
  - pose proof (wide_traverse_tree (Z.to_nat 16777219)) as Htree.
    rewrite Z2Nat.id in Htree by lia. exact Htree.
Qed.

End RealScores.

(** * Further properties of the code *)

(** ** Dicts built by a comprehension *)

Section Comprehension.
Context {A V : Type} (key : A -> string) (val : A -> V).
Implicit Types (l : list A) (m : gmap string V).

Lemma comprehension_lookup l m k v :
  foldl (fun m a => <[key a := val a]> m) m l !! k = Some v ->
  m !! k = Some v ∨ ∃ a, a ∈ l ∧ key a = k ∧ val a = v.
Proof.
  revert m. induction l as [|a l IH]; intros m; simpl; [by left|].
  intros [Hm|(a' & Ha' & Hk & Hv)]%IH.
  - destruct (decide (key a = k)) as [<-|Hne].
    + rewrite lookup_insert_eq in Hm. injection Hm as <-.
      right. exists a. split; [by left|done].
    + rewrite lookup_insert_ne in Hm by done. by left.
  - right. exists a'. split; [by right|done].
Qed.

Lemma comprehension_absent l m k :
  k ∉ key <$> l ->
  foldl (fun m a => <[key a := val a]> m) m l !! k = m !! k.
Proof.
  revert m. induction l as [|a l IH]; intros m Hk; simpl; [done|].
  rewrite fmap_cons, not_elem_of_cons in Hk. destruct Hk as [Hne Hk].
  rewrite IH by done. by rewrite lookup_insert_ne.
Qed.

Lemma comprehension_present l m a :
  NoDup (key <$> l) -> a ∈ l ->
  foldl (fun m a => <[key a := val a]> m) m l !! key a = Some (val a).
Proof.
  revert m. induction l as [|b l IH]; intros m Hnodup Ha; [by apply elem_of_nil in Ha|].
  rewrite fmap_cons in Hnodup. apply NoDup_cons in Hnodup as [Hb Hnodup].
  simpl. apply elem_of_cons in Ha as [->|Ha].
  - rewrite comprehension_absent by done. by rewrite lookup_insert_eq.
  - by apply IH.
Qed.
End Comprehension.

Section Zipped.
Context {V : Type}.

Lemma dict_of_zip_lookup (ks : list string) (vs : list V) k v :
  dict_of_zip ks vs !! k = Some v -> ∃ i, ks !! i = Some k ∧ vs !! i = Some v.
Proof.
  unfold dict_of_zip.
  intros [Hm|([k' v'] & Hin & Hk & Hv)]%comprehension_lookup; [done|].
  simpl in *. subst. apply list_elem_of_lookup in Hin as [i Hi].
  exists i. by apply lookup_zip_Some.
Qed.

Lemma zip_keys_nodup (ks : list string) (vs : list V) :
  NoDup ks -> NoDup ((zip ks vs).*1).
Proof.
  revert vs. induction ks as [|k ks IH]; intros [|v vs] Hnodup;
    try apply NoDup_nil_2.
  apply NoDup_cons in Hnodup as [Hk Hnodup]. csimpl. apply NoDup_cons.
  split; [|by apply IH].
  intros ([k' v'] & -> & Hin%elem_of_zip_l)%list_elem_of_fmap. done.
Qed.

Lemma dict_of_zip_at (ks : list string) (vs : list V) i k v :
  NoDup ks -> ks !! i = Some k -> vs !! i = Some v ->
  dict_of_zip ks vs !! k = Some v.
Proof.
  intros Hnodup Hk Hv. unfold dict_of_zip.
  apply (comprehension_present fst snd (zip ks vs) ∅ (k, v)).
  - by apply zip_keys_nodup.
  - apply list_elem_of_lookup. exists i. by apply lookup_zip_Some.
Qed.

(** A key past the end of the values has no entry: [zip] stops at the
    shorter list. *)
Lemma dict_of_zip_past (ks : list string) (vs : list V) i k :
  NoDup ks -> ks !! i = Some k -> (length vs <= i)%nat ->
  dict_of_zip ks vs !! k = None.
Proof.
  intros Hnodup Hk Hi.
  destruct (dict_of_zip ks vs !! k) as [v|] eqn:Hlookup; [|done].
  apply dict_of_zip_lookup in Hlookup as (j & Hj & Hv).
  rewrite (NoDup_lookup _ _ _ _ Hnodup Hk Hj) in Hi.
  apply lookup_lt_Some in Hv. lia.
Qed.
End Zipped.

Lemma list_index_at (l : list string) i x :
  NoDup l -> l !! i = Some x -> list_index x l = Ok i.
Proof.
  intros Hnodup Hi. apply list_index_first. split; [done|].
  intros m Hm Hx. pose proof (NoDup_lookup _ _ _ _ Hnodup Hi Hx). lia.
Qed.

Lemma list_index_elem (l : list string) x : x ∈ l -> ∃ n, list_index x l = Ok n.
Proof.
  induction l as [|y l IH]; [by intros ?%elem_of_nil|].
  intros Hx. simpl. case_decide as Hy; [eauto|].
  apply elem_of_cons in Hx as [->|Hx]; [done|].
  destruct (IH Hx) as [n ->]. simpl. eauto.
Qed.

(** ** The object that [__init__] leaves *)

Section Constructed.
Context {Graph : Type}.
Implicit Types (self : DecisionTreePrior.t Graph) (node : Node Graph).

(** What [__init__] builds, case by case. *)
Lemma init_cases (trainset_classes : list string)
    (get_nodes : list (Node Graph)) (get_wnids : list string) :
  match DecisionTreePrior.init trainset_classes get_nodes get_wnids with
  | Raise e => e = IndexError ∧ get_nodes = []
  | Ok self =>
      get_nodes ≠ []
      ∧ DecisionTreePrior.correct self = 0 ∧ DecisionTreePrior.total self = 0
      ∧ DecisionTreePrior.epoch self = None
      ∧ (∀ k node, DecisionTreePrior.wnid_to_node self !! k = Some node ->
           node ∈ get_nodes ∧ wnid node = k)
      ∧ (NoDup (wnid <$> get_nodes) ->
         ∀ node, node ∈ get_nodes ->
           DecisionTreePrior.wnid_to_node self !! wnid node = Some node)
  end.
Proof.
  unfold DecisionTreePrior.init, py_get.
  destruct get_nodes as [|node0 rest]; [done|].
  cbn [lookup list_lookup mbind res_bind]. simpl.
  split; [done|]. do 3 (split; [done|]). split.
  - intros k node [Hm|(a & Ha & <- & <-)]%(comprehension_lookup wnid (fun n => n));
      [|by split; [right|]].
    destruct (decide (wnid node0 = k)) as [<-|Hne].
    + rewrite lookup_insert_eq in Hm. injection Hm as <-. split; [by left|done].
    + by rewrite lookup_insert_ne in Hm.
  - intros Hnodup node Hnode.
    apply (comprehension_present wnid (fun n => n) (node0 :: rest) ∅ node Hnodup Hnode).
Qed.

(** X1. [__init__] raises only for an empty list of nodes, and then
    [IndexError].  Otherwise the counters start at zero, no epoch is set,
    every entry of [wnid_to_node] is a node of the list under its own
    [wnid], and when the [wnid]s differ every node is found under its
    [wnid]. *)
Theorem init_object (trainset_classes : list string)
    (get_nodes : list (Node Graph)) (get_wnids : list string) :
  match DecisionTreePrior.init trainset_classes get_nodes get_wnids with
  | Raise e => e = IndexError ∧ get_nodes = []
  | Ok self =>
      get_nodes ≠ []
      ∧ DecisionTreePrior.correct self = 0 ∧ DecisionTreePrior.total self = 0
      ∧ DecisionTreePrior.epoch self = None
      ∧ (∀ k node, DecisionTreePrior.wnid_to_node self !! k = Some node ->
           node ∈ get_nodes ∧ wnid node = k)
      ∧ (NoDup (wnid <$> get_nodes) ->
         ∀ node, node ∈ get_nodes ->
           DecisionTreePrior.wnid_to_node self !! wnid node = Some node)
  end.
Proof. apply init_cases. Qed.

Lemma init_fields (trainset_classes : list string)
    (get_nodes : list (Node Graph)) (get_wnids : list string) self :
  DecisionTreePrior.init trainset_classes get_nodes get_wnids = Ok self ->
  DecisionTreePrior.nodes self = get_nodes
  ∧ DecisionTreePrior.classes self = trainset_classes
  ∧ DecisionTreePrior.wnids self = get_wnids
  ∧ DecisionTreePrior.wnid_to_class self = dict_of_zip get_wnids trainset_classes.
Proof.
  unfold DecisionTreePrior.init.
  destruct (py_get get_nodes 0) as [node0|e]; simpl; [|done].
  by intros [= <-].
Qed.

(** [__init__] leaves the class dict that pairs the [wnid]s with the
    classes; no method assigns [wnids], [classes] or [wnid_to_class]
    again. *)
Lemma init_class_dict (trainset_classes : list string)
    (get_nodes : list (Node Graph)) (get_wnids : list string) self :
  DecisionTreePrior.init trainset_classes get_nodes get_wnids = Ok self ->
  DecisionTreePrior.wnid_to_class self
  = dict_of_zip (DecisionTreePrior.wnids self) (DecisionTreePrior.classes self).
Proof. by intros (_ & -> & -> & ->)%init_fields. Qed.

(** X2. Leaves and classes correspond by position.  On an object whose
    class dict pairs the [wnid] list with the class list, as [__init__]
    leaves it, and whose [wnid]s differ and class names differ, the
    output mapping sends the leaf at a position of the [wnid] list to
    that position if the class list reaches it, and to the sentinel [-1]
    if the class list is shorter; up to the position [2^24] the
    conversion of the answer leaves this value as it is.  Neither the
    epoch nor the counters matter. *)
Theorem init_leaf_round_trip self (i : nat) (leaf : string) :
  DecisionTreePrior.wnid_to_class self
  = dict_of_zip (DecisionTreePrior.wnids self) (DecisionTreePrior.classes self) ->
  NoDup (DecisionTreePrior.wnids self) ->
  NoDup (DecisionTreePrior.classes self) ->
  DecisionTreePrior.wnids self !! i = Some leaf ->
  let pred := if decide (i < length (DecisionTreePrior.classes self))%nat
              then Z.of_nat i else -1 in
  DecisionTreePrior.class_of_leaf self (Some leaf) = Ok pred
  ∧ (Z.of_nat i <= 16777216 -> long_tensor [pred] = [pred]).
Proof.
  intros Hdict Hwnids Hnames Hleaf pred. split.
  - unfold DecisionTreePrior.class_of_leaf, pred. simpl. rewrite Hdict.
    case_decide as Hi.
    + destruct (lookup_lt_is_Some_2 (DecisionTreePrior.classes self) i Hi)
        as [cls Hcls].
      rewrite (dict_of_zip_at _ _ _ _ _ Hwnids Hleaf Hcls).
      by rewrite (list_index_at _ _ _ Hnames Hcls).
    + rewrite (dict_of_zip_past _ _ i) by (done || lia). done.
  - intros Hi. apply long_tensor_exact. repeat constructor; unfold pred;
      case_decide; lia.
Qed.

(** On such an object the class of a leaf is in the class list, so the
    output mapping returns. *)
Lemma known_class_of_leaf self leaf :
  DecisionTreePrior.wnid_to_class self
  = dict_of_zip (DecisionTreePrior.wnids self) (DecisionTreePrior.classes self) ->
  ∃ pred, DecisionTreePrior.class_of_leaf self leaf = Ok pred.
Proof.
  intros Hdict. unfold DecisionTreePrior.class_of_leaf.
  destruct (leaf ≫= _) as [cls|] eqn:Hcls; [|eauto].
  destruct leaf as [leaf|]; [|done]. simpl in Hcls.
  rewrite Hdict in Hcls. apply dict_of_zip_lookup in Hcls as (i & _ & Hi).
  destruct (list_index_elem (DecisionTreePrior.classes self) cls) as [n ->].
  - by eapply list_elem_of_lookup_2.
  - simpl. eauto.
Qed.
End Constructed.

Lemma init_leaf_round_trip_witness :
  DecisionTreePrior.class_of_leaf
    (DecisionTreePrior.set_counters
       (DecisionTreePrior.set_epoch Example.two_level (Some 3)) 5 8)
    (Some "n02")
  = Ok 2.
Proof.
  refine (proj1 (init_leaf_round_trip
                   (DecisionTreePrior.set_counters
                      (DecisionTreePrior.set_epoch Example.two_level (Some 3)) 5 8)
                   2 "n02" _ _ _ _)).
  - reflexivity.
  - apply (bool_decide_unpack _). vm_compute. reflexivity.
  - apply (bool_decide_unpack _). vm_compute. reflexivity.
  - reflexivity.
Defined.

(** ** What hard routing answers and how it fails *)

Section HardAnswers.
Context {Graph : Type} `{GraphOps Graph}.
Implicit Types (self : DecisionTreePrior.t Graph) (node root : Node Graph).
Implicit Types (decisions : gmap string (list Z * list bool)).

Lemma class_of_leaf_range self leaf pred :
  DecisionTreePrior.class_of_leaf self leaf = Ok pred ->
  pred = -1 ∨ 0 <= pred < Z.of_nat (length (DecisionTreePrior.classes self)).
Proof.
  unfold DecisionTreePrior.class_of_leaf.
  destruct (leaf ≫= _) as [cls|]; [|intros [= <-]; by left].
  destruct (list_index cls _) as [n|e] eqn:Hn; simpl; [|done].
  intros [= <-]. right. apply list_index_first in Hn as [Hn%lookup_lt_Some _]. lia.
Qed.

Lemma class_of_leaf_raises self leaf e :
  DecisionTreePrior.class_of_leaf self leaf = Raise e -> e = ValueError.
Proof.
  unfold DecisionTreePrior.class_of_leaf.
  destruct (leaf ≫= _) as [cls|]; [|done].
  assert (∀ l, list_index cls l = Raise e -> e = ValueError) as Hindex.
  { induction l as [|y l IH]; simpl; [congruence|].
    case_decide; [done|]. destruct (list_index cls l); simpl; [done|].
    intros [= <-]. by apply IH. }
  destruct (list_index cls _) as [n|e'] eqn:Hn; simpl; [done|].
  intros [= <-]. by eapply Hindex.
Qed.

Lemma walk_raises self decisions index fuel node e :
  DecisionTreePrior.walk self decisions index fuel node = Some (Raise e) ->
  e = IndexError.
Proof.
  revert node. induction fuel as [|fuel IH]; intros node; [done|]. simpl.
  pose proof (loop_body_cases self decisions index node) as Hbody.
  destruct (DecisionTreePrior.loop_body _ _ _ _) as [[wnid' [node'|]]|e'].
  - apply IH.
  - done.
  - intros [= <-]. by destruct Hbody.
Qed.

Lemma traverse_samples_raises self decisions root fuel indexes e :
  DecisionTreePrior.traverse_samples self decisions root fuel indexes
    = Some (Raise e) ->
  ∃ index, DecisionTreePrior.traverse_sample self decisions root fuel index
           = Some (Raise e).
Proof.
  induction indexes as [|index indexes IH]; simpl; [done|].
  destruct (DecisionTreePrior.traverse_sample _ _ _ _ index)
    as [[pred|e']|] eqn:Hfirst; [|intros [= <-]; eauto|done].
  destruct (DecisionTreePrior.traverse_samples _ _ _ _ indexes) as [[rest|e']|];
    [done| |done].
  intros [= <-]. by apply IH.
Qed.

(** What [traverse_tree] converts is the list of the loop. *)
Lemma hard_traverse_tree_raw (fuel : nat) self (predicted : list Z)
    decisions (n_samples : nat) (preds : list Z) :
  DecisionTreePrior.traverse_tree fuel self predicted decisions n_samples
    = Some (Ok preds) ->
  ∃ root raw,
    DecisionTreePrior.wnid_to_node self !! get_root (DecisionTreePrior.graph self)
      = Some root
    ∧ DecisionTreePrior.traverse_samples self decisions root fuel (seq 0 n_samples)
      = Some (Ok raw)
    ∧ preds = long_tensor raw.
Proof.
  intros Htree.
  destruct (DecisionTreePrior.wnid_to_node self
              !! get_root (DecisionTreePrior.graph self)) as [root|] eqn:Hroot.
  - apply (hard_traverse_tree_converted _ _ _ _ _ _ _ Hroot) in Htree.
    destruct Htree as (raw & Hraw & Hpreds). by exists root, raw.
  - unfold DecisionTreePrior.traverse_tree in Htree. by rewrite Hroot in Htree.
Qed.

Lemma traverse_samples_range self decisions root fuel indexes (raw : list Z) :
  DecisionTreePrior.traverse_samples self decisions root fuel indexes
    = Some (Ok raw) ->
  length raw = length indexes
  ∧ Forall (fun p => p = -1
                     ∨ 0 <= p < Z.of_nat (length (DecisionTreePrior.classes self)))
           raw.
Proof.
  intros Hall%traverse_samples_each.
  split; [by rewrite <- (Forall2_length _ _ _ Hall)|].
  apply Forall_forall. intros p (i & Hp)%list_elem_of_lookup.
  destruct (Forall2_lookup_r _ _ _ _ _ Hall Hp) as (index & _ & Hsample).
  unfold DecisionTreePrior.traverse_sample in Hsample.
  destruct (DecisionTreePrior.walk _ _ _ _ _) as [[leaf|e]|]; [|done..].
  injection Hsample as Hleaf. by eapply class_of_leaf_range.
Qed.

Lemma hard_traverse_tree_length (fuel : nat) self (predicted : list Z)
    decisions (n_samples : nat) (preds : list Z) :
  DecisionTreePrior.traverse_tree fuel self predicted decisions n_samples
    = Some (Ok preds) ->
  length preds = n_samples.
Proof.
  intros Htree.
  apply hard_traverse_tree_raw in Htree as (node_root & raw & _ & Hraw & Hpreds).
  apply traverse_samples_range in Hraw as [Hlen _].
  by rewrite Hpreds, long_tensor_length, Hlen, length_seq.
Qed.

(** X3. For a list of at most [2^24 + 1] classes, whatever hard routing
    answers for a sample is the sentinel [-1] or the position of an
    original class. *)
Theorem hard_predictions_in_range (fuel : nat) self (predicted : list Z)
    decisions (n_samples : nat) (preds : list Z) :
  Z.of_nat (length (DecisionTreePrior.classes self)) <= 16777217 ->
  DecisionTreePrior.traverse_tree fuel self predicted decisions n_samples
    = Some (Ok preds) ->
  length preds = n_samples
  ∧ Forall (fun p => p = -1
                     ∨ 0 <= p < Z.of_nat (length (DecisionTreePrior.classes self)))
           preds.
Proof.
  intros Hclasses Htree.
  apply hard_traverse_tree_raw in Htree as (node_root & raw & _ & Hraw & Hpreds).
  apply traverse_samples_range in Hraw as [Hlen Hraw].
  rewrite Hpreds, long_tensor_exact; [by rewrite length_seq in Hlen|].
  eapply Forall_impl; [done|]. simpl. lia.
Qed.

(** X4. On an object whose class dict pairs the [wnid] list with the
    class list, as [__init__] leaves it, hard routing raises in two ways
    only: [KeyError] when the root of the graph is no node, and
    [IndexError] out of the round of a loop; the output mapping never
    raises.  Neither the epoch nor the counters matter. *)
Theorem hard_routing_raises (fuel : nat) self (predicted : list Z) decisions
    (n_samples : nat) e :
  DecisionTreePrior.wnid_to_class self
  = dict_of_zip (DecisionTreePrior.wnids self) (DecisionTreePrior.classes self) ->
  DecisionTreePrior.traverse_tree fuel self predicted decisions n_samples
    = Some (Raise e) ->
  (e = KeyError
   ∧ DecisionTreePrior.wnid_to_node self !! get_root (DecisionTreePrior.graph self)
     = None)
  ∨ e = IndexError.
Proof.
  intros Hdict. unfold DecisionTreePrior.traverse_tree.
  destruct (DecisionTreePrior.wnid_to_node self !! _) as [root|]; simpl;
    [|intros [= <-]; by left].
  destruct (DecisionTreePrior.traverse_samples _ _ _ _ _) as [[raw|e']|] eqn:Hraw;
    [done| |done].
  intros [= <-]. apply traverse_samples_raises in Hraw as (index & Hsample). right.
  unfold DecisionTreePrior.traverse_sample in Hsample.
  destruct (DecisionTreePrior.walk _ _ _ _ _) as [[leaf|e]|] eqn:Hwalk; [| |done].
  - destruct (known_class_of_leaf _ leaf Hdict) as [pred Hpred]. congruence.
  - injection Hsample as ->. by eapply walk_raises.
Qed.

Lemma traverse_samples_constant self decisions root fuel indexes pred :
  (∀ index, DecisionTreePrior.traverse_sample self decisions root fuel index
            = Some (Ok pred)) ->
  DecisionTreePrior.traverse_samples self decisions root fuel indexes
  = Some (Ok (replicate (length indexes) pred)).
Proof.
  intros Hsample. induction indexes as [|index indexes IH]; simpl; [done|].
  by rewrite Hsample, IH.
Qed.

(** X5. When the batch has no decision data for the root, every sample
    of the batch is unresolved: with fuel for one round, the answer is
    [-1] for each of the [n_samples] samples. *)
Theorem root_without_data self (predicted : list Z) decisions root
    (n_samples fuel : nat) :
  DecisionTreePrior.wnid_to_node self !! get_root (DecisionTreePrior.graph self)
    = Some root ->
  decisions !! wnid root = None ->
  DecisionTreePrior.traverse_tree (S fuel) self predicted decisions n_samples
  = Some (Ok (replicate n_samples (-1))).
Proof.
  intros Hroot Hdata. unfold DecisionTreePrior.traverse_tree.
  rewrite Hroot. simpl.
  rewrite (traverse_samples_constant _ _ _ _ _ (-1));
    [by rewrite length_seq, long_tensor_replicate|].
  intros index. unfold DecisionTreePrior.traverse_sample. simpl.
  unfold DecisionTreePrior.loop_body. by rewrite Hdata.
Qed.

Lemma traverse_samples_total self decisions root fuel indexes :
  (∀ index, index ∈ indexes ->
     ∃ pred, DecisionTreePrior.traverse_sample self decisions root fuel index
             = Some (Ok pred)) ->
  ∃ preds, DecisionTreePrior.traverse_samples self decisions root fuel indexes
           = Some (Ok preds).
Proof.
  induction indexes as [|index indexes IH]; intros Hall; simpl; [eauto|].
  destruct (Hall index) as [pred ->]; [by left|].
  destruct IH as [preds ->]; [|eauto].
  intros index' Hindex'. apply Hall. by right.
Qed.

Lemma well_shaped_routing self (predicted : list Z) decisions root
    (bound n_samples fuel : nat) :
  DecisionTreePrior.wnid_to_class self
  = dict_of_zip (DecisionTreePrior.wnids self) (DecisionTreePrior.classes self) ->
  DecisionTreePrior.wnid_to_node self !! get_root (DecisionTreePrior.graph self)
    = Some root ->
  Spec.acyclic_below self root bound ->
  (∀ k node data,
     Spec.chain self root k node -> decisions !! wnid node = Some data ->
     Spec.well_shaped node n_samples data) ->
  (bound <= fuel)%nat ->
  ∃ preds,
    DecisionTreePrior.traverse_tree fuel self predicted decisions n_samples
    = Some (Ok preds)
    ∧ length preds = n_samples.
Proof.
  intros Hdict Hroot Hacyclic Hshape Hfuel.
  destruct (traverse_samples_total self decisions root fuel (seq 0 n_samples))
    as [raw Hraw].
  { intros index [_ Hindex]%elem_of_seq.
    destruct (walk_within_bound self decisions root bound index Hacyclic
                fuel 0%nat root) as (r & Hwalk & Hexit);
      [apply Spec.chain_root|lia|].
    unfold DecisionTreePrior.traverse_sample. rewrite Hwalk.
    destruct Hexit as [->|[(leaf & -> & _)|(-> & k & node & data & Hchain & Hdata & Hbad)]].
    - destruct (known_class_of_leaf _ None Hdict) as [pred ->]. eauto.
    - destruct (known_class_of_leaf _ (Some leaf) Hdict) as [pred ->]. eauto.
    - destruct (Hbad n_samples); [lia|]. by eapply Hshape. }
  assert (DecisionTreePrior.traverse_tree fuel self predicted decisions n_samples
          = Some (Ok (long_tensor raw))) as Htree.
  { apply (hard_traverse_tree_converted _ _ _ _ _ _ _ Hroot). by exists raw. }
  exists (long_tensor raw). split; [done|]. by eapply hard_traverse_tree_length.
Qed.

(** X6. On an object whose class dict pairs the [wnid] list with the
    class list, as [__init__] leaves it, over an acyclic hierarchy and
    with decision data that is well shaped at every node below the root,
    hard routing returns a prediction for every sample: no exception,
    and [bound] rounds suffice for every loop.  Neither the epoch nor
    the counters matter. *)
Theorem well_shaped_routing_returns self (predicted : list Z) decisions root
    (bound n_samples fuel : nat) :
  DecisionTreePrior.wnid_to_class self
  = dict_of_zip (DecisionTreePrior.wnids self) (DecisionTreePrior.classes self) ->
  DecisionTreePrior.wnid_to_node self !! get_root (DecisionTreePrior.graph self)
    = Some root ->
  Spec.acyclic_below self root bound ->
  (∀ k node data,
     Spec.chain self root k node -> decisions !! wnid node = Some data ->
     Spec.well_shaped node n_samples data) ->
  (bound <= fuel)%nat ->
  ∃ preds,
    DecisionTreePrior.traverse_tree fuel self predicted decisions n_samples
    = Some (Ok preds)
    ∧ length preds = n_samples.
Proof. apply well_shaped_routing. Qed.
End HardAnswers.

Lemma hard_predictions_in_range_witness :
  length [2; 0] = 2%nat
  ∧ Forall (fun p => p = -1 ∨ 0 <= p < 4) [2; 0].
Proof.
  refine (hard_predictions_in_range 3 Example.two_level [] Example.decisions 2
            [2; 0] _ _).
  - by vm_compute.
  - vm_compute. reflexivity.
Defined.

Lemma root_without_data_witness :
  DecisionTreePrior.traverse_tree 1 Example.two_level [] ∅ 3
  = Some (Ok [-1; -1; -1]).
Proof.
  refine (root_without_data Example.two_level [] ∅ Example.top 3 0 _ _).
  - vm_compute. reflexivity.
  - reflexivity.
Defined.

Lemma hard_routing_raises_witness :
  (IndexError = KeyError
   ∧ DecisionTreePrior.wnid_to_node
       (DecisionTreePrior.set_counters
          (DecisionTreePrior.set_epoch Example.flat (Some 3)) 5 8)
       !! get_root (DecisionTreePrior.graph Example.flat) = None)
  ∨ IndexError = IndexError.
Proof.
  refine (hard_routing_raises 1
            (DecisionTreePrior.set_counters
               (DecisionTreePrior.set_epoch Example.flat (Some 3)) 5 8)
            [] Example.short_data 1 IndexError _ _).
  - reflexivity.
  - vm_compute. reflexivity.
Defined.

Lemma well_shaped_routing_returns_witness :
  ∃ preds,
    DecisionTreePrior.traverse_tree 2 Example.two_level [] Example.decisions 2
    = Some (Ok preds)
    ∧ length preds = 2%nat.
Proof.
  refine (well_shaped_routing_returns
            Example.two_level [] Example.decisions Example.top 2 2 2
            _ _ two_level_acyclic two_level_well_shaped _).
  - reflexivity.
  - vm_compute. reflexivity.
  - lia.
Defined.

(** ** The decision data of a batch is well shaped *)

Section CollectedData.
Context {F : Type} `{Scalar F} {Graph : Type} `{GraphOps Graph}.
Implicit Types (self : DecisionTreePrior.t Graph) (node : Node Graph).
Implicit Types (outputs : tensor F) (targets : list Z).
Implicit Types (decisions : gmap string (list Z * list bool)).

Lemma inference_columns node outputs targets selector outputs_sub targets_sub :
  TreeSup.inference node outputs targets = Ok (selector, outputs_sub, targets_sub) ->
  shape1 outputs_sub = num_classes node.
Proof.
  unfold TreeSup.inference.
  destruct (select_rows _ _) as [_outputs|e]; simpl; [|done].
  case_decide.
  - by intros [= _ <- _].
  - destruct (node_logits _ _) as [t|e] eqn:Ht; simpl; [|done].
    intros [= _ <- _]. by apply node_logits_shape in Ht as (_ & -> & _).
Qed.

Lemma argmax_dim1_range (t : tensor F) (preds : list nat) :
  argmax_dim1 t = Ok preds -> Forall (fun p => (p < shape1 t)%nat) preds.
Proof.
  unfold argmax_dim1. case_decide; [done|]. intros [= <-].
  apply Forall_forall. intros p (s & -> & _)%list_elem_of_fmap.
  apply argmax_lt. lia.
Qed.

(** Every entry that the first loop of [update_batch] stores is the data
    of a node of the hierarchy, with a selector entry per target, a local
    prediction per applicable sample, and local predictions that are
    node-local classes. *)
Lemma collect_entries self outputs targets decisions key preds_sub selector :
  DecisionTreePrior.collect self outputs targets = Ok decisions ->
  decisions !! key = Some (preds_sub, selector) ->
  ∃ node, node ∈ DecisionTreePrior.nodes self ∧ wnid node = key
          ∧ length selector = length targets
          ∧ length preds_sub = length (filter (fun b => b = true) selector)
          ∧ Forall (fun c => 0 <= c < Z.of_nat (num_classes node)) preds_sub.
Proof.
  unfold DecisionTreePrior.collect. intros Hcollect. revert key preds_sub selector.
  revert Hcollect.
  apply (for_fold_invariant
           (fun w : gmap string (list Z * list bool) =>
              ∀ key preds_sub selector,
                w !! key = Some (preds_sub, selector) ->
                ∃ node, node ∈ DecisionTreePrior.nodes self ∧ wnid node = key
                  ∧ length selector = length targets
                  ∧ length preds_sub = length (filter (fun b => b = true) selector)
                  ∧ Forall (fun c => 0 <= c < Z.of_nat (num_classes node)) preds_sub));
    [|by intros key preds_sub selector].
  intros w node w' Hnode Hw.
  destruct (TreeSup.inference node outputs targets)
    as [[[selector outputs_sub] targets_sub]|e] eqn:Hinf; simpl; [|done].
  pose proof (inference_columns _ _ _ _ _ _ Hinf) as Hcols.
  apply inference_shape in Hinf as [Hselector Hrows].
  destruct (py_any selector); simpl; [|by intros [= <-]].
  destruct (argmax_dim1 outputs_sub) as [preds|e] eqn:Hpreds; simpl; [|done].
  pose proof (argmax_dim1_range _ _ Hpreds) as Hrange.
  apply argmax_dim1_length in Hpreds as [Hpreds _].
  intros [= <-] key preds_sub selector'.
  destruct (decide (wnid node = key)) as [<-|Hkey].
  - rewrite lookup_insert_eq. intros [= <- <-]. exists node.
    rewrite length_map, Hpreds, Hrows, Hselector, length_map.
    repeat split; try done.
    apply Forall_fmap. eapply Forall_impl; [done|]. simpl. intros p Hp. lia.
  - rewrite lookup_insert_ne by done. apply Hw.
Qed.

(** Within its bounds the accuracy line raises on an empty total
    only. *)
Lemma accuracy_line_within (correct total : Z) :
  0 <= correct <= total -> total < float_limit ->
  accuracy_line correct total
  = if decide (total = 0) then Raise ZeroDivisionError else Ok tt.
Proof.
  intros Hcorrect Htotal. unfold accuracy_line.
  rewrite !decide_False by lia. done.
Qed.

(** X7. Hard routing does not fail on the decision data that it
    collects itself.  On an object whose class dict pairs the [wnid]
    list with the class list and whose node dict holds nodes of the
    hierarchy under their own [wnid]s, as [__init__] leaves them, with
    nodes of different [wnid]s that each have a child for every
    node-local class, over an acyclic hierarchy, for a batch with a
    target per sample and counters within each other and below the
    range of a float: when the first loop of [update_batch] returns,
    the call adds the batch size to [total] and at most the batch size
    to [correct], and returns unless [total] is still zero, in which
    case the accuracy raises [ZeroDivisionError]. *)
Theorem hard_update_batch_returns self outputs (predicted targets : list Z)
    decisions root (bound fuel : nat) :
  DecisionTreePrior.wnid_to_class self
  = dict_of_zip (DecisionTreePrior.wnids self) (DecisionTreePrior.classes self) ->
  (∀ k node, DecisionTreePrior.wnid_to_node self !! k = Some node ->
     node ∈ DecisionTreePrior.nodes self ∧ wnid node = k) ->
  NoDup (wnid <$> DecisionTreePrior.nodes self) ->
  (∀ node, node ∈ DecisionTreePrior.nodes self ->
     (num_classes node <= length (children node))%nat) ->
  DecisionTreePrior.wnid_to_node self !! get_root (DecisionTreePrior.graph self)
    = Some root ->
  Spec.acyclic_below self root bound ->
  length targets = shape0 outputs ->
  0 <= DecisionTreePrior.correct self <= DecisionTreePrior.total self ->
  DecisionTreePrior.total self + Z.of_nat (shape0 outputs) < float_limit ->
  DecisionTreePrior.collect self outputs targets = Ok decisions ->
  (bound <= fuel)%nat ->
  ∃ hits,
    0 <= hits <= Z.of_nat (shape0 outputs)
    ∧ DecisionTreePrior.update_batch fuel self outputs predicted targets
      = Some (if decide (DecisionTreePrior.total self + Z.of_nat (shape0 outputs) = 0)
              then Raise ZeroDivisionError
              else Ok (DecisionTreePrior.set_counters self
                         (DecisionTreePrior.correct self + hits)
                         (DecisionTreePrior.total self
                          + Z.of_nat (shape0 outputs)))).
Proof.
  intros Hdict Hfiled Hnodup Hchildren Hroot Hacyclic Hbatch Hcounters Hfloat
    Hcollect Hfuel.
  destruct (well_shaped_routing self predicted decisions root bound
              (shape0 outputs) fuel) as (preds & Hpreds & Hlen); try done.
  { intros k node [preds_sub selector] Hchain Hdata.
    assert (node ∈ DecisionTreePrior.nodes self) as Hnode.
    { destruct Hchain as [|k node child node' _ _ Hchild].
      - by apply Hfiled in Hroot as [? _].
      - by apply Hfiled in Hchild as [? _]. }
    destruct (collect_entries _ _ _ _ _ _ _ Hcollect Hdata)
      as (node' & Hnode' & Hwnid & Hlen & Hcount & Hrange).
    rewrite (same_wnid_same_node _ _ _ Hnodup Hnode' Hnode Hwnid) in Hrange.
    repeat split; simpl; [congruence|done|].
    eapply Forall_impl; [done|]. simpl. intros c Hc.
    specialize (Hchildren node Hnode). lia. }
  unfold DecisionTreePrior.update_batch. rewrite Hcollect, Hpreds.
  rewrite count_equal_same_length by congruence.
  set (hits := Z.of_nat (length (filter _ (zip preds targets)))).
  assert (0 <= hits <= Z.of_nat (shape0 outputs)) as Hhits.
  { pose proof (length_filter (fun pt : Z * Z => pt.1 = pt.2) (zip preds targets)).
    unfold hits. rewrite length_zip in *. lia. }
  exists hits. split; [done|]. cbn [mbind res_bind]. cbv zeta.
  rewrite accuracy_line_within by lia. by case_decide.
Qed.
End CollectedData.

Lemma hard_update_batch_returns_witness :
  ∃ hits,
    0 <= hits <= 2
    ∧ DecisionTreePrior.update_batch 2 Example.two_level Example.batch []
        Example.targets
      = Some (Ok (DecisionTreePrior.set_counters Example.two_level hits 2)).
Proof.
  refine (hard_update_batch_returns
            Example.two_level Example.batch [] Example.targets
            Example.decisions Example.top 2 2
            _ _ _ _ _ two_level_acyclic _ _ _ _ _).
  - reflexivity.
  - intros k node Hnode.
    pose proof (init_cases ["c0"; "c1"; "c2"; "c3"]
                  [Example.top; Example.left; Example.right]
                  ["n00"; "n01"; "n02"; "n03"]) as (_ & _ & _ & _ & Hfiled & _).
    by apply Hfiled.
  - apply (bool_decide_unpack _). vm_compute. reflexivity.
  - intros node Hnode.
    repeat (apply elem_of_cons in Hnode as [->|Hnode]); simpl; try lia.
    by apply elem_of_nil in Hnode.
  - vm_compute. reflexivity.
  - reflexivity.
  - by vm_compute.
  - by vm_compute.
  - vm_compute. reflexivity.
  - lia.
Defined.

(** On an empty first batch the call raises: the accuracy divides by a
    total of zero. *)
Lemma hard_update_batch_empty_batch :
  DecisionTreePrior.update_batch 2 Example.two_level (Example.rows 4 []) [] []
  = Some (Raise ZeroDivisionError).
Proof. by vm_compute. Qed.

(** ** The counters stay within each other *)

Section CountersInvariant.
Context {F : Type} `{Scalar F} {Graph : Type} `{GraphOps Graph}.
Implicit Types (self : DecisionTreePrior.t Graph) (outputs : tensor F).

Lemma soft_traverse_tree_length self (predicted : list Z)
    (scores : gmap string (tensor F)) (n_samples : nat) (preds : list Z) :
  DecisionTreeBayesianPrior.traverse_tree self predicted scores n_samples
    = Ok preds ->
  length preds = n_samples.
Proof.
  unfold DecisionTreeBayesianPrior.traverse_tree.
  destruct (DecisionTreeBayesianPrior.class_probs_of _ _ _) as [cp|e] eqn:Hcp;
    simpl; [|done].
  apply class_probs_shape in Hcp as [Hrows _].
  destruct (argmax_dim1 cp) as [ps|e] eqn:Hps; simpl; [|done].
  intros [= <-]. apply argmax_dim1_length in Hps as [Hlen _].
  by rewrite long_tensor_length, length_map, Hlen.
Qed.

Lemma hits_at_most (preds targets : list Z) hits :
  length preds = length targets ->
  DecisionTreePrior.count_equal preds targets = Ok hits ->
  0 <= hits <= Z.of_nat (length preds).
Proof.
  intros Hlen. rewrite count_equal_same_length by done. intros [= <-].
  pose proof (length_filter (fun pt : Z * Z => pt.1 = pt.2) (zip preds targets)).
  rewrite length_zip in *. lia.
Qed.

(** X8. With a target per sample, a call of [update_batch] of hard
    routing that returns keeps [correct] between zero and [total]: it adds
    the batch size to [total] and between zero and the batch size to
    [correct]. *)
Theorem hard_counters_within_total (fuel : nat) self outputs
    (predicted targets : list Z) self' :
  DecisionTreePrior.update_batch fuel self outputs predicted targets
    = Some (Ok self') ->
  length targets = shape0 outputs ->
  0 <= DecisionTreePrior.correct self <= DecisionTreePrior.total self ->
  DecisionTreePrior.total self'
    = DecisionTreePrior.total self + Z.of_nat (shape0 outputs)
  ∧ DecisionTreePrior.correct self <= DecisionTreePrior.correct self'
  ∧ 0 <= DecisionTreePrior.correct self' <= DecisionTreePrior.total self'.
Proof.
  intros (decisions & preds & hits & _ & Hpreds & Hhits & -> & -> & _)
           %hard_update_batch_counts Hbatch Hbefore.
  apply hard_traverse_tree_length in Hpreds.
  apply hits_at_most in Hhits; [|congruence]. lia.
Qed.

(** X9. The same for soft routing. *)
Theorem soft_counters_within_total self outputs (predicted targets : list Z) self' :
  DecisionTreeBayesianPrior.update_batch self outputs predicted targets = Ok self' ->
  length targets = shape0 outputs ->
  0 <= DecisionTreePrior.correct self <= DecisionTreePrior.total self ->
  DecisionTreePrior.total self'
    = DecisionTreePrior.total self + Z.of_nat (shape0 outputs)
  ∧ DecisionTreePrior.correct self <= DecisionTreePrior.correct self'
  ∧ 0 <= DecisionTreePrior.correct self' <= DecisionTreePrior.total self'.
Proof.
  intros (scores & preds & hits & _ & Hpreds & Hhits & -> & -> & _)
           %soft_update_batch_counts Hbatch Hbefore.
  apply soft_traverse_tree_length in Hpreds.
  apply hits_at_most in Hhits; [|congruence]. lia.
Qed.
End CountersInvariant.

Lemma hard_counters_within_total_witness :
  DecisionTreePrior.total
    (DecisionTreePrior.set_counters Example.two_level 1 2)
  = DecisionTreePrior.total Example.two_level + Z.of_nat (shape0 Example.batch)
  ∧ DecisionTreePrior.correct Example.two_level
    <= DecisionTreePrior.correct
         (DecisionTreePrior.set_counters Example.two_level 1 2)
  ∧ 0 <= DecisionTreePrior.correct
           (DecisionTreePrior.set_counters Example.two_level 1 2)
       <= DecisionTreePrior.total
            (DecisionTreePrior.set_counters Example.two_level 1 2).
Proof.
  refine (hard_counters_within_total 2 Example.two_level Example.batch []
            Example.targets (DecisionTreePrior.set_counters Example.two_level 1 2)
            _ _ _).
  - vm_compute. reflexivity.
  - reflexivity.
  - vm_compute. split; discriminate.
Defined.

Lemma soft_counters_within_total_witness :
  DecisionTreePrior.total
    (DecisionTreePrior.set_counters Example.two_level 1 2)
  = DecisionTreePrior.total Example.two_level + Z.of_nat (shape0 Example.batch)
  ∧ DecisionTreePrior.correct Example.two_level
    <= DecisionTreePrior.correct
         (DecisionTreePrior.set_counters Example.two_level 1 2)
  ∧ 0 <= DecisionTreePrior.correct
           (DecisionTreePrior.set_counters Example.two_level 1 2)
       <= DecisionTreePrior.total
            (DecisionTreePrior.set_counters Example.two_level 1 2).
Proof.
  refine (soft_counters_within_total Example.two_level Example.batch []
            Example.targets (DecisionTreePrior.set_counters Example.two_level 1 2)
            _ _ _).
  - vm_compute. reflexivity.
  - reflexivity.
  - vm_compute. split; discriminate.
Defined.

(** ** How soft routing fails *)

Section LoopReached.
Context {A S : Type}.

(** A loop that returns has run the body on every element. *)
Lemma for_fold_each (body : S -> A -> res S) (l : list A) (s0 s' : S) a :
  for_fold body s0 l = Ok s' -> a ∈ l -> ∃ s1 s2, body s1 a = Ok s2.
Proof.
  revert s0. induction l as [|b l IH]; intros s0; simpl.
  - by intros _ ?%elem_of_nil.
  - destruct (body s0 b) as [s1|e] eqn:Hbody; simpl; [|done].
    intros Hrest [->|Ha]%elem_of_cons; [eauto|by eapply IH].
Qed.
End LoopReached.

Section SoftFailures.
Context {F : Type} `{Scalar F} {Graph : Type}.
Implicit Types (self : DecisionTreePrior.t Graph) (node : Node Graph).
Implicit Types (scores : gmap string (tensor F)).

(** X10. [traverse_tree] of soft routing asks for the scores of every
    node: when some node of the hierarchy has no scores under its [wnid],
    the call raises, however many samples there are. *)
Theorem soft_routing_needs_every_node self (predicted : list Z) scores
    (n_samples : nat) node :
  node ∈ DecisionTreePrior.nodes self ->
  scores !! wnid node = None ->
  ∃ e, DecisionTreeBayesianPrior.traverse_tree self predicted scores n_samples
       = Raise e.
Proof.
  intros Hnode Hmissing. unfold DecisionTreeBayesianPrior.traverse_tree.
  destruct (DecisionTreeBayesianPrior.class_probs_of _ _ _) as [cp|e] eqn:Hcp;
    simpl; [|eauto].
  unfold DecisionTreeBayesianPrior.class_probs_of in Hcp.
  destruct (for_fold_each _ _ _ _ node Hcp Hnode) as (cp1 & cp2 & Hbody).
  by rewrite Hmissing in Hbody.
Qed.

(** X11. With an empty class list soft routing never returns. *)
Theorem soft_routing_needs_a_class self (predicted : list Z) scores
    (n_samples : nat) :
  DecisionTreePrior.classes self = [] ->
  ∃ e, DecisionTreeBayesianPrior.traverse_tree self predicted scores n_samples
       = Raise e.
Proof.
  intros Hclasses.
  destruct (DecisionTreeBayesianPrior.traverse_tree _ _ _ _) as [preds|e] eqn:Hpreds;
    [|eauto].
  apply traverse_tree_classes in Hpreds. rewrite Hclasses in Hpreds.
  simpl in Hpreds. lia.
Qed.
End SoftFailures.

Lemma soft_routing_needs_every_node_witness :
  ∃ e, DecisionTreeBayesianPrior.traverse_tree Example.two_level []
         (delete "right" Example.scores) 2 = Raise e.
Proof.
  refine (soft_routing_needs_every_node Example.two_level []
            (delete "right" Example.scores) 2 Example.right _ _).
  - vm_compute. do 2 right. left.
  - vm_compute. reflexivity.
Defined.

Lemma soft_routing_needs_a_class_witness :
  ∃ e, DecisionTreeBayesianPrior.traverse_tree
         (Example.object [] [Example.flat_node] []) [] Example.scores 2
       = Raise e.
Proof.
  refine (soft_routing_needs_a_class
            (Example.object [] [Example.flat_node] []) [] Example.scores 2 _).
  reflexivity.
Defined.

(** ** The order of the nodes, in exact arithmetic *)

Module NodeOrder.
Import Reals Lra.
Local Close Scope R_scope.

Section Permuted.
Context {Graph : Type}.
Implicit Types (self : DecisionTreePrior.t Graph) (node : Node Graph).
Implicit Types (outputs : tensor R).

Lemma product_permuted (l l' : list R) :
  l ≡ₚ l' -> ∀ a : R, foldl fmul a l = foldl fmul a l'.
Proof.
  induction 1 as [|x l l' _ IH|x y l|l l' l'' _ IH _ IH']; intros a; simpl.
  - done.
  - apply IH.
  - f_equal. ring.
  - by rewrite IH.
Qed.

(** X12. In exact arithmetic the predictions of soft routing do not
    depend on the order in which the hierarchy lists its nodes: two
    objects over the same classes whose node lists are permutations of
    each other, with different [wnid]s, answer the same predictions for a
    batch. *)
Theorem node_order_irrelevant self self' outputs (predicted predicted' : list Z)
    (scores scores' : gmap string (tensor R)) (preds preds' : list Z) :
  DecisionTreePrior.nodes self ≡ₚ DecisionTreePrior.nodes self' ->
  DecisionTreePrior.classes self = DecisionTreePrior.classes self' ->
  NoDup (wnid <$> DecisionTreePrior.nodes self) ->
  DecisionTreeBayesianPrior.collect self outputs = Ok scores ->
  DecisionTreeBayesianPrior.collect self' outputs = Ok scores' ->
  DecisionTreeBayesianPrior.traverse_tree self predicted scores (shape0 outputs)
    = Ok preds ->
  DecisionTreeBayesianPrior.traverse_tree self' predicted' scores' (shape0 outputs)
    = Ok preds' ->
  preds = preds'.
Proof.
  intros Hperm Hclasses Hnodup Hscores Hscores' Hpreds Hpreds'.
  assert (NoDup (wnid <$> DecisionTreePrior.nodes self')) as Hnodup'.
  { by rewrite <- Hperm. }
  apply (traverse_tree_formula _ _ _ _ _ Hnodup Hscores) in Hpreds.
  apply (traverse_tree_formula _ _ _ _ _ Hnodup' Hscores') in Hpreds'.
  rewrite Hpreds, Hpreds', Hclasses. f_equal. apply map_ext. intros s.
  unfold Spec.prediction. f_equal. rewrite <- !argmax_greatest.
  apply argmax_ext. intros c _.
  unfold Spec.class_prob. apply product_permuted. by rewrite Hperm.
Qed.
End Permuted.

Lemma two_level_nodes_fit (nodes : list (Node string)) (outputs : tensor R) :
  (∀ node, node ∈ nodes -> node ∈ [Example.top; Example.left; Example.right]) ->
  shape1 outputs = 4%nat ->
  Spec.fits nodes 4 outputs.
Proof.
  intros Hnodes Hcols. split; [lia|]. intros node Hnode%Hnodes. rewrite Hcols.
  repeat (apply elem_of_cons in Hnode as [->|Hnode]);
    [| | |by apply elem_of_nil in Hnode];
    (split; [simpl; lia|]); (split; [simpl; lia|]);
    split; intros [|[|j]] c Hj Hc; simpl in *; try lia;
    repeat (apply elem_of_cons in Hc as [->|Hc]); try lia;
    by apply elem_of_nil in Hc.
Qed.

Lemma node_order_irrelevant_witness :
  ∃ scores scores' preds preds',
    DecisionTreeBayesianPrior.collect Example.two_level Example.real_batch4
      = Ok scores
    ∧ DecisionTreeBayesianPrior.collect Example.reordered Example.real_batch4
      = Ok scores'
    ∧ DecisionTreeBayesianPrior.traverse_tree Example.two_level [] scores 2
      = Ok preds
    ∧ DecisionTreeBayesianPrior.traverse_tree Example.reordered [] scores' 2
      = Ok preds'
    ∧ preds = preds'.
Proof.
  assert (NoDup (wnid <$> DecisionTreePrior.nodes Example.two_level)) as Hnodup.
  { apply (bool_decide_unpack _). vm_compute. reflexivity. }
  assert (NoDup (wnid <$> DecisionTreePrior.nodes Example.reordered)) as Hnodup'.
  { apply (bool_decide_unpack _). vm_compute. reflexivity. }
  destruct (soft_routing_returns Example.two_level Example.real_batch4 [] Hnodup)
    as (scores & preds & Hscores & Hpreds).
  { apply two_level_nodes_fit; [|reflexivity]. intros node Hnode. exact Hnode. }
  destruct (soft_routing_returns Example.reordered Example.real_batch4 [] Hnodup')
    as (scores' & preds' & Hscores' & Hpreds').
  { apply two_level_nodes_fit; [|reflexivity]. intros node Hnode.
    change (node ∈ [Example.top; Example.right; Example.left]) in Hnode.
    repeat (apply elem_of_cons in Hnode as [->|Hnode]);
      [| | |by apply elem_of_nil in Hnode];
      repeat ((by left) || right). }
  exists scores, scores', preds, preds'. repeat (split; [done|]).
  refine (node_order_irrelevant Example.two_level Example.reordered
            Example.real_batch4 [] [] scores scores' preds preds'
            _ _ Hnodup Hscores Hscores' Hpreds Hpreds').
  - change ([Example.top; Example.left; Example.right]
            ≡ₚ [Example.top; Example.right; Example.left]).
    apply perm_skip, perm_swap.
  - reflexivity.
Defined.
End NodeOrder.

(** ** [IgnoredSamples] *)

Section Ignored.
Context {F : Type} `{MinusOne F}.

(** The filter of [ignored_in] counts the rows that begin with -1. *)
Lemma ignored_rows (outputs : tensor F) (n : nat) :
  Z.of_nat (length (filter (fun s => is_minus_one (entry outputs s 0%nat) = true)
                      (seq 0 n)))
  = Spec.minus_one_rows outputs n
  ∧ 0 <= Spec.minus_one_rows outputs n <= Z.of_nat n.
Proof.
  induction n as [|n [IH Hle]]; [done|].
  rewrite seq_S, filter_app, length_app, Nat2Z.inj_add, IH. cbn [Spec.minus_one_rows].
  simpl. destruct (is_minus_one (entry outputs n 0%nat)) eqn:Hrow.
  - rewrite filter_cons_True by done. simpl. lia.
  - rewrite filter_cons_False by congruence. simpl. lia.
Qed.

(** X13. [update_batch] of [IgnoredSamples] returns exactly when a test
    phase has started the count and the outputs have a first column; it
    then adds to the count the number of rows whose first entry equals
    [-1], which lies between zero and the number of rows, and leaves the
    epoch.  Without a first column it raises [IndexError], and otherwise
    before the first [start_test] [TypeError]. *)
Theorem ignored_update_batch (self : IgnoredSamples.t) (outputs : tensor F) :
  IgnoredBatches.update_batch self outputs
  = (if decide (shape1 outputs = 0%nat) then Throws (Core IndexError)
     else match IgnoredSamples.ignored self with
          | None => Throws TypeError
          | Some n =>
              Returns {| IgnoredSamples.epoch := IgnoredSamples.epoch self;
                         IgnoredSamples.ignored :=
                           Some (n + Spec.minus_one_rows outputs (shape0 outputs)) |}
          end)
  ∧ 0 <= Spec.minus_one_rows outputs (shape0 outputs) <= Z.of_nat (shape0 outputs).
Proof.
  destruct (ignored_rows outputs (shape0 outputs)) as [Hcount Hle].
  split; [|done].
  unfold IgnoredBatches.update_batch, IgnoredBatches.ignored_in.
  case_decide as Hcols; simpl; [done|]. by rewrite Hcount.
Qed.
End Ignored.

Lemma ignored_update_batch_witness :
  IgnoredBatches.update_batch Example.counting Example.marked_batch
  = Returns {| IgnoredSamples.epoch := Some 0;
               IgnoredSamples.ignored := Some 2 |}.
Proof.
  exact (proj1 (ignored_update_batch Example.counting Example.marked_batch)).
Defined.

(** ** [ConfusionMatrix] *)

Section Confusion.
Context {F : Type} `{Scalar F}.
Implicit Types (cm : tensor F) (self : ConfusionMatrix.t F).

(** X14. [start_train] of [ConfusionMatrix] never returns: it raises
    [AssertionError] for an epoch that [start_epoch] did not set and
    [NotImplementedError] otherwise. *)
Theorem confusion_start_train self (e : Z) :
  ConfusionMatrix.start_train self e
  = Throws (if decide (Some e = ConfusionMatrix.epoch self)
            then NotImplementedError else Core AssertionError).
Proof.
  unfold ConfusionMatrix.start_train, Noop.assert_epoch. by case_decide.
Qed.

Lemma increment_cases cm (label pred : Z) :
  match ConfusionMatrix.increment cm label pred with
  | Ok cm' =>
      shape0 cm' = shape0 cm ∧ shape1 cm' = shape1 cm
      ∧ ∀ i j, entry cm' i j
               = if falls_on (shape0 cm) (shape1 cm) i j (pred, label)
                 then fadd (entry cm i j) fone else entry cm i j
  | Raise e =>
      e = IndexError
      ∧ (ConfusionMatrix.axis_index (shape0 cm) label = Raise IndexError
         ∨ ConfusionMatrix.axis_index (shape1 cm) pred = Raise IndexError)
  end.
Proof.
  unfold ConfusionMatrix.increment, falls_on. simpl.
  assert (∀ n i e, ConfusionMatrix.axis_index n i = Raise e -> e = IndexError)
    as Hraise.
  { intros n i e. unfold ConfusionMatrix.axis_index.
    repeat case_decide; congruence. }
  destruct (ConfusionMatrix.axis_index (shape0 cm) label) as [row|e] eqn:Hrow;
    simpl; [|apply Hraise in Hrow as ->; auto].
  destruct (ConfusionMatrix.axis_index (shape1 cm) pred) as [col|e] eqn:Hcol;
    simpl; [|apply Hraise in Hcol as ->; auto].
  repeat split; try done. intros i j.
  case_decide as Hij.
  - destruct Hij as [-> ->]. by rewrite !Nat.eqb_refl.
  - destruct (Nat.eqb row i) eqn:Hi, (Nat.eqb col j) eqn:Hj; simpl; try done.
    apply Nat.eqb_eq in Hi, Hj. subst. by destruct Hij.
Qed.

Lemma update_cases cm (pairs : list (Z * Z)) :
  match for_fold (fun cm (pl : Z * Z) => ConfusionMatrix.increment cm pl.2 pl.1)
          cm pairs with
  | Ok cm' =>
      shape0 cm' = shape0 cm ∧ shape1 cm' = shape1 cm
      ∧ ∀ i j, entry cm' i j
               = Nat.iter
                   (length (filter (fun pl => falls_on (shape0 cm) (shape1 cm) i j pl = true)
                              pairs))
                   (fun x => fadd x fone) (entry cm i j)
  | Raise e =>
      e = IndexError
      ∧ ∃ pl, pl ∈ pairs
              ∧ (ConfusionMatrix.axis_index (shape0 cm) pl.2 = Raise IndexError
                 ∨ ConfusionMatrix.axis_index (shape1 cm) pl.1 = Raise IndexError)
  end.
Proof.
  revert cm. induction pairs as [|[pred label] pairs IH]; intros cm; simpl.
  - done.
  - pose proof (increment_cases cm label pred) as Hstep.
    destruct (ConfusionMatrix.increment cm label pred) as [cm1|e]; simpl.
    + destruct Hstep as (Hrows & Hcols & Hentry).
      specialize (IH cm1).
      destruct (for_fold _ cm1 pairs) as [cm'|e].
      * destruct IH as (Hrows' & Hcols' & Hentry').
        split; [congruence|]. split; [congruence|]. intros i j.
        rewrite Hentry', Hentry, Hrows, Hcols.
        destruct (falls_on (shape0 cm) (shape1 cm) i j (pred, label)) eqn:Hon.
        -- rewrite filter_cons_True by done. simpl length.
           by rewrite Nat.iter_succ_r.
        -- rewrite filter_cons_False by congruence. done.
      * destruct IH as (-> & pl & Hpl & Hbad). split; [done|].
        exists pl. rewrite <- Hrows, <- Hcols. split; [by right|done].
    + destruct Hstep as (-> & Hbad). split; [done|].
      exists (pred, label). split; [by left|done].
Qed.

(** X15. [ConfusionMatrix.update] adds one to the cell [label, pred] of
    every pair, in the order of the pairs and for as many pairs as both
    lists have, a negative index counting from the end; the shape and the
    other cells stay.  It raises only [IndexError], and only when a label
    or a prediction of some pair is outside the matrix. *)
Theorem confusion_update cm (preds labels : list Z) :
  match ConfusionMatrix.update cm preds labels with
  | Ok cm' =>
      shape0 cm' = shape0 cm ∧ shape1 cm' = shape1 cm
      ∧ ∀ i j, entry cm' i j
               = Nat.iter (pairs_on (shape0 cm) (shape1 cm) preds labels i j)
                   (fun x => fadd x fone) (entry cm i j)
  | Raise e =>
      e = IndexError
      ∧ ∃ pl, pl ∈ zip preds labels
              ∧ (ConfusionMatrix.axis_index (shape0 cm) pl.2 = Raise IndexError
                 ∨ ConfusionMatrix.axis_index (shape1 cm) pl.1 = Raise IndexError)
  end.
Proof. apply update_cases. Qed.

Lemma axis_index_in_range (n : nat) (i : Z) :
  - Z.of_nat n <= i < Z.of_nat n -> ∃ k, ConfusionMatrix.axis_index n i = Ok k.
Proof.
  intros Hi. unfold ConfusionMatrix.axis_index.
  repeat case_decide; eauto. lia.
Qed.

(** X16. After [start_test], a batch of one-dimensional predictions
    whose labels and predictions index the [k] classes leaves a matrix of
    [k] by [k] cells in which every cell holds as many ones, added to
    zero, as pairs of the batch fall on it. *)
Theorem confusion_first_batch self (e : Z) self1 (predicted targets : itensor) :
  ConfusionMatrix.start_test self e = Returns self1 ->
  length (ishape predicted) = 1%nat ->
  Forall (fun i => - Z.of_nat (ConfusionMatrix.k self) <= i
                   < Z.of_nat (ConfusionMatrix.k self))
         (ivalues predicted ++ ivalues targets) ->
  ∃ cm,
    ConfusionMatrix.update_batch self1 predicted targets
    = Returns {| ConfusionMatrix.epoch := ConfusionMatrix.epoch self;
                 ConfusionMatrix.k := ConfusionMatrix.k self;
                 ConfusionMatrix.m := Some cm |}
    ∧ shape0 cm = ConfusionMatrix.k self ∧ shape1 cm = ConfusionMatrix.k self
    ∧ ∀ i j, entry cm i j
             = Nat.iter (pairs_on (ConfusionMatrix.k self) (ConfusionMatrix.k self)
                           (ivalues predicted) (ivalues targets) i j)
                 (fun x => fadd x fone) fzero.
Proof.
  unfold ConfusionMatrix.start_test.
  destruct (Noop.assert_epoch _ _); simpl; [|done].
  intros [= <-] Hrank Hrange. unfold ConfusionMatrix.update_batch.
  rewrite decide_True by done. simpl.
  set (zeros := Tensor (ConfusionMatrix.k self) (ConfusionMatrix.k self)
                  (fun _ _ => fzero)).
  pose proof (update_cases zeros (zip (ivalues predicted) (ivalues targets)))
    as Hupdate.
  unfold ConfusionMatrix.update.
  destruct (for_fold _ zeros _) as [cm|err]; simpl.
  - exists cm. destruct Hupdate as (Hrows & Hcols & Hentry). done.
  - destruct Hupdate as (_ & [pred label] & Hpl & Hbad). exfalso.
    apply Forall_app in Hrange as [Hpreds Htargets].
    rewrite Forall_forall in Hpreds, Htargets.
    pose proof (elem_of_zip_l _ _ _ _ Hpl) as Hpred.
    pose proof (elem_of_zip_r _ _ _ _ Hpl) as Hlabel.
    simpl in Hbad.
    destruct (axis_index_in_range (ConfusionMatrix.k self) label) as [row Hrow];
      [by apply Htargets|].
    destruct (axis_index_in_range (ConfusionMatrix.k self) pred) as [col Hcol];
      [by apply Hpreds|].
    destruct Hbad; congruence.
Qed.

(** X17. Before the first [start_test] the matrix is [None]:
    [update_batch] with one-dimensional predictions raises [TypeError] as
    soon as there is a pair to count, and [recall], [precision] and an
    [end_test] of the current epoch raise [AttributeError]. *)
Theorem confusion_before_start_test (trainset_classes : list string)
    (predicted targets : itensor) (e : Z) :
  length (ishape predicted) = 1%nat ->
  ivalues predicted ≠ [] -> ivalues targets ≠ [] ->
  ConfusionMatrix.update_batch (ConfusionMatrix.init (F:=F) trainset_classes)
    predicted targets = Throws TypeError
  ∧ ConfusionMatrix.recall (ConfusionMatrix.init (F:=F) trainset_classes)
    = Throws AttributeError
  ∧ ConfusionMatrix.precision (ConfusionMatrix.init (F:=F) trainset_classes)
    = Throws AttributeError
  ∧ (ConfusionMatrix.start_epoch (ConfusionMatrix.init (F:=F) trainset_classes) e
       ≫= fun self => ConfusionMatrix.end_test self e)
    = Throws AttributeError.
Proof.
  intros Hrank Hpreds Htargets. repeat split.
  - unfold ConfusionMatrix.update_batch.
    rewrite decide_True by done. simpl.
    by destruct (ivalues predicted), (ivalues targets).
  - unfold ConfusionMatrix.end_test. simpl.
    unfold Noop.assert_epoch. by rewrite decide_True.
Qed.
End Confusion.

Lemma confusion_first_batch_witness :
  ∃ cm,
    ConfusionMatrix.update_batch
      {| ConfusionMatrix.epoch := Some 0; ConfusionMatrix.k := 2;
         ConfusionMatrix.m := Some (Tensor 2 2 (fun _ _ => fzero)) |}
      {| ishape := [3%nat]; ivalues := [0; 1; 1] |}
      {| ishape := [3%nat]; ivalues := [0; 1; 0] |}
    = Returns {| ConfusionMatrix.epoch := Some 0; ConfusionMatrix.k := 2;
                 ConfusionMatrix.m := Some cm |}
    ∧ shape0 cm = 2%nat ∧ shape1 cm = 2%nat
    ∧ ∀ i j, entry cm i j
             = Nat.iter (pairs_on 2 2 [0; 1; 1] [0; 1; 0] i j)
                 (fun x => fadd x fone) fzero.
Proof.
  refine (confusion_first_batch Example.confusion 0 _
            {| ishape := [3%nat]; ivalues := [0; 1; 1] |}
            {| ishape := [3%nat]; ivalues := [0; 1; 0] |} _ _ _).
  - reflexivity.
  - reflexivity.
  - repeat constructor; simpl; lia.
Defined.

Lemma confusion_before_start_test_witness :
  ConfusionMatrix.update_batch
    (ConfusionMatrix.init (F:=QArith_base.Q) ["cat"; "dog"])
    {| ishape := [1%nat]; ivalues := [0] |}
    {| ishape := [1%nat]; ivalues := [1] |}
  = Throws TypeError.
Proof.
  refine (proj1 (confusion_before_start_test ["cat"; "dog"]
                   {| ishape := [1%nat]; ivalues := [0] |}
                   {| ishape := [1%nat]; ivalues := [1] |} 0 _ _ _));
    (reflexivity || discriminate).
Defined.

(** ** Recall and precision, in exact arithmetic *)

Module Normalized.
Import Reals Lra.
Local Close Scope R_scope.

Lemma sum_divided (total : R) (f : nat -> R) (l : list nat) (acc : R) :
  foldl (fun acc i => fadd acc (fdiv (f i) total)) (acc / total)%R l
  = (foldl (fun acc i => fadd acc (f i)) acc l / total)%R.
Proof.
  revert acc. induction l as [|i l IH]; intros acc; simpl; [done|].
  rewrite <- IH. f_equal. unfold Rdiv. ring.
Qed.

Lemma sum_upto_divided (total : R) (k : nat) (f : nat -> R) :
  sum_upto k (fun i => fdiv (f i) total) = (sum_upto k f / total)%R.
Proof.
  unfold sum_upto. rewrite <- sum_divided. f_equal. simpl. unfold Rdiv. ring.
Qed.

(** The sum of the entries that [normalize] divides an entry by: row
    [i] for [Axis1], column [i] for [Axis0]. *)
Lemma normalize_entry (cm : tensor R) (a : axis) (i j : nat) :
  entry (ConfusionMatrix.normalize cm a) i j
  = (entry cm i j
     / match a with
       | Axis1 => sum_upto (shape1 cm) (fun j' => entry cm i j')
       | Axis0 => sum_upto (shape0 cm) (fun i' => entry cm i' j)
       end)%R.
Proof. reflexivity. Qed.

(** X18. In exact arithmetic every row of the recall whose counts do
    not sum to zero sums to one, and so does every such column of the
    precision. *)
Theorem normalize_sums_to_one (cm : tensor R) (a : axis) (i : nat) :
  match a with
  | Axis1 => sum_upto (shape1 cm) (fun j => entry cm i j)
  | Axis0 => sum_upto (shape0 cm) (fun i' => entry cm i' i)
  end ≠ 0%R ->
  match a with
  | Axis1 => sum_upto (shape1 cm)
               (fun j => entry (ConfusionMatrix.normalize cm Axis1) i j)
  | Axis0 => sum_upto (shape0 cm)
               (fun i' => entry (ConfusionMatrix.normalize cm Axis0) i' i)
  end = 1%R.
Proof.
  destruct a; intros Hsupport.
  - rewrite (sum_upto_ext _ _
               (fun i' => fdiv (entry cm i' i)
                            (sum_upto (shape0 cm) (fun i' => entry cm i' i))))
      by (intros; apply normalize_entry).
    rewrite sum_upto_divided. unfold Rdiv. by apply Rinv_r.
  - rewrite (sum_upto_ext _ _
               (fun j => fdiv (entry cm i j)
                           (sum_upto (shape1 cm) (fun j => entry cm i j))))
      by (intros; apply normalize_entry).
    rewrite sum_upto_divided. unfold Rdiv. by apply Rinv_r.
Qed.

Lemma normalize_sums_to_one_witness :
  sum_upto 2 (fun j => entry (ConfusionMatrix.normalize
                                (Tensor 2 2 (fun _ _ => 1%R)) Axis1) 0%nat j)
  = 1%R.
Proof.
  refine (normalize_sums_to_one (Tensor 2 2 (fun _ _ => 1%R)) Axis1 0 _).
  unfold sum_upto. simpl. lra.
Defined.
End Normalized.

(** ** The hooks that check the epoch *)

Section CheckedHooks.
Context {Graph : Type}.
Implicit Types (self : DecisionTreePrior.t Graph).

End CheckedHooks.


(** ** A sample that is not applicable at the root *)

Section Inapplicable.
Context {Graph : Type} `{GraphOps Graph}.
Implicit Types (self : DecisionTreePrior.t Graph) (root : Node Graph).
Implicit Types (decisions : gmap string (list Z * list bool)).

(** X20. A sample that the selector of the root marks as not applicable
    is unresolved, whatever the decision data of the other nodes: the
    entry of the sample in the answer of [traverse_tree] is [-1]. *)
Theorem inapplicable_at_root (fuel : nat) self (predicted : list Z) decisions
    root (n_samples index : nat) (pred_sub : list Z) (selector : list bool)
    (preds : list Z) :
  DecisionTreePrior.wnid_to_node self !! get_root (DecisionTreePrior.graph self)
    = Some root ->
  decisions !! wnid root = Some (pred_sub, selector) ->
  selector !! index = Some false ->
  (index < n_samples)%nat ->
  DecisionTreePrior.traverse_tree fuel self predicted decisions n_samples
    = Some (Ok preds) ->
  preds !! index = Some (-1).
Proof.
  intros Hroot Hdata Hselector Hindex Htree.
  apply (hard_traverse_tree_converted _ _ _ _ _ _ _ Hroot) in Htree.
  destruct Htree as (raw & Hall%traverse_samples_each & Hpreds).
  destruct (Forall2_lookup_l _ _ _ index index Hall) as (pred & Hpred & Hsample).
  { by apply lookup_seq_lt. }
  rewrite Hpreds. unfold long_tensor.
  change (map long_of_float32 raw) with (long_of_float32 <$> raw).
  rewrite list_lookup_fmap, Hpred. simpl.
  assert (pred = -1) as ->; [|done].
  unfold DecisionTreePrior.traverse_sample in Hsample.
  destruct fuel as [|fuel]; [done|]. simpl in Hsample.
  unfold DecisionTreePrior.loop_body, py_get in Hsample.
  rewrite Hdata, Hselector in Hsample. simpl in Hsample.
  unfold DecisionTreePrior.class_of_leaf in Hsample. simpl in Hsample. congruence.
Qed.
End Inapplicable.

Lemma inapplicable_at_root_witness :
  [2; -1] !! 1%nat = Some (-1).
Proof.
  refine (inapplicable_at_root 3 Example.two_level []
            (<["root" := ([1], [true; false])]> Example.decisions)
            Example.top 2 1 [1] [true; false] [2; -1] _ _ _ _ _).
  - vm_compute. reflexivity.
  - vm_compute. reflexivity.
  - reflexivity.
  - lia.
  - vm_compute. reflexivity.
Defined.

(** ** The exceptions of soft routing *)

Section LoopRaises.
Context {A B S : Type}.

(** A loop that raises does so in the body, at some element. *)
Lemma for_fold_raises (body : S -> A -> res S) (l : list A) (s0 : S) e :
  for_fold body s0 l = Raise e -> ∃ a s, a ∈ l ∧ body s a = Raise e.
Proof.
  revert s0. induction l as [|a l IH]; intros s0; simpl; [done|].
  destruct (body s0 a) as [s1|e'] eqn:Hbody; simpl.
  - intros (a' & s & Ha' & Hraise)%IH. exists a', s. split; [by right|done].
  - intros [= <-]. exists a, s0. split; [by left|done].
Qed.

Lemma for_each_raises (f : A -> res B) (l : list A) e :
  for_each f l = Raise e -> ∃ a, a ∈ l ∧ f a = Raise e.
Proof.
  induction l as [|a l IH]; simpl; [done|].
  destruct (f a) as [b|e'] eqn:Hfa; simpl.
  - destruct (for_each f l) as [bs|e'']; simpl; [done|].
    intros [= <-]. destruct (IH eq_refl) as (a' & Ha' & Hraise).
    exists a'. split; [by right|done].
  - intros [= <-]. exists a. split; [by left|done].
Qed.
End LoopRaises.

Section SoftExceptions.
Context {F : Type} `{Scalar F} {Graph : Type}.
Implicit Types (self : DecisionTreePrior.t Graph) (node : Node Graph).
Implicit Types (outputs : tensor F) (scores : gmap string (tensor F)).

Lemma node_logits_raises node outputs e :
  node_logits node outputs = Raise e -> e = IndexError ∨ e = RuntimeError.
Proof.
  unfold node_logits.
  destruct (for_each _ _) as [vs|e'] eqn:Hvs; simpl.
  - destruct (stack vs) as [t|e'] eqn:Ht; simpl; [done|].
    intros [= <-]. right. unfold stack in Ht.
    destruct vs; [congruence|]. destruct (forallb _ _); congruence.
  - intros [= <-]. apply for_each_raises in Hvs as (j & _ & Hj). left.
    unfold select_rows in Hj. destruct (forallb _ _); simpl in Hj; congruence.
Qed.

Lemma scale_node_raises node (output cp : tensor F) e :
  DecisionTreeBayesianPrior.scale_node node output cp = Raise e ->
  e = IndexError ∨ e = ValueError.
Proof.
  unfold DecisionTreeBayesianPrior.scale_node.
  intros (j & cp1 & _ & Hraise)%for_fold_raises.
  unfold imul_columns in Hraise.
  destruct (negb _); [left; congruence|].
  destruct (_ && _); [done|right; congruence].
Qed.

Lemma accuracy_line_raises (correct total : Z) e :
  accuracy_line correct total = Raise e ->
  (e = ZeroDivisionError ∧ total = 0) ∨ e = OverflowError.
Proof.
  unfold accuracy_line. repeat case_decide; intros [= <-]; auto.
Qed.

(** X21. [update_batch] of soft routing raises five exceptions only:
    [IndexError], [ValueError] and [RuntimeError] out of the two loops
    and the comparison with the targets, and [ZeroDivisionError] or
    [OverflowError] out of the accuracy, the former exactly on a total
    that is zero after the batch.  In particular the traversal never
    misses the scores of a node ([KeyError]), since the first loop
    stores them for every node. *)
Theorem soft_update_batch_raises self outputs (predicted targets : list Z) e :
  DecisionTreeBayesianPrior.update_batch self outputs predicted targets = Raise e ->
  e = IndexError ∨ e = ValueError ∨ e = RuntimeError
  ∨ (e = ZeroDivisionError
     ∧ DecisionTreePrior.total self + Z.of_nat (shape0 outputs) = 0)
  ∨ e = OverflowError.
Proof.
  unfold DecisionTreeBayesianPrior.update_batch.
  destruct (DecisionTreeBayesianPrior.collect self outputs) as [scores|e']
    eqn:Hcollect; simpl.
  - unfold DecisionTreeBayesianPrior.traverse_tree.
    destruct (DecisionTreeBayesianPrior.class_probs_of _ _ _) as [cp|e'] eqn:Hcp;
      simpl.
    + destruct (argmax_dim1 cp) as [ps|e'] eqn:Hps; simpl.
      * destruct (DecisionTreePrior.count_equal _ targets) as [hits|e'] eqn:Hhits;
          simpl.
        -- destruct (accuracy_line _ _) as [[]|e'] eqn:Hacc; simpl; [done|].
           intros [= <-].
           destruct (accuracy_line_raises _ _ _ Hacc) as [[-> Htotal]| ->];
             [right; right; right; left; by split|by do 4 right].
        -- intros [= <-]. unfold DecisionTreePrior.count_equal in Hhits.
           case_decide; [done|]. revert Hhits.
           destruct (long_tensor _) as [|? [|]], targets as [|? [|]];
             try done; intros [= <-]; auto.
      * intros [= <-]. unfold argmax_dim1 in Hps. case_decide; [|done].
        injection Hps as <-. auto.
    + intros [= <-]. unfold DecisionTreeBayesianPrior.class_probs_of in Hcp.
      apply for_fold_raises in Hcp as (node & cp1 & Hnode & Hraise).
      apply collect_scores in Hcollect as [Hpresent _].
      destruct (Hpresent node Hnode) as [t Ht]. rewrite Ht in Hraise.
      simpl in Hraise.
      destruct (scale_node_raises _ _ _ _ Hraise) as [->| ->]; auto.
  - intros [= <-]. unfold DecisionTreeBayesianPrior.collect in Hcollect.
    apply for_fold_raises in Hcollect as (node & w & _ & Hraise).
    destruct (node_logits node outputs) as [t|err] eqn:Ht; simpl in Hraise; [done|].
    injection Hraise as ->.
    destruct (node_logits_raises _ _ _ Ht) as [->| ->]; auto.
Qed.
End SoftExceptions.

Lemma soft_update_batch_raises_witness :
  ZeroDivisionError = IndexError ∨ ZeroDivisionError = ValueError
  ∨ ZeroDivisionError = RuntimeError
  ∨ (ZeroDivisionError = ZeroDivisionError
     ∧ DecisionTreePrior.total Example.flat
       + Z.of_nat (shape0 (Example.rows 2 [])) = 0)
  ∨ ZeroDivisionError = OverflowError.
Proof.
  refine (soft_update_batch_raises Example.flat (Example.rows 2 []) [] []
            ZeroDivisionError _).
  vm_compute. reflexivity.
Defined.
